(** * Shallow embedding of the SGen collector core (mono/metadata/sgen-gc.c)

    The development follows the source file section by section:
    machine integers, heap-size accounting, registered roots, the
    minor-collection allowance, the nursery collection driver, the write
    barriers, the gray-stack finisher and conservative pinning.

    Conventions.
    - [mword], [size_t] and pointers stored in words are 64-bit unsigned
      (LP64); [int] is 32-bit signed and [glong] 64-bit signed.  Their
      wrap-around is written out with [to_mword], [to_int].
    - Pointer arithmetic inside a section (pinning) is done on
      mathematical addresses: overflowing pointer arithmetic is undefined
      in C and never happens inside an allocated section.
    - Code that lives in other translation units (the major collector, the
      remembered set, the hash table, the gray queue, ...) is taken as a
      parameter of the section that uses it. *)

From Stdlib Require Import ZArith Lia List Bool String Sorted.
From stdpp Require Import base gmap list.

Local Open Scope Z_scope.

(** ** Outcomes of fallible code *)

Inductive Failure : Type :=
| AssertionFailure   (* g_assert / g_assert_not_reached *)
| OutOfBounds        (* a read outside an array: undefined in C *)
| FuelExhausted.     (* the loop did not finish within the given fuel *)

Inductive Outcome (A : Type) : Type :=
| Ret (a : A)
| Abort (f : Failure).

Arguments Ret {A} a.
Arguments Abort {A} f.

(** ** Machine integers *)

Module Mach.

Definition mword_bits : Z := 64.
Definition mword_modulus : Z := 2 ^ mword_bits.

(** Conversion to [mword] / [size_t] / [unsigned long]. *)
Definition to_mword (z : Z) : Z := z mod mword_modulus.

(** Conversion to [int] (32-bit two's complement). *)
Definition to_int (z : Z) : Z := (z + 2 ^ 31) mod 2 ^ 32 - 2 ^ 31.

(** Conversion to [guint] (32-bit unsigned). *)
Definition to_guint (z : Z) : Z := z mod 2 ^ 32.

(** glib's [MIN] and [MAX] macros, applied to two values of one type. *)
Definition MIN (a b : Z) : Z := if a <? b then a else b.
Definition MAX (a b : Z) : Z := if a >? b then a else b.

Definition is_mword (z : Z) : Prop := 0 <= z < mword_modulus.
Definition is_glong (z : Z) : Prop := - 2 ^ 63 <= z < 2 ^ 63.

Definition TRUE : Z := 1.
Definition FALSE : Z := 0.

Definition GENERATION_NURSERY : Z := 0.
Definition GENERATION_OLD : Z := 1.

End Mach.

Import Mach.

(** ** Registered roots support *)

Module Roots.

Inductive RootType : Type :=
| ROOT_TYPE_NORMAL     (* 0: "normal" roots *)
| ROOT_TYPE_PINNED     (* 1: roots without a GC descriptor *)
| ROOT_TYPE_WBARRIER.  (* 2: roots with a write barrier *)

#[global] Instance RootType_eq_dec : EqDecision RootType.
Proof. solve_decision. Defined.

(** The order in which [for (i = 0; i < ROOT_TYPE_NUM; ++i)] visits the
    tables. *)
Definition root_type_order : list RootType :=
  [ROOT_TYPE_NORMAL; ROOT_TYPE_PINNED; ROOT_TYPE_WBARRIER].

(** [RootRecord]; the key of the hash table is the start address. *)
Record RootRecord : Type := mkRoot { end_root : Z; root_desc : Z }.

(** The globals [roots_hash [ROOT_TYPE_NUM]] and [roots_size]. *)
Record RootTables : Type := mkRoots {
  roots_hash : RootType -> gmap Z RootRecord;
  roots_size : Z
}.

Definition set_table (t : RootType) (m : gmap Z RootRecord)
    (h : RootType -> gmap Z RootRecord) : RootType -> gmap Z RootRecord :=
  fun t' => if decide (t' = t) then m else h t'.

(** The lookup loop of [mono_gc_register_root_inner]: the first table, in
    index order, that holds [start]. *)
Fixpoint find_registered (ts : list RootType)
    (h : RootType -> gmap Z RootRecord) (start : Z)
    : option (RootType * RootRecord) :=
  match ts with
  | [] => None
  | t :: ts' =>
      match h t !! start with
      | Some root => Some (t, root)
      | None => find_registered ts' h start
      end
  end.

(** The condition of the [g_assert] in the re-registration path. *)
Definition desc_compatible (old_desc descr : Z) : bool :=
  (negb (old_desc =? 0) && negb (descr =? 0))
  || ((old_desc =? 0) && (descr =? 0)).

Definition mono_gc_register_root_inner (start size descr : Z)
    (root_type : RootType) (st : RootTables) : Outcome (Z * RootTables) :=
  match find_registered root_type_order (roots_hash st) start with
  | Some (i, root) =>
      (* we allow changing the size and the descriptor *)
      let old_size := to_mword (end_root root - start) in
      if desc_compatible (root_desc root) descr then
        let root' := {| end_root := to_mword (start + size);
                        root_desc := descr |} in
        Ret (TRUE,
             {| roots_hash :=
                  set_table i (<[start := root']> (roots_hash st i))
                    (roots_hash st);
                roots_size :=
                  to_mword (to_mword (roots_size st + size) - old_size) |})
      else Abort AssertionFailure
  | None =>
      let new_root := {| end_root := to_mword (start + size);
                         root_desc := descr |} in
      Ret (TRUE,
           {| roots_hash :=
                set_table root_type
                  (<[start := new_root]> (roots_hash st root_type))
                  (roots_hash st);
              roots_size := to_mword (roots_size st + size) |})
  end.

Definition mono_gc_register_root (start size descr : Z) (st : RootTables)
    : Outcome (Z * RootTables) :=
  mono_gc_register_root_inner start size descr
    (if descr =? 0 then ROOT_TYPE_PINNED else ROOT_TYPE_NORMAL) st.

Definition mono_gc_register_root_wbarrier (start size descr : Z)
    (st : RootTables) : Outcome (Z * RootTables) :=
  mono_gc_register_root_inner start size descr ROOT_TYPE_WBARRIER st.

(** One iteration of the loop of [mono_gc_deregister_root]:
    [mono_sgen_hash_table_remove] copies the removed record out. *)
Definition deregister_in (addr : Z) (st : RootTables) (root_type : RootType)
    : RootTables :=
  match roots_hash st root_type !! addr with
  | Some root =>
      {| roots_hash :=
           set_table root_type (delete addr (roots_hash st root_type))
             (roots_hash st);
         roots_size := to_mword (roots_size st - (end_root root - addr)) |}
  | None => st
  end.

Definition mono_gc_deregister_root (addr : Z) (st : RootTables) : RootTables :=
  fold_left (deregister_in addr) root_type_order st.

(** [start] is in none of the three tables. *)
Definition unregistered (st : RootTables) (start : Z) : Prop :=
  forall t, roots_hash st t !! start = None.

(** [start] is registered, and [i] is the first table that holds it. *)
Definition registered_in (st : RootTables) (start : Z) (i : RootType)
    (root : RootRecord) : Prop :=
  find_registered root_type_order (roots_hash st) start = Some (i, root).

End Roots.

(** ** Heap size accounting *)

Module HeapLimits.

(** The globals [max_heap_size], [soft_heap_limit] and [nursery_size]
    (all [mword]). *)
Record Limits : Type := mkLimits {
  max_heap_size : Z;
  soft_heap_limit : Z;
  nursery_size : Z
}.

Inductive InitOutcome : Type :=
| InitDone (st : Limits)
| InitFatal (message : string).   (* fprintf (stderr, message); exit (1) *)

(** [max_heap] and [soft_limit] are [glong]; [max_heap < soft_limit] is a
    signed comparison, while [max_heap < nursery_size * 4] converts
    [max_heap] to [mword]. *)
Definition init_heap_size_limits (max_heap soft_limit : Z) (st : Limits)
    : InitOutcome :=
  let st1 :=
    if negb (soft_limit =? 0)
    then {| max_heap_size := max_heap_size st;
            soft_heap_limit := to_mword soft_limit;
            nursery_size := nursery_size st |}
    else st in
  if max_heap =? 0 then InitDone st1
  else if max_heap <? soft_limit then
    InitFatal "max-heap-size must be at least as large as soft-heap-limit."
  else if to_mword max_heap <? to_mword (nursery_size st1 * 4) then
    InitFatal "max-heap-size must be at least 4 times larger than nursery size."
  else
    InitDone {| max_heap_size := to_mword (max_heap - nursery_size st1);
                soft_heap_limit := soft_heap_limit st1;
                nursery_size := nursery_size st1 |}.

(** A max-heap-size is configured when the option was given a non-zero
    value: [mono_gc_base_init] starts with [max_heap = 0]. *)
Definition max_heap_configured (max_heap : Z) : Prop := max_heap <> 0.

Definition is_fatal (o : InitOutcome) : Prop :=
  match o with InitFatal _ => True | InitDone _ => False end.

End HeapLimits.

(** ** Collector globals, the allowance heuristic and the nursery driver *)

Module Collector.

Section WithWorld.

(** Everything the collaborators own (sections, major heap, LOS, queues,
    thread data, ...). *)
Context {World : Type}.

(** The file-level globals the modelled functions read or write, and the
    collaborators' state. *)
Record GCState : Type := mkGC {
  disable_minor_collections : bool;
  current_collection_generation : Z;                 (* int *)
  degraded_mode : Z;                                 (* int *)
  objects_pinned : Z;                                (* mword *)
  bytes_pinned_from_failed_allocation : Z;           (* mword *)
  max_heap_size : Z;                                 (* mword *)
  soft_heap_limit : Z;                               (* mword *)
  allocated_heap : Z;                                (* mword *)
  minor_collection_allowance : Z;                    (* mword *)
  minor_collection_sections_alloced : Z;             (* int *)
  need_calculate_minor_collection_allowance : bool;
  last_collection_old_num_major_sections : Z;        (* int *)
  last_collection_los_memory_usage : Z;              (* mword *)
  last_collection_old_los_memory_usage : Z;          (* mword *)
  last_collection_los_memory_alloced : Z;            (* mword *)
  los_memory_usage : Z;                              (* mword, sgen-los.c *)
  world : World
}.

Definition set_minor_collection_allowance (v : Z) (s : GCState) : GCState :=
  mkGC (disable_minor_collections s) (current_collection_generation s)
    (degraded_mode s) (objects_pinned s)
    (bytes_pinned_from_failed_allocation s) (max_heap_size s)
    (soft_heap_limit s) (allocated_heap s) v
    (minor_collection_sections_alloced s)
    (need_calculate_minor_collection_allowance s)
    (last_collection_old_num_major_sections s)
    (last_collection_los_memory_usage s)
    (last_collection_old_los_memory_usage s)
    (last_collection_los_memory_alloced s) (los_memory_usage s) (world s).

Definition set_need_calculate (v : bool) (s : GCState) : GCState :=
  mkGC (disable_minor_collections s) (current_collection_generation s)
    (degraded_mode s) (objects_pinned s)
    (bytes_pinned_from_failed_allocation s) (max_heap_size s)
    (soft_heap_limit s) (allocated_heap s) (minor_collection_allowance s)
    (minor_collection_sections_alloced s) v
    (last_collection_old_num_major_sections s)
    (last_collection_los_memory_usage s)
    (last_collection_old_los_memory_usage s)
    (last_collection_los_memory_alloced s) (los_memory_usage s) (world s).

Definition set_current_collection_generation (v : Z) (s : GCState) : GCState :=
  mkGC (disable_minor_collections s) v
    (degraded_mode s) (objects_pinned s)
    (bytes_pinned_from_failed_allocation s) (max_heap_size s)
    (soft_heap_limit s) (allocated_heap s) (minor_collection_allowance s)
    (minor_collection_sections_alloced s)
    (need_calculate_minor_collection_allowance s)
    (last_collection_old_num_major_sections s)
    (last_collection_los_memory_usage s)
    (last_collection_old_los_memory_usage s)
    (last_collection_los_memory_alloced s) (los_memory_usage s) (world s).

Definition set_degraded_mode (v : Z) (s : GCState) : GCState :=
  mkGC (disable_minor_collections s) (current_collection_generation s)
    v (objects_pinned s)
    (bytes_pinned_from_failed_allocation s) (max_heap_size s)
    (soft_heap_limit s) (allocated_heap s) (minor_collection_allowance s)
    (minor_collection_sections_alloced s)
    (need_calculate_minor_collection_allowance s)
    (last_collection_old_num_major_sections s)
    (last_collection_los_memory_usage s)
    (last_collection_old_los_memory_usage s)
    (last_collection_los_memory_alloced s) (los_memory_usage s) (world s).

Definition set_objects_pinned (v : Z) (s : GCState) : GCState :=
  mkGC (disable_minor_collections s) (current_collection_generation s)
    (degraded_mode s) v
    (bytes_pinned_from_failed_allocation s) (max_heap_size s)
    (soft_heap_limit s) (allocated_heap s) (minor_collection_allowance s)
    (minor_collection_sections_alloced s)
    (need_calculate_minor_collection_allowance s)
    (last_collection_old_num_major_sections s)
    (last_collection_los_memory_usage s)
    (last_collection_old_los_memory_usage s)
    (last_collection_los_memory_alloced s) (los_memory_usage s) (world s).

Definition set_bytes_pinned_from_failed_allocation (v : Z) (s : GCState)
    : GCState :=
  mkGC (disable_minor_collections s) (current_collection_generation s)
    (degraded_mode s) (objects_pinned s) v (max_heap_size s)
    (soft_heap_limit s) (allocated_heap s) (minor_collection_allowance s)
    (minor_collection_sections_alloced s)
    (need_calculate_minor_collection_allowance s)
    (last_collection_old_num_major_sections s)
    (last_collection_los_memory_usage s)
    (last_collection_old_los_memory_usage s)
    (last_collection_los_memory_alloced s) (los_memory_usage s) (world s).

Definition set_world (v : World) (s : GCState) : GCState :=
  mkGC (disable_minor_collections s) (current_collection_generation s)
    (degraded_mode s) (objects_pinned s)
    (bytes_pinned_from_failed_allocation s) (max_heap_size s)
    (soft_heap_limit s) (allocated_heap s) (minor_collection_allowance s)
    (minor_collection_sections_alloced s)
    (need_calculate_minor_collection_allowance s)
    (last_collection_old_num_major_sections s)
    (last_collection_los_memory_usage s)
    (last_collection_old_los_memory_usage s)
    (last_collection_los_memory_alloced s) (los_memory_usage s) v.

(** The part of the [major_collector] record of function pointers that
    the allowance code consults, the constant [DEFAULT_NURSERY_SIZE] of
    sgen-gc.h, and the value of the floating-point expression of
    [try_calculate_minor_collection_allowance] after its [(mword)] cast,
    as a function of [save_target], of the bytes allocated and of the
    bytes saved. *)
Record MajorCollector : Type := mkMajor {
  section_size : Z;                                        (* size_t *)
  get_num_major_sections : World -> Z;                     (* int *)
  have_swept : World -> bool;                              (* *have_swept *)
  have_computed_minor_collection_allowance : option (World -> World);
  DEFAULT_NURSERY_SIZE : Z;
  allowance_quotient : Z -> Z -> Z -> Z
}.

Variable major_collector : MajorCollector.

Definition MIN_MINOR_COLLECTION_ALLOWANCE : Z :=
  to_mword (DEFAULT_NURSERY_SIZE major_collector * 4).

(** The locals of [try_calculate_minor_collection_allowance], as functions
    of the state in which it runs. *)
Definition num_major_sections (s : GCState) : Z :=
  to_int (get_num_major_sections major_collector (world s)).

Definition num_major_sections_saved (s : GCState) : Z :=
  MAX (to_int (last_collection_old_num_major_sections s
               - num_major_sections s)) 0.

Definition los_memory_saved (s : GCState) : Z :=
  MAX (to_mword (last_collection_old_los_memory_usage s
                 - last_collection_los_memory_usage s)) 1.

Definition new_major (s : GCState) : Z :=
  to_mword (num_major_sections s * section_size major_collector).

Definition new_heap_size (s : GCState) : Z :=
  to_mword (new_major s + last_collection_los_memory_usage s).

Definition save_target (s : GCState) : Z :=
  to_int (to_mword (new_major s + los_memory_saved s) / 2).

Definition allowance_target (s : GCState) : Z :=
  to_int (allowance_quotient major_collector (save_target s)
            (to_mword (minor_collection_sections_alloced s
                         * section_size major_collector
                       + last_collection_los_memory_alloced s))
            (to_mword (num_major_sections_saved s
                         * section_size major_collector
                       + los_memory_saved s))).

(** [num_major_sections * major_collector.section_size + los_memory_usage] *)
Definition allowance_ceiling (s : GCState) : Z :=
  to_mword (num_major_sections s * section_size major_collector
            + los_memory_usage s).

(** The first assignment to [minor_collection_allowance]. *)
Definition first_clamp (s : GCState) : Z :=
  MAX (MIN (to_mword (allowance_target s)) (allowance_ceiling s))
      MIN_MINOR_COLLECTION_ALLOWANCE.

(** The value after the soft-heap-limit adjustment. *)
Definition second_clamp (s : GCState) : Z :=
  if to_mword (new_heap_size s + first_clamp s) >? soft_heap_limit s then
    if new_heap_size s >? soft_heap_limit s then
      MIN_MINOR_COLLECTION_ALLOWANCE
    else
      MAX (to_mword (soft_heap_limit s - new_heap_size s))
          MIN_MINOR_COLLECTION_ALLOWANCE
  else first_clamp s.

Definition call_have_computed (s : GCState) : GCState :=
  match have_computed_minor_collection_allowance major_collector with
  | Some f => set_world (f (world s)) s
  | None => s
  end.

Definition try_calculate_minor_collection_allowance (overwrite : bool)
    (s : GCState) : Outcome GCState :=
  if overwrite && negb (need_calculate_minor_collection_allowance s) then
    Abort AssertionFailure
  else if negb (need_calculate_minor_collection_allowance s) then Ret s
  else if negb (have_swept major_collector (world s)) then
    Ret (if overwrite
         then set_minor_collection_allowance MIN_MINOR_COLLECTION_ALLOWANCE s
         else s)
  else
    Ret (set_need_calculate false
           (call_have_computed
              (set_minor_collection_allowance (second_clamp s) s))).

(** The allowance is recomputed when the flag set by the last major
    collection is up and the major collector has swept. *)
Definition recomputes_allowance (s : GCState) : Prop :=
  need_calculate_minor_collection_allowance s = true
  /\ have_swept major_collector (world s) = true.

Definition available_free_space (s : GCState) : Z :=
  to_mword (max_heap_size s - MIN (allocated_heap s) (max_heap_size s)).

Definition need_major_collection (space_needed : Z) (s : GCState) : bool :=
  let los_alloced :=
    to_mword (los_memory_usage s
              - MIN (last_collection_los_memory_usage s) (los_memory_usage s)) in
  (space_needed >? available_free_space s)
  || (to_mword (minor_collection_sections_alloced s
                  * section_size major_collector + los_alloced)
      >? minor_collection_allowance s).

Definition reset_pinned_from_failed_allocation (s : GCState) : GCState :=
  set_bytes_pinned_from_failed_allocation 0 s.

(** The stretches of [collect_nursery] made of calls into other
    translation units.  Each may fail one of its assertions; each may
    change any global (evacuation calls back into [mono_sgen_pin_object],
    which increments [objects_pinned], and into
    [mono_sgen_register_major_sections_alloced]). *)
Record NurseryPhases : Type := mkPhases {
  (* verify_nursery ... *)
  verify_and_count : GCState -> Outcome GCState;
  (* binary_protocol_collection; check_scan_starts *)
  announce_collection : GCState -> Outcome GCState;
  (* nursery_next ... major_collector.start_nursery_collection *)
  start_collection : GCState -> Outcome GCState;
  (* gray queue init ... finish_gray_stack; mono_sgen_workers_reset_data *)
  pin_scan_and_finish : GCState -> Outcome GCState;
  (* mono_sgen_optimize_pin_queue (0); mono_sgen_pinning_setup_section *)
  resort_pin_queue : GCState -> Outcome GCState;
  (* mono_sgen_build_nursery_fragments: returns fragment_total *)
  build_nursery_fragments : GCState -> Z * GCState;
  (* mono_sgen_clear_tlabs ... binary_protocol_flush_buffers *)
  finish_collection : GCState -> Outcome GCState
}.

Variable phases : NurseryPhases.

Definition bind {A B : Type} (o : Outcome A) (k : A -> Outcome B) : Outcome B :=
  match o with
  | Ret a => k a
  | Abort f => Abort f
  end.

(** [collect_nursery] from the statement after the [disable_minor_collections]
    test up to, and excluding, the computation of [needs_major]. *)
Definition nursery_collection (s : GCState) : Outcome GCState :=
  bind (verify_and_count phases s) (fun s =>
  let s := set_current_collection_generation GENERATION_NURSERY s in
  let s := reset_pinned_from_failed_allocation s in
  bind (announce_collection phases s) (fun s =>
  let s := set_degraded_mode 0 s in
  let s := set_objects_pinned 0 s in
  bind (start_collection phases s) (fun s =>
  bind (try_calculate_minor_collection_allowance false s) (fun s =>
  bind (pin_scan_and_finish phases s) (fun s =>
  bind (if negb (objects_pinned s =? 0)
        then resort_pin_queue phases s else Ret s) (fun s =>
  let '(fragment_total, s) := build_nursery_fragments phases s in
  let s := if fragment_total =? 0 then set_degraded_mode 1 s else s in
  finish_collection phases s)))))).

Definition collect_nursery (requested_size : Z) (s : GCState)
    : Outcome (bool * GCState) :=
  if disable_minor_collections s then Ret (true, s)
  else
    bind (nursery_collection s) (fun s =>
    (* objects are late pinned because of lack of memory *)
    let needs_major :=
      need_major_collection 0 s || negb (objects_pinned s =? 0) in
    let s := set_current_collection_generation (-1) s in
    let s := set_objects_pinned 0 s in
    Ret (needs_major, s)).

End WithWorld.

Arguments GCState : clear implicits.
Arguments MajorCollector : clear implicits.
Arguments NurseryPhases : clear implicits.

End Collector.

(** ** Write barriers *)

Module Barriers.

(** What a mutator-visible barrier does to the heap and the remembered
    set, in the order in which it does it. *)
Inductive BarrierEvent : Type :=
| EvStore (slot value : Z)     (* *(void** )slot = value *)
| EvRecord (slot : Z).         (* the slot enters the remembered set *)

(** Mutator-visible state: the words of memory, the remembered set, and
    the history of stores and recordings. *)
Record BarrierState : Type := mkBarrier {
  memory : Z -> Z;
  remembered : list Z;
  history : list BarrierEvent
}.

Definition store (slot value : Z) (s : BarrierState) : BarrierState :=
  {| memory := fun a => if a =? slot then value else memory s a;
     remembered := remembered s;
     history := history s ++ [EvStore slot value] |}.

Definition record_slot (slot : Z) (s : BarrierState) : BarrierState :=
  {| memory := memory s;
     remembered := remembered s ++ [slot];
     history := history s ++ [EvRecord slot] |}.

(** The [remset] record of function pointers (sgen-ssb.c or
    sgen-cardtable.c), restricted to the barriers modelled here. *)
Record RemsetOps : Type := mkRemset {
  wbarrier_set_field : Z -> Z -> Z -> BarrierState -> BarrierState;
  wbarrier_set_arrayref : Z -> Z -> Z -> BarrierState -> BarrierState;
  wbarrier_generic_nostore : Z -> BarrierState -> BarrierState
}.

(** Modelled from the spec: the remembered-set implementation is missing
    from the sources at hand.  The spec asks of it that the GC action (the
    slot address is appended to the buffer) runs first and the store
    second; the no-store variant only records. *)
Definition spec_remset : RemsetOps :=
  {| wbarrier_set_field := fun obj field_ptr value s =>
       store field_ptr value (record_slot field_ptr s);
     wbarrier_set_arrayref := fun arr slot_ptr value s =>
       store slot_ptr value (record_slot slot_ptr s);
     wbarrier_generic_nostore := fun ptr s => record_slot ptr s |}.

Section WithRemset.

(** [ptr_in_nursery] (a macro of sgen-gc.h) and [ptr_on_stack]. *)
Variable ptr_in_nursery : Z -> bool.
Variable ptr_on_stack : Z -> bool.
Variable remset : RemsetOps.

Definition mono_gc_wbarrier_set_field (obj field_ptr value : Z)
    (s : BarrierState) : BarrierState :=
  if ptr_in_nursery field_ptr then store field_ptr value s
  else wbarrier_set_field remset obj field_ptr value s.

Definition mono_gc_wbarrier_set_arrayref (arr slot_ptr value : Z)
    (s : BarrierState) : BarrierState :=
  if ptr_in_nursery slot_ptr then store slot_ptr value s
  else wbarrier_set_arrayref remset arr slot_ptr value s.

Definition mono_gc_wbarrier_generic_nostore (ptr : Z) (s : BarrierState)
    : BarrierState :=
  if ptr_in_nursery ptr || ptr_on_stack ptr
     || negb (ptr_in_nursery (memory s ptr))
  then s
  else wbarrier_generic_nostore remset ptr s.

Definition mono_gc_wbarrier_generic_store (ptr value : Z) (s : BarrierState)
    : BarrierState :=
  let s := store ptr value s in
  if ptr_in_nursery value then mono_gc_wbarrier_generic_nostore ptr s
  else s.

End WithRemset.

(** [e1] happens before [e2] in a history: some occurrence of [e1] is
    followed, later, by an occurrence of [e2]. *)
Definition happens_before (e1 e2 : BarrierEvent) (h : list BarrierEvent)
    : Prop :=
  exists h1 h2 h3, h = h1 ++ e1 :: h2 ++ e2 :: h3.

(** The order the barrier contract asks for: whenever a barrier call both
    records [slot] and stores [value] into it, the recording comes
    first. *)
Definition record_then_store (slot value : Z) (h : list BarrierEvent)
    : Prop :=
  In (EvRecord slot) h -> In (EvStore slot value) h ->
  happens_before (EvRecord slot) (EvStore slot value) h
  /\ ~ happens_before (EvStore slot value) (EvRecord slot) h.

(** A nursery at [[4096, 8192)], a stack at [[65536, 131072)] and an
    initially empty history. *)
Definition demo_in_nursery (p : Z) : bool := (4096 <=? p) && (p <? 8192).
Definition demo_on_stack (p : Z) : bool := (65536 <=? p) && (p <? 131072).
Definition demo_state : BarrierState :=
  {| memory := fun _ => 0; remembered := []; history := [] |}.

End Barriers.

(** ** The gray-stack finisher *)

Module Finisher.

(** One event per call that [finish_gray_stack] makes into the weak-link,
    finalization, ephemeron, toggleref and bridge code. *)
Inductive Event : Type :=
| EvDrain                                  (* mono_sgen_drain_gray_stack (queue, -1) *)
| EvBridgeReset                            (* mono_sgen_bridge_reset_data *)
| EvMarkEphemerons (start_addr end_addr : Z)
| EvScanTogglerefs (start_addr end_addr : Z)
| EvCollectBridge (start_addr end_addr generation : Z)
| EvNullLink (start_addr end_addr generation : Z) (before_finalization : bool)
| EvFinalize (start_addr end_addr generation : Z)
| EvClearEphemerons (start_addr end_addr : Z).

(** Modelled from the spec: [null_link_in_range] is defined in
    sgen-fin-weak-hash.c, which is missing from the sources at hand.  Called
    with [before_finalization] set it handles the links that do not track
    resurrection, and otherwise the tracking ones. *)
Definition nulls_non_tracking (e : Event) : bool :=
  match e with EvNullLink _ _ _ true => true | _ => false end.

Definition nulls_tracking (e : Event) : bool :=
  match e with EvNullLink _ _ _ false => true | _ => false end.

Definition processes_finalizers (e : Event) : bool :=
  match e with EvFinalize _ _ _ => true | _ => false end.

Definition marks_ephemerons (e : Event) : bool :=
  match e with EvMarkEphemerons _ _ => true | _ => false end.

Section WithCollaborators.

Context {World : Type}.

(** The functions [finish_gray_stack] calls, as transformers of the
    collector's state (heap, gray queue, weak tables, finalizer lists). *)
Record Collaborators : Type := mkCollab {
  drain_gray_stack : World -> World;
  bridge_reset_data : World -> World;
  mark_ephemerons_in_range : Z -> Z -> World -> bool * World;
  scan_togglerefs : Z -> Z -> World -> World;
  need_bridge_processing : World -> bool;
  collect_bridge_objects : Z -> Z -> Z -> World -> World;
  null_link_in_range : Z -> Z -> Z -> bool -> World -> World;
  finalize_in_range : Z -> Z -> Z -> World -> World;
  num_ready_finalizers : World -> Z;
  clear_unreachable_ephemerons : Z -> Z -> World -> World;
  gray_object_queue_is_empty : World -> bool;
  get_nursery_start : World -> Z;
  get_nursery_end : World -> Z
}.

Variable C : Collaborators.

(** A run: the collector's state and the calls made so far. *)
Record Run : Type := mkRun { world : World; trace : list Event }.

Definition call (e : Event) (f : World -> World) (r : Run) : Run :=
  {| world := f (world r); trace := trace r ++ [e] |}.

(** A computation either goes on ([None]) or stops on a failure; the run
    so far is returned in both cases. *)
Definition Step : Type := Run -> option Failure * Run.

Definition step (f : Run -> Run) : Step := fun r => (None, f r).

Definition seq (c1 c2 : Step) : Step :=
  fun r =>
    match c1 r with
    | (None, r1) => c2 r1
    | (Some f, r1) => (Some f, r1)
    end.

Definition when (b : bool) (c : Step) : Step :=
  if b then c else step (fun r => r).

Definition g_assert (cond : Run -> bool) : Step :=
  fun r => if cond r then (None, r) else (Some AssertionFailure, r).

Definition drain : Run -> Run := call EvDrain (drain_gray_stack C).

(** [do { done_with_ephemerons = mark_ephemerons_in_range (...);
          mono_sgen_drain_gray_stack (queue, -1); ++ephemeron_rounds;
     } while (!done_with_ephemerons);] *)
Fixpoint ephemeron_loop (fuel : nat) (start_addr end_addr : Z) : Step :=
  fun r =>
    match fuel with
    | O => (Some FuelExhausted, r)
    | S fuel' =>
        let done_with_ephemerons :=
          fst (mark_ephemerons_in_range C start_addr end_addr (world r)) in
        let r := call (EvMarkEphemerons start_addr end_addr)
                   (fun w => snd (mark_ephemerons_in_range C start_addr
                                    end_addr w)) r in
        let r := drain r in
        if done_with_ephemerons then (None, r)
        else ephemeron_loop fuel' start_addr end_addr r
    end.

Definition finalize_both (start_addr end_addr generation : Z) (r : Run) : Run :=
  let r := call (EvFinalize start_addr end_addr generation)
             (finalize_in_range C start_addr end_addr generation) r in
  if generation =? GENERATION_OLD then
    let ns := get_nursery_start C (world r) in
    let ne := get_nursery_end C (world r) in
    call (EvFinalize ns ne GENERATION_NURSERY)
      (finalize_in_range C ns ne GENERATION_NURSERY) r
  else r.

(** The finalization loop; returns the final [num_loops] too. *)
Fixpoint finalize_loop (fuel : nat) (start_addr end_addr generation : Z)
    (num_loops : Z) (r : Run) : option Failure * (Z * Run) :=
  match fuel with
  | O => (Some FuelExhausted, (num_loops, r))
  | S fuel' =>
      let fin_ready := num_ready_finalizers C (world r) in
      let r := finalize_both start_addr end_addr generation r in
      let num_loops :=
        if negb (fin_ready =? num_ready_finalizers C (world r))
        then num_loops + 1 else num_loops in
      (* drain the new stack that might have been created *)
      let r := drain r in
      if negb (fin_ready =? num_ready_finalizers C (world r))
      then finalize_loop fuel' start_addr end_addr generation num_loops r
      else (None, (num_loops, r))
  end.

Definition null_links (start_addr end_addr generation : Z)
    (before_finalization : bool) (r : Run) : Run :=
  let r := call (EvNullLink start_addr end_addr generation before_finalization)
             (null_link_in_range C start_addr end_addr generation
                before_finalization) r in
  if generation =? GENERATION_OLD then
    call (EvNullLink start_addr end_addr GENERATION_NURSERY before_finalization)
      (null_link_in_range C start_addr end_addr GENERATION_NURSERY
         before_finalization) r
  else r.

(** [for (;;) { null_link_in_range (..., FALSE, queue); ...
                if (mono_sgen_gray_object_queue_is_empty (queue)) break;
                mono_sgen_drain_gray_stack (queue, -1); }] *)
Fixpoint tracking_loop (fuel : nat) (start_addr end_addr generation : Z)
    : Step :=
  fun r =>
    match fuel with
    | O => (Some FuelExhausted, r)
    | S fuel' =>
        let r := null_links start_addr end_addr generation false r in
        if gray_object_queue_is_empty C (world r) then (None, r)
        else tracking_loop fuel' start_addr end_addr generation (drain r)
    end.

Definition scan_togglerefs_both (start_addr end_addr generation : Z)
    (r : Run) : Run :=
  let r := call (EvScanTogglerefs start_addr end_addr)
             (scan_togglerefs C start_addr end_addr) r in
  if generation =? GENERATION_OLD then
    let ns := get_nursery_start C (world r) in
    let ne := get_nursery_end C (world r) in
    call (EvScanTogglerefs ns ne) (scan_togglerefs C ns ne) r
  else r.

Definition collect_bridges (start_addr end_addr generation : Z) (r : Run)
    : Run :=
  if need_bridge_processing C (world r) then
    let r := call (EvCollectBridge start_addr end_addr generation)
               (collect_bridge_objects C start_addr end_addr generation) r in
    let r :=
      if generation =? GENERATION_OLD then
        let ns := get_nursery_start C (world r) in
        let ne := get_nursery_end C (world r) in
        call (EvCollectBridge ns ne GENERATION_NURSERY)
          (collect_bridge_objects C ns ne GENERATION_NURSERY) r
      else r in
    drain r
  else r.

(** The finalization loop followed by
    [if (mono_sgen_need_bridge_processing ()) g_assert (num_loops <= 1);]. *)
Definition finalization (fuel : nat) (start_addr end_addr generation : Z)
    : Step :=
  fun r =>
    match finalize_loop fuel start_addr end_addr generation 0 r with
    | (Some f, (_, r)) => (Some f, r)
    | (None, (num_loops, r)) =>
        if need_bridge_processing C (world r) && negb (num_loops <=? 1)
        then (Some AssertionFailure, r)
        else (None, r)
    end.

Definition queue_is_empty (r : Run) : bool :=
  gray_object_queue_is_empty C (world r).

Definition finish_gray_stack (fuel : nat) (start_addr end_addr generation : Z)
    : Step :=
  seq (step drain)
 (seq (step (call EvBridgeReset (bridge_reset_data C)))
 (seq (ephemeron_loop fuel start_addr end_addr)
 (seq (step (scan_togglerefs_both start_addr end_addr generation))
 (seq (step (collect_bridges start_addr end_addr generation))
 (seq (step (null_links start_addr end_addr generation true))
 (seq (finalization fuel start_addr end_addr generation)
 (seq (ephemeron_loop fuel start_addr end_addr)
 (seq (step (call (EvClearEphemerons start_addr end_addr)
               (clear_unreachable_ephemerons C start_addr end_addr)))
 (seq (g_assert queue_is_empty)
 (seq (tracking_loop fuel start_addr end_addr generation)
      (g_assert queue_is_empty))))))))))).

Definition start_run (w : World) : Run := {| world := w; trace := [] |}.

(** The call that an event records, as a transformer of the collector's
    state. *)
Definition effect (e : Event) : World -> World :=
  match e with
  | EvDrain => drain_gray_stack C
  | EvBridgeReset => bridge_reset_data C
  | EvMarkEphemerons start_addr end_addr =>
      fun w => snd (mark_ephemerons_in_range C start_addr end_addr w)
  | EvScanTogglerefs start_addr end_addr =>
      scan_togglerefs C start_addr end_addr
  | EvCollectBridge start_addr end_addr generation =>
      collect_bridge_objects C start_addr end_addr generation
  | EvNullLink start_addr end_addr generation before_finalization =>
      null_link_in_range C start_addr end_addr generation before_finalization
  | EvFinalize start_addr end_addr generation =>
      finalize_in_range C start_addr end_addr generation
  | EvClearEphemerons start_addr end_addr =>
      clear_unreachable_ephemerons C start_addr end_addr
  end.

(** The state after the calls of a trace, made in order from [w]. *)
Definition replay (t : list Event) (w : World) : World :=
  fold_left (fun w e => effect e w) t w.

(** The calls that null the links of one kind: for the generation
    collected and, in a major collection, for the nursery too. *)
Definition null_calls (start_addr end_addr generation : Z)
    (before_finalization : bool) : list Event :=
  EvNullLink start_addr end_addr generation before_finalization
  :: (if generation =? GENERATION_OLD
      then [EvNullLink start_addr end_addr GENERATION_NURSERY
              before_finalization]
      else []).

(** The calls of one round of finalization started in the state [w]: for
    the range collected and, in a major collection, for the nursery, whose
    bounds are read after the first call. *)
Definition finalize_calls (start_addr end_addr generation : Z) (w : World)
    : list Event :=
  EvFinalize start_addr end_addr generation
  :: (if generation =? GENERATION_OLD
      then
        let w1 := finalize_in_range C start_addr end_addr generation w in
        [EvFinalize (get_nursery_start C w1) (get_nursery_end C w1)
           GENERATION_NURSERY]
      else []).

End WithCollaborators.

Arguments Collaborators : clear implicits.
Arguments Run : clear implicits.

(** The order of section 4.6 of the spec as a monitor over the calls: the
    stage a run is in, and the calls each stage admits.
    Stage 0: nothing done yet; 1: first ephemeron fixed point;
    2: non-tracking links nulled; 3: finalization queue processed;
    4: second ephemeron fixed point; 5: tracking links nulled. *)
Definition advance (stage : nat) (e : Event) : option nat :=
  match e, stage with
  | EvDrain, _ => Some stage
  | EvBridgeReset, 0%nat => Some 0%nat
  | EvMarkEphemerons _ _, (0 | 1)%nat => Some 1%nat
  | EvScanTogglerefs _ _, 1%nat => Some 1%nat
  | EvCollectBridge _ _ _, 1%nat => Some 1%nat
  | EvNullLink _ _ _ true, (1 | 2)%nat => Some 2%nat
  | EvFinalize _ _ _, (2 | 3)%nat => Some 3%nat
  | EvMarkEphemerons _ _, (3 | 4)%nat => Some 4%nat
  | EvClearEphemerons _ _, 4%nat => Some 4%nat
  | EvNullLink _ _ _ false, (4 | 5)%nat => Some 5%nat
  | _, _ => None
  end.

Fixpoint monitor (stage : nat) (t : list Event) : option nat :=
  match t with
  | [] => Some stage
  | e :: t' =>
      match advance stage e with
      | Some stage' => monitor stage' t'
      | None => None
      end
  end.

End Finisher.

(** ** Conservative pinning *)

Module Pinning.

(** [GCMemSection], restricted to what pinning reads;
    [num_scan_start] is the length of [scan_starts]. *)
Record GCMemSection : Type := mkSection {
  data : Z;
  scan_starts : list Z
}.

(** Modelled from the spec: [SGEN_PIN_OBJECT] is a macro of sgen-gc.h,
    which is missing from the sources at hand.  The spec describes
    pinning as a low-bit tag on the header word; the tag is taken to be
    bit 1. *)
Definition SGEN_PINNED_BIT : Z := 2.

Definition pin_object (obj : Z) (heap : Z -> Z) : Z -> Z :=
  fun a => if a =? obj then Z.lor (heap a) SGEN_PINNED_BIT else heap a.

Definition object_is_pinned (heap : Z -> Z) (obj : Z) : bool :=
  negb (Z.land (heap obj) SGEN_PINNED_BIT =? 0).

(** [GINT_TO_POINTER (-1)], the [synchronisation] word of a fragment
    placeholder. *)
Definition FRAGMENT_MARK : Z := to_mword (-1).

(** The locals of [pin_objects_from_addresses] that survive an iteration,
    the candidate array (shared with [definitely_pinned]), the header
    words of the section and the gray queue. *)
Record PinState : Type := mkPin {
  heap : Z -> Z;
  array : list Z;
  count : nat;
  last : Z;
  last_obj : Z;
  last_obj_size : Z;
  gray_queue : list Z
}.

Section WithLayout.

(** Constants of sgen-gc.h: [SGEN_ALLOC_ALIGN_BITS], [sizeof (gpointer)]
    and [SGEN_SCAN_START_SIZE]. *)
Variable ALLOC_ALIGN_BITS : nat.
Variable sizeof_gpointer : positive.
Variable SCAN_START_SIZE : positive.

(** [mono_sgen_safe_object_get_size] (a [guint]; it masks the tag bits,
    so pinning does not change it) and the [synchronisation] field of the
    object at an address. *)
Variable safe_object_get_size : Z -> Z.
Variable synchronisation : Z -> Z.

Definition ALLOC_ALIGN : Z := 2 ^ Z.of_nat ALLOC_ALIGN_BITS.

Definition ALIGN_UP (s : Z) : Z :=
  Z.land (s + (ALLOC_ALIGN - 1)) (Z.lnot (ALLOC_ALIGN - 1)).

(** [ALIGN_UP (s)] for a [guint] [s].  The macro is
    [(((s) + (ALLOC_ALIGN - 1)) & ~(ALLOC_ALIGN - 1))]: with an unsigned
    32-bit operand the sum and the mask are taken in 32 bits, so a size
    within [ALLOC_ALIGN - 1] of [2^32] rounds to 0. *)
Definition ALIGN_UP_guint (s : Z) : Z :=
  Z.land (to_guint (s + (ALLOC_ALIGN - 1)))
    (to_guint (Z.lnot (ALLOC_ALIGN - 1))).

(** [ALIGN_UP (safe_object_get_size (obj))], as stored in the [size_t]
    [last_obj_size]. *)
Definition aligned_size (obj : Z) : Z :=
  ALIGN_UP_guint (to_guint (safe_object_get_size obj)).

(** [while (idx) { --idx; search_start = section->scan_starts [idx];
                  if (search_start && search_start <= addr) break; }] *)
Fixpoint scan_back (starts : list Z) (addr : Z) (idx : nat) (search_start : Z)
    : Z :=
  match idx with
  | O => search_start
  | S idx' =>
      let search_start := nth idx' starts 0 in
      if negb (search_start =? 0) && (search_start <=? addr) then search_start
      else scan_back starts addr idx' search_start
  end.

Definition find_search_start (section : GCMemSection)
    (addr start_nursery : Z) (idx : nat) : Z :=
  let search_start := nth idx (scan_starts section) 0 in
  if (search_start =? 0) || (search_start >? addr) then
    let search_start := scan_back (scan_starts section) addr idx search_start in
    if (search_start =? 0) || (search_start >? addr) then start_nursery
    else search_start
  else search_start.

(** A scan start from which the walk may begin: non-null and not past the
    candidate. *)
Definition usable (addr s : Z) : Prop := s <> 0 /\ s <= addr.

(** The [do ... while (search_start <= addr)] loop.  The result tells
    whether an object was pinned, and gives [last_obj] and
    [last_obj_size] at the exit; when an object was found, [last_obj] is
    that object. *)
Fixpoint walk (fuel : nat) (heap : Z -> Z)
    (addr search_start last_obj last_obj_size : Z) : Outcome (bool * Z * Z) :=
  match fuel with
  | O => Abort FuelExhausted
  | S fuel' =>
      if heap search_start =? 0 then
        let search_start := ALIGN_UP (search_start + Z.pos sizeof_gpointer) in
        if search_start <=? addr
        then walk fuel' heap addr search_start last_obj last_obj_size
        else Ret (false, last_obj, last_obj_size)
      else
        let last_obj := search_start in
        let last_obj_size := aligned_size search_start in
        if negb (synchronisation last_obj =? FRAGMENT_MARK)
           && (addr >=? search_start) && (addr <? last_obj + last_obj_size)
        then Ret (true, last_obj, last_obj_size)
        else
          (* skip to the next object *)
          let search_start := search_start + last_obj_size in
          if search_start <=? addr
          then walk fuel' heap addr search_start last_obj last_obj_size
          else Ret (false, last_obj, last_obj_size)
  end.

(** The state after the object [obj], of aligned size [size], was found
    to contain the candidate [addr]: [pin_object]; [GRAY_OBJECT_ENQUEUE];
    [definitely_pinned [count] = search_start; count++]; [last = addr].
    The write is inside the array, since [count] never exceeds the index
    of the candidate. *)
Definition pin_found (addr obj size : Z) (st : PinState) : PinState :=
  {| heap := pin_object obj (heap st);
     array := <[count st := obj]> (array st);
     count := S (count st);
     last := addr;
     last_obj := obj;
     last_obj_size := size;
     gray_queue := gray_queue st ++ [obj] |}.

(** The state after the walk has passed the candidate [addr]. *)
Definition pin_missed (addr obj size : Z) (st : PinState) : PinState :=
  {| heap := heap st;
     array := array st;
     count := count st;
     last := addr;
     last_obj := obj;
     last_obj_size := size;
     gray_queue := gray_queue st |}.

(** One iteration of [while (start < end)], for the candidate at index
    [i] of the array. *)
Definition pin_candidate (fuel : nat) (section : GCMemSection)
    (start_nursery end_nursery : Z) (i : nat) (st : PinState)
    : Outcome PinState :=
  match array st !! i with
  | None => Abort OutOfBounds
  | Some addr =>
      if negb (addr =? last st) && (addr >=? start_nursery)
         && (addr <? end_nursery) then
        (* multiple pointers to the same object *)
        if (addr >=? last_obj st) && (addr <? last_obj st + last_obj_size st)
        then Ret st
        else
          let idx := to_int (Z.quot (addr - data section)
                               (Z.pos SCAN_START_SIZE)) in
          if negb (idx <? Z.of_nat (length (scan_starts section)))
          then Abort AssertionFailure
          else if idx <? 0 then Abort OutOfBounds
          else
            let search_start :=
              find_search_start section addr start_nursery (Z.to_nat idx) in
            let search_start :=
              if search_start <? last_obj st
              then last_obj st + last_obj_size st else search_start in
            match walk fuel (heap st) addr search_start
                    (last_obj st) (last_obj_size st) with
            | Abort f => Abort f
            | Ret (true, obj, size) => Ret (pin_found addr obj size st)
            | Ret (false, obj, size) => Ret (pin_missed addr obj size st)
            end
      else Ret st
  end.

Fixpoint pin_loop (fuel : nat) (section : GCMemSection)
    (start_nursery end_nursery : Z) (remaining i : nat) (st : PinState)
    : Outcome PinState :=
  match remaining with
  | O => Ret st
  | S remaining' =>
      match pin_candidate fuel section start_nursery end_nursery i st with
      | Ret st' =>
          pin_loop fuel section start_nursery end_nursery remaining' (S i) st'
      | Abort f => Abort f
      end
  end.

Definition initial_state (candidates : list Z) (heap0 : Z -> Z)
    (queue : list Z) : PinState :=
  {| heap := heap0; array := candidates; count := O; last := 0;
     last_obj := 0; last_obj_size := 0; gray_queue := queue |}.

(** [pin_objects_from_addresses (section, start, end, start_nursery,
    end_nursery, queue)], where [candidates] is the array between [start]
    and [end].  The final state holds the overwritten array, the header
    words and the queue; its [count] is the value returned. *)
Definition pin_objects_from_addresses (fuel : nat) (section : GCMemSection)
    (candidates : list Z) (start_nursery end_nursery : Z)
    (heap0 : Z -> Z) (queue : list Z) : Outcome PinState :=
  pin_loop fuel section start_nursery end_nursery (length candidates) O
    (initial_state candidates heap0 queue).

(** The addresses of the objects actually pinned: the prefix of the
    array that the function has overwritten. *)
Definition definitely_pinned (st : PinState) : list Z :=
  take (count st) (array st).

(** *** The layout of a section *)

(** The position that follows [a] when the section is iterated: a null
    word is skipped, an object or a placeholder is stepped over. *)
Definition next_position (heap0 : Z -> Z) (a : Z) : Z :=
  if heap0 a =? 0 then ALIGN_UP (a + Z.pos sizeof_gpointer)
  else a + aligned_size a.

(** The positions met when the section is iterated from [s]: the headers
    of objects and placeholders, and the words of zeroed memory. *)
Inductive reaches (heap0 : Z -> Z) (end_nursery : Z) (s : Z) : Z -> Prop :=
| reaches_refl : reaches heap0 end_nursery s s
| reaches_next a :
    reaches heap0 end_nursery s a ->
    a < end_nursery ->
    reaches heap0 end_nursery s (next_position heap0 a).

(** The positions met when the section is iterated from its start. *)
Definition position (heap0 : Z -> Z) (start_nursery end_nursery : Z)
    : Z -> Prop :=
  reaches heap0 end_nursery start_nursery.

(** [a] is the header of an object of the section, not of a fragment
    placeholder. *)
Definition object_at (heap0 : Z -> Z) (start_nursery end_nursery a : Z)
    : Prop :=
  position heap0 start_nursery end_nursery a
  /\ heap0 a <> 0
  /\ synchronisation a <> FRAGMENT_MARK.

(** The candidate [addr] is inside the object at [a]. *)
Definition inside (addr a : Z) : Prop := a <= addr < a + aligned_size a.

(** What the function may assume of its arguments: the section is not at
    address zero; it can be iterated (the size of an object or of a
    placeholder, rounded up as the code rounds it, in 32 bits, is
    positive: the size is neither zero nor within [ALLOC_ALIGN - 1] of
    [2^32]); the non-null scan starts are headers met by the iteration;
    the scan-start table covers the range; the candidates are sorted and
    inside the range. *)
Record well_formed (section : GCMemSection) (candidates : list Z)
    (start_nursery end_nursery : Z) (heap0 : Z -> Z) : Prop := mkWf {
  wf_start : 0 < start_nursery;
  wf_data : data section <= start_nursery;
  wf_table :
    end_nursery - data section
    <= Z.pos SCAN_START_SIZE * Z.of_nat (length (scan_starts section));
  wf_table_int : Z.of_nat (length (scan_starts section)) < 2 ^ 31;
  wf_sizes :
    forall a, position heap0 start_nursery end_nursery a ->
      a < end_nursery -> heap0 a <> 0 ->
      0 < aligned_size a;
  wf_scan_starts :
    forall s, In s (scan_starts section) -> s <> 0 ->
      position heap0 start_nursery end_nursery s;
  wf_sorted : Sorted Z.le candidates;
  wf_range :
    forall addr, In addr candidates -> start_nursery <= addr < end_nursery
}.

End WithLayout.

End Pinning.

(** ** Heap space accounting, pointer alignment and hidden pointers *)

Module HeapSpace.

Import Collector.

Section WithWorld.

Context {World : Type}.

Definition set_allocated_heap (v : Z) (s : GCState World) : GCState World :=
  mkGC (disable_minor_collections s) (current_collection_generation s)
    (degraded_mode s) (objects_pinned s)
    (bytes_pinned_from_failed_allocation s) (max_heap_size s)
    (soft_heap_limit s) v (minor_collection_allowance s)
    (minor_collection_sections_alloced s)
    (need_calculate_minor_collection_allowance s)
    (last_collection_old_num_major_sections s)
    (last_collection_los_memory_usage s)
    (last_collection_old_los_memory_usage s)
    (last_collection_los_memory_alloced s) (los_memory_usage s) (world s).

(** [allocated_heap -= size;] ([space] is not used). *)
Definition mono_sgen_release_space (size space : Z) (s : GCState World)
    : GCState World :=
  set_allocated_heap (to_mword (allocated_heap s - size)) s.

(** [mono_runtime_resource_check_limit] only notifies the resource
    limit callbacks and is left out. *)
Definition mono_sgen_try_alloc_space (size space : Z) (s : GCState World)
    : bool * GCState World :=
  if available_free_space s <? size then (false, s)
  else (true, set_allocated_heap (to_mword (allocated_heap s + size)) s).

End WithWorld.

(** [sizeof (gpointer)] on the LP64 target. *)
Definition sizeof_gpointer : Z := 8.

(** [p += sizeof (gpointer) - 1; p &= ~ (sizeof (gpointer) - 1);] on an
    [mword]. *)
Definition align_pointer (ptr : Z) : Z :=
  let p := to_mword (ptr + (sizeof_gpointer - 1)) in
  to_mword (Z.land p (Z.lnot (sizeof_gpointer - 1))).

(** [HIDE_POINTER (p, t)]: [~((gulong)(p) | ((t) ? 1 : 0))]. *)
Definition HIDE_POINTER (p : Z) (t : bool) : Z :=
  to_mword (Z.lnot (Z.lor p (if t then 1 else 0))).

(** [REVEAL_POINTER (p)]: [(~(gulong)(p)) & ~3L]. *)
Definition REVEAL_POINTER (p : Z) : Z :=
  Z.land (to_mword (Z.lnot p)) (to_mword (Z.lnot 3)).

(** [mono_gc_weak_link_get], reading the link in [memory]. *)
Definition mono_gc_weak_link_get (memory : Z -> Z) (link_addr : Z) : Z :=
  if memory link_addr =? 0 then 0
  else REVEAL_POINTER (memory link_addr).

End HeapSpace.

(** ** What the root tables account for *)

Module RootsAccounting.

Import Roots.

(** The bytes one table covers: the sum of [end_root - start] over its
    records. *)
Definition table_bytes (m : gmap Z RootRecord) : Z :=
  map_fold (fun start root acc => acc + (end_root root - start)) 0 m.

Definition registered_bytes (h : RootType -> gmap Z RootRecord) : Z :=
  table_bytes (h ROOT_TYPE_NORMAL) + table_bytes (h ROOT_TYPE_PINNED)
  + table_bytes (h ROOT_TYPE_WBARRIER).

(** [roots_size] is the sum of the sizes of the registered roots, as an
    [mword]. *)
Definition accounted (st : RootTables) : Prop :=
  roots_size st = to_mword (registered_bytes (roots_hash st)).

(** No start address is in two tables. *)
Definition exclusive (st : RootTables) : Prop :=
  forall t t' start,
    is_Some (roots_hash st t !! start) ->
    is_Some (roots_hash st t' !! start) -> t = t'.

Definition no_roots : RootTables :=
  {| roots_hash := fun _ => ∅; roots_size := 0 |}.

End RootsAccounting.

(** ** Sorting the pin queue *)

Module Sorting.

(** [array [i]].  Indices are [int] in the source; for arrays of at most
    [2 ^ 30] entries no index expression of [mono_sgen_sort_addresses]
    leaves the range of [int], and they are natural numbers here. *)
Definition get (array : list Z) (i : nat) : Z := default 0 (array !! i).

(** [tmp = array [i]; array [i] = array [j]; array [j] = tmp;] *)
Definition swap (array : list Z) (i j : nat) : list Z :=
  let tmp := get array i in
  <[j := tmp]> (<[i := get array j]> array).

(** The [while (child > 0)] loop of the first phase. *)
Fixpoint sift_up (fuel : nat) (array : list Z) (child : nat)
    : Outcome (list Z) :=
  if (child =? 0)%nat then Ret array
  else
    match fuel with
    | O => Abort FuelExhausted
    | S fuel' =>
        let parent := ((child - 1) / 2)%nat in
        if get array parent >=? get array child then Ret array
        else sift_up fuel' (swap array parent child) parent
    end.

(** [for (i = 1; i < size; ++i)], with [remaining = size - i]. *)
Fixpoint build_loop (fuel : nat) (array : list Z) (i remaining : nat)
    : Outcome (list Z) :=
  match remaining with
  | O => Ret array
  | S remaining' =>
      Collector.bind (sift_up fuel array i)
        (fun array' => build_loop fuel array' (S i) remaining')
  end.

(** The [while (root * 2 + 1 <= end)] loop of the second phase. *)
Fixpoint sift_down (fuel : nat) (array : list Z) (root end_ : nat)
    : Outcome (list Z) :=
  if (root * 2 + 1 <=? end_)%nat then
    match fuel with
    | O => Abort FuelExhausted
    | S fuel' =>
        let child := (root * 2 + 1)%nat in
        let child :=
          if (child <? end_)%nat && (get array child <? get array (child + 1))
          then (child + 1)%nat else child in
        if get array root >=? get array child then Ret array
        else sift_down fuel' (swap array root child) child end_
    end
  else Ret array.

(** [for (i = size - 1; i > 0; --i)]. *)
Fixpoint extract_loop (fuel : nat) (array : list Z) (i : nat)
    : Outcome (list Z) :=
  match i with
  | O => Ret array
  | S end_ =>
      Collector.bind (sift_down fuel (swap array i 0) 0 end_)
        (fun array' => extract_loop fuel array' end_)
  end.

Definition mono_sgen_sort_addresses (fuel : nat) (array : list Z) (size : nat)
    : Outcome (list Z) :=
  Collector.bind (build_loop fuel array 1 (size - 1))
    (fun array' => extract_loop fuel array' (size - 1)).

End Sorting.

(** ** Conservative scanning *)

Module Conservative.

(** What [conservatively_pin_objects_from] hands on: the arguments of its
    calls of [mono_sgen_pin_stage_ptr] and of
    [mono_sgen_pin_stats_register_address], in call order. *)
Record StageState : Type := mkStage {
  staged : list Z;
  stats : list (Z * Z)
}.

Section WithLayout.

Variable ALLOC_ALIGN_BITS : nat.
Variable do_pin_stats : bool.
Variable ptr_in_nursery : Z -> bool.

(** One iteration of the loop, for the word [*start]. *)
Definition conservatively_pin_word (start_nursery end_nursery pin_type : Z)
    (st : StageState) (word : Z) : StageState :=
  if (word >=? start_nursery) && (word <? end_nursery) then
    let addr :=
      Z.land word (to_mword (Z.lnot (Pinning.ALLOC_ALIGN ALLOC_ALIGN_BITS - 1)))
    in
    let st1 :=
      if (addr >=? start_nursery) && (addr <? end_nursery)
      then mkStage (staged st ++ [addr]) (stats st)
      else st in
    if do_pin_stats && ptr_in_nursery addr
    then mkStage (staged st1) (stats st1 ++ [(addr, pin_type)])
    else st1
  else st.

(** [words] are the words of the scanned area, from [start] up to
    [end]. *)
Definition conservatively_pin_objects_from (words : list Z)
    (start_nursery end_nursery pin_type : Z) (st : StageState) : StageState :=
  fold_left (conservatively_pin_word start_nursery end_nursery pin_type)
    words st.

End WithLayout.

End Conservative.

(** ** Draining the gray stack *)

Module GrayStack.

(** [mono_sgen_collection_is_parallel]; any generation but the two
    collected ones reaches [g_assert_not_reached]. *)
Definition mono_sgen_collection_is_parallel (current_collection_generation : Z)
    (nursery_collection_is_parallel major_is_parallel : bool) : Outcome bool :=
  if current_collection_generation =? GENERATION_NURSERY
  then Ret nursery_collection_is_parallel
  else if current_collection_generation =? GENERATION_OLD
  then Ret major_is_parallel
  else Abort AssertionFailure.

Section WithQueue.

(** The heap together with the gray queue. *)
Context {W : Type}.

(** What [mono_sgen_drain_gray_stack] calls: [GRAY_OBJECT_DEQUEUE], which
    yields [NULL] (here [None]) on an empty queue, the scan functions of
    the two collectors, which may enqueue objects, and
    [mono_sgen_workers_is_distributed_queue], asked of the queue passed
    in. *)
Record GrayOps : Type := mkGray {
  dequeue : W -> option Z * W;
  minor_scan_object : Z -> W -> W;
  major_scan_object : Z -> W -> W;
  is_distributed_queue : bool
}.

Variable ops : GrayOps.

(** [for (;;) { GRAY_OBJECT_DEQUEUE (queue, obj); if (!obj) return TRUE;
    scan_func (obj, queue); }] *)
Fixpoint drain_nursery (fuel : nat) (w : W) : Outcome (bool * W) :=
  match fuel with
  | O => Abort FuelExhausted
  | S fuel' =>
      match dequeue ops w with
      | (None, w') => Ret (true, w')
      | (Some obj, w') => drain_nursery fuel' (minor_scan_object ops obj w')
      end
  end.

(** [do { for (i = 0; i != max_objs; ++i) { ... } } while (max_objs < 0);
    return FALSE;], entered at the test [i != max_objs]. *)
Fixpoint drain_major (fuel : nat) (max_objs i : Z) (w : W)
    : Outcome (bool * W) :=
  match fuel with
  | O => Abort FuelExhausted
  | S fuel' =>
      if i =? max_objs then
        if max_objs <? 0 then drain_major fuel' max_objs 0 w
        else Ret (false, w)
      else
        match dequeue ops w with
        | (None, w') => Ret (true, w')
        | (Some obj, w') =>
            drain_major fuel' max_objs (to_int (i + 1))
              (major_scan_object ops obj w')
        end
  end.

Definition mono_sgen_drain_gray_stack (fuel : nat)
    (current_collection_generation : Z)
    (nursery_collection_is_parallel major_is_parallel : bool)
    (max_objs : Z) (w : W) : Outcome (bool * W) :=
  if current_collection_generation =? GENERATION_NURSERY then
    drain_nursery fuel w
  else
    Collector.bind
      (mono_sgen_collection_is_parallel current_collection_generation
         nursery_collection_is_parallel major_is_parallel)
      (fun parallel =>
         if parallel && is_distributed_queue ops then Ret (true, w)
         else drain_major fuel max_objs 0 w).

(** [n] objects are taken off the queue and scanned, one after the
    other. *)
Inductive scans (scan : Z -> W -> W) : nat -> W -> W -> Prop :=
| scans_none w : scans scan 0 w w
| scans_more n w obj w1 w2 :
    dequeue ops w = (Some obj, w1) ->
    scans scan n (scan obj w1) w2 ->
    scans scan (S n) w w2.

(** The queue was found empty at [w], which left [w']. *)
Definition found_empty (w w' : W) : Prop := dequeue ops w = (None, w').

End WithQueue.

Arguments GrayOps : clear implicits.

End GrayStack.

(** ** Heap boundaries *)

Module HeapBoundaries.

(** The globals [lowest_heap_address] and [highest_heap_address]. *)
Record Boundaries : Type := mkBounds {
  lowest_heap_address : Z;
  highest_heap_address : Z
}.

Definition reset_heap_boundaries : Boundaries :=
  {| lowest_heap_address := to_mword (Z.lnot 0);
     highest_heap_address := 0 |}.

(** [SGEN_CAS_PTR (&cell, new, old)]: what the cell held, and what it
    holds afterwards. *)
Definition SGEN_CAS_PTR (cell new old : Z) : Z * Z :=
  (cell, if cell =? old then new else cell).

(** The first loop of [mono_sgen_update_heap_boundaries].  Each entry of
    [others] is what another thread stores into the cell between the read
    and the compare-and-swap of one iteration, if it does. *)
Fixpoint lower_lowest (low : Z) (others : list (option Z)) (cell : Z) : Z :=
  let old := cell in
  if low >=? old then cell
  else
    let cell := match others with Some v :: _ => v | _ => cell end in
    let '(seen, cell) := SGEN_CAS_PTR cell low old in
    if seen =? old then cell
    else
      match others with
      | _ :: others' => lower_lowest low others' cell
      | [] => cell
      end.

(** The second loop. *)
Fixpoint raise_highest (high : Z) (others : list (option Z)) (cell : Z) : Z :=
  let old := cell in
  if high <=? old then cell
  else
    let cell := match others with Some v :: _ => v | _ => cell end in
    let '(seen, cell) := SGEN_CAS_PTR cell high old in
    if seen =? old then cell
    else
      match others with
      | _ :: others' => raise_highest high others' cell
      | [] => cell
      end.

Definition mono_sgen_update_heap_boundaries (low high : Z)
    (others_low others_high : list (option Z)) (b : Boundaries) : Boundaries :=
  {| lowest_heap_address :=
       lower_lowest low others_low (lowest_heap_address b);
     highest_heap_address :=
       raise_highest high others_high (highest_heap_address b) |}.

(** The values the other threads store. *)
Definition stores (others : list (option Z)) : list Z :=
  omap id others.

End HeapBoundaries.

(** ** Copying values through the write barrier *)

Module BarrierCopy.

Import Barriers.

Definition SIZEOF_VOID_P : Z := 8.

Section WithRemset.

Variable ptr_in_nursery : Z -> bool.
Variable ptr_on_stack : Z -> bool.
Variable remset : RemsetOps.

(** [mono_gc_wbarrier_value_copy_bitmap]: [dest] and [src] are [mword*],
    [size] is an [int] and [bitmap] an [unsigned]. *)
Fixpoint mono_gc_wbarrier_value_copy_bitmap (fuel : nat)
    (dest src size bitmap : Z) (s : BarrierState) : Outcome BarrierState :=
  if size =? 0 then Ret s
  else
    match fuel with
    | O => Abort FuelExhausted
    | S fuel' =>
        let s :=
          if negb (Z.land bitmap 1 =? 0)
          then mono_gc_wbarrier_generic_store ptr_in_nursery ptr_on_stack
                 remset dest (memory s src) s
          else store dest (memory s src) s in
        mono_gc_wbarrier_value_copy_bitmap fuel'
          (to_mword (dest + SIZEOF_VOID_P)) (to_mword (src + SIZEOF_VOID_P))
          (to_int (size - SIZEOF_VOID_P)) (Z.shiftr bitmap 1) s
    end.

(** Every slot outside the nursery and the stack that holds a nursery
    pointer is in the remembered set. *)
Definition covered (s : BarrierState) : Prop :=
  forall slot,
    ptr_in_nursery slot = false -> ptr_on_stack slot = false ->
    ptr_in_nursery (memory s slot) = true ->
    slot ∈ remembered s.

(** What the barriers rely on in a remembered-set implementation: the two
    storing entry points store the value, the third stores nothing, and
    all three add the slot to the remembered set and drop nothing from
    it. *)
Record remset_records : Prop := mkRecords {
  set_field_stores : forall obj slot value s a,
    memory (wbarrier_set_field remset obj slot value s) a
    = memory (store slot value s) a;
  set_field_records : forall obj slot value s x,
    x ∈ remembered (wbarrier_set_field remset obj slot value s)
    <-> x ∈ remembered s \/ x = slot;
  set_arrayref_stores : forall arr slot value s a,
    memory (wbarrier_set_arrayref remset arr slot value s) a
    = memory (store slot value s) a;
  set_arrayref_records : forall arr slot value s x,
    x ∈ remembered (wbarrier_set_arrayref remset arr slot value s)
    <-> x ∈ remembered s \/ x = slot;
  nostore_stores : forall slot s a,
    memory (wbarrier_generic_nostore remset slot s) a = memory s a;
  nostore_records : forall slot s x,
    x ∈ remembered (wbarrier_generic_nostore remset slot s)
    <-> x ∈ remembered s \/ x = slot
}.

End WithRemset.

End BarrierCopy.

(** ** The collection entry points *)

Module Collections.

Import Collector.

Section WithWorld.

Context {World : Type}.

Variable major_collector : MajorCollector World.
Variable phases : NurseryPhases World.

(** The collector state together with the global
    [major_collection_happened]. *)
Record CollectionState : Type := mkCollection {
  gc : GCState World;
  major_collection_happened : bool
}.

(** The global [disable_major_collections], which only the option
    parser sets. *)
Variable disable_major_collections : bool.

(** What the entry points call outside the collector state: the thread
    handshake of [stop_world], which asserts that the count of stopped
    threads is not negative, and that of [restart_world]; the body of
    [major_do_collection], which may change any global; and
    [mono_sgen_can_alloc_size] of the nursery allocator. *)
Record WorldOps : Type := mkWorldOps {
  stop_threads : Z -> World -> Outcome World;
  restart_threads : Z -> World -> World;
  major_do_collection : GCState World -> Outcome (bool * GCState World);
  mono_sgen_can_alloc_size : Z -> World -> bool * World
}.

Variable ops : WorldOps.

(** [stop_world]; [last_major_num_sections] and [last_los_memory_usage],
    which only the trace message of [restart_world] reads, are left
    out. *)
Definition stop_world (generation : Z) (s : CollectionState)
    : Outcome CollectionState :=
  bind (stop_threads ops generation (world (gc s))) (fun w =>
  Ret {| gc := set_world w (gc s); major_collection_happened := false |}).

(** [restart_world], but for the report of the moved objects and the
    trace message. *)
Definition restart_world (generation : Z) (s : CollectionState)
    : CollectionState :=
  {| gc := set_world (restart_threads ops generation (world (gc s))) (gc s);
     major_collection_happened := major_collection_happened s |}.

(** [collect_nursery], its result dropped. *)
Definition collect_nursery_only (s : CollectionState)
    : Outcome CollectionState :=
  bind (collect_nursery major_collector phases 0 (gc s)) (fun '(_, g) =>
  Ret {| gc := g; major_collection_happened := major_collection_happened s |}).

Definition major_collection (s : CollectionState) : Outcome CollectionState :=
  if disable_major_collections then collect_nursery_only s
  else
    let g := set_current_collection_generation GENERATION_OLD (gc s) in
    bind (major_do_collection ops g) (fun '(need_minor_collection, g) =>
    let s := {| gc := set_current_collection_generation (-1) g;
                major_collection_happened := true |} in
    if need_minor_collection then collect_nursery_only s else Ret s).

Definition sgen_collect_major_no_lock (s : CollectionState)
    : Outcome CollectionState :=
  bind (stop_world 1 s) (fun s =>
  bind (major_collection s) (fun s =>
  Ret (restart_world 1 s))).

(** [nursery_section] is the pointer the [g_assert] tests. *)
Definition minor_collect_or_expand_inner (nursery_section size : Z)
    (s : CollectionState) : Outcome CollectionState :=
  if nursery_section =? 0 then Abort AssertionFailure
  else
    bind (stop_world 0 s) (fun s =>
    bind (collect_nursery major_collector phases size (gc s))
      (fun '(overflow, g) =>
    let s := {| gc := g;
                major_collection_happened := major_collection_happened s |} in
    bind (if overflow then major_collection s else Ret s) (fun s =>
    let s := restart_world 0 s in
    let '(fits, w) := mono_sgen_can_alloc_size ops size (world (gc s)) in
    let g := set_world w (gc s) in
    Ret {| gc := if fits then g else set_degraded_mode 1 g;
           major_collection_happened := major_collection_happened s |}))).

Definition mono_gc_collect (generation : Z) (s : CollectionState)
    : Outcome CollectionState :=
  let generation := if generation >? 1 then 1 else generation in
  bind (stop_world generation s) (fun s =>
  bind (if generation =? 0 then collect_nursery_only s
        else major_collection s) (fun s =>
  Ret (restart_world generation s))).

End WithWorld.

Arguments CollectionState : clear implicits.
Arguments WorldOps : clear implicits.

End Collections.

(** ** Running the ready finalizers *)

Module Finalizers.

(** A [FinalizeReadyEntry], with the address it lives at. *)
Record FinalizeReadyEntry : Type := mkEntry {
  entry_addr : Z;
  object : Z
}.

Section WithWorld.

Context {W : Type}.

(** The lists [fin_ready_list] and [critical_fin_list], head first, the
    counter [num_ready_finalizers], and everything the finalizers
    themselves act on. *)
Record FinState : Type := mkFin {
  fin_ready_list : list FinalizeReadyEntry;
  critical_fin_list : list FinalizeReadyEntry;
  num_ready_finalizers : Z;
  world : W
}.

Variable mono_gc_run_finalize : Z -> FinState -> FinState.

(** [if ( *list == entry) *list = entry->next; else { e = *list;
    while (e->next != entry) e = e->next; e->next = entry->next; }]:
    walking off the end of the list dereferences [NULL]. *)
Fixpoint unlink (entry : Z) (entries : list FinalizeReadyEntry)
    : Outcome (list FinalizeReadyEntry) :=
  match entries with
  | [] => Abort OutOfBounds
  | e :: next =>
      if entry_addr e =? entry then Ret next
      else Collector.bind (unlink entry next) (fun next' => Ret (e :: next'))
  end.

(** [for (entry = list; entry && !entry->object; entry = entry->next);]
    together with the later [entry->object = NULL]: the first entry with
    an object, and the list once that entry has lost it. *)
Fixpoint claim_first (entries : list FinalizeReadyEntry)
    : option (FinalizeReadyEntry * list FinalizeReadyEntry) :=
  match entries with
  | [] => None
  | e :: next =>
      if object e =? 0 then
        match claim_first next with
        | Some (entry, next') => Some (entry, e :: next')
        | None => None
        end
      else Some (e, mkEntry (entry_addr e) 0 :: next)
  end.

(** The [if (entry)] block that removes the entry finalized in the last
    iteration. *)
Definition remove_finalized (entry : option Z) (entry_is_critical : bool)
    (s : FinState) : Outcome FinState :=
  match entry with
  | None => Ret s
  | Some a =>
      if entry_is_critical then
        Collector.bind (unlink a (critical_fin_list s)) (fun l =>
        Ret (mkFin (fin_ready_list s) l (num_ready_finalizers s) (world s)))
      else
        Collector.bind (unlink a (fin_ready_list s)) (fun l =>
        Ret (mkFin l (critical_fin_list s) (num_ready_finalizers s)
               (world s)))
  end.

(** The [while (fin_ready_list || critical_fin_list)] loop and the
    [g_assert (!entry)] behind it. *)
Fixpoint invoke_loop (fuel : nat) (entry : option Z) (entry_is_critical : bool)
    (count : Z) (s : FinState) : Outcome (Z * FinState) :=
  match fin_ready_list s, critical_fin_list s with
  | [], [] =>
      match entry with
      | None => Ret (count, s)
      | Some _ => Abort AssertionFailure
      end
  | _, _ =>
      match fuel with
      | O => Abort FuelExhausted
      | S fuel' =>
          Collector.bind (remove_finalized entry entry_is_critical s)
            (fun s =>
          match claim_first (fin_ready_list s) with
          | Some (e, l) =>
              let s := mkFin l (critical_fin_list s)
                         (to_int (num_ready_finalizers s - 1)) (world s) in
              invoke_loop fuel' (Some (entry_addr e)) false
                (to_int (count + 1)) (mono_gc_run_finalize (object e) s)
          | None =>
              match claim_first (critical_fin_list s) with
              | Some (e, l) =>
                  let s := mkFin (fin_ready_list s) l
                             (to_int (num_ready_finalizers s - 1)) (world s) in
                  invoke_loop fuel' (Some (entry_addr e)) true
                    (to_int (count + 1)) (mono_gc_run_finalize (object e) s)
              | None => Ret (count, s)
              end
          end)
      end
  end.

Definition mono_gc_invoke_finalizers (fuel : nat) (s : FinState)
    : Outcome (Z * FinState) :=
  invoke_loop fuel None false 0 s.

(** [queue_finalization_entry]; [entry] is the address
    [mono_sgen_alloc_internal] returns, and [has_critical_finalizer] the
    test on the class of the object. *)
Definition queue_finalization_entry (has_critical_finalizer : Z -> bool)
    (entry obj : Z) (s : FinState) : FinState :=
  if has_critical_finalizer obj
  then mkFin (fin_ready_list s) (mkEntry entry obj :: critical_fin_list s)
         (num_ready_finalizers s) (world s)
  else mkFin (mkEntry entry obj :: fin_ready_list s) (critical_fin_list s)
         (num_ready_finalizers s) (world s).

Definition mono_gc_pending_finalizers (s : FinState) : bool :=
  match fin_ready_list s, critical_fin_list s with
  | [], [] => false
  | _, _ => true
  end.

End WithWorld.

Arguments FinState : clear implicits.

(** The entries that still have an object, and those that have lost
    it. *)
Definition has_object (e : FinalizeReadyEntry) : bool :=
  negb (object e =? 0).

Definition ready_objects (l : list FinalizeReadyEntry) : list Z :=
  map object (List.filter has_object l).

Definition spent (l : list FinalizeReadyEntry) : list FinalizeReadyEntry :=
  List.filter (fun e => object e =? 0) l.

End Finalizers.

(** ** Reporting moved objects to the profiler *)

Module MovedObjects.

Definition MOVED_OBJECTS_NUM : Z := 64.

(** The array [moved_objects], the index [moved_objects_idx], and the
    batches handed to [mono_profiler_gc_moves] so far. *)
Record MovedState : Type := mkMoved {
  moved_objects : list Z;
  moved_objects_idx : Z;
  reported : list (list Z)
}.

(** [mono_profiler_gc_moves (moved_objects, moved_objects_idx);
    moved_objects_idx = 0;] *)
Definition report_moves (st : MovedState) : MovedState :=
  {| moved_objects := moved_objects st;
     moved_objects_idx := 0;
     reported :=
       reported st
       ++ [take (Z.to_nat (moved_objects_idx st)) (moved_objects st)] |}.

(** [moved_objects [moved_objects_idx++] = v;] *)
Definition store_moved (v : Z) (st : MovedState) : Outcome MovedState :=
  if (0 <=? moved_objects_idx st)
     && (moved_objects_idx st <? Z.of_nat (length (moved_objects st)))
  then Ret {| moved_objects :=
                <[Z.to_nat (moved_objects_idx st) := v]> (moved_objects st);
              moved_objects_idx := to_int (moved_objects_idx st + 1);
              reported := reported st |}
  else Abort OutOfBounds.

(** [profiler_moves] is [mono_profiler_events & MONO_PROFILE_GC_MOVES]. *)
Definition mono_sgen_register_moved_object (profiler_moves : bool)
    (current_collection_generation : Z)
    (nursery_collection_is_parallel major_is_parallel : bool)
    (obj destination : Z) (st : MovedState) : Outcome MovedState :=
  if negb profiler_moves then Abort AssertionFailure
  else
    Collector.bind
      (GrayStack.mono_sgen_collection_is_parallel
         current_collection_generation nursery_collection_is_parallel
         major_is_parallel)
      (fun parallel =>
         if parallel then Abort AssertionFailure
         else
           let st :=
             if moved_objects_idx st =? MOVED_OBJECTS_NUM
             then report_moves st else st in
           Collector.bind (store_moved obj st) (store_moved destination)).

(** The start of [restart_world]: notify the profiler of the
    leftovers. *)
Definition report_leftover_moves (profiler_moves : bool) (st : MovedState)
    : MovedState :=
  if profiler_moves && negb (moved_objects_idx st =? 0)
  then report_moves st else st.

(** Every word registered so far, oldest first: the reported batches,
    then the filled part of the array. *)
Definition moves (st : MovedState) : list Z :=
  concat (reported st)
  ++ take (Z.to_nat (moved_objects_idx st)) (moved_objects st).

(** The array has its [MOVED_OBJECTS_NUM] entries and holds whole
    pairs. *)
Definition buffered (st : MovedState) : Prop :=
  Z.of_nat (length (moved_objects st)) = MOVED_OBJECTS_NUM
  /\ 0 <= moved_objects_idx st <= MOVED_OBJECTS_NUM
  /\ moved_objects_idx st mod 2 = 0.

End MovedObjects.

(** ** Resetting the allowance *)

Module Allowance.

Import Collector.

(** [need_calculate_minor_collection_allowance = TRUE;] *)
Definition reset_minor_collection_allowance {World : Type}
    (s : GCState World) : GCState World :=
  set_need_calculate true s.

End Allowance.

(** ** Asking for a major collection *)

Module MajorNeed.

Import Collector.

Definition mono_sgen_need_major_collection {World : Type}
    (major_collector : MajorCollector World) (space_needed : Z)
    (s : GCState World) : bool :=
  need_major_collection major_collector space_needed s.

End MajorNeed.

(** * Properties *)

(** ** Machine integers *)

Module MachFacts.

Lemma mword_modulus_pos : 0 < mword_modulus.
Proof. reflexivity. Qed.

Lemma to_mword_range z : is_mword (to_mword z).
Proof. apply Z.mod_pos_bound, mword_modulus_pos. Qed.

Lemma to_mword_small z : is_mword z -> to_mword z = z.
Proof. intros H. apply Z.mod_small, H. Qed.

Lemma to_mword_add_l a b : to_mword (to_mword a + b) = to_mword (a + b).
Proof. unfold to_mword. apply Zplus_mod_idemp_l. Qed.

Lemma to_mword_sub_l a b : to_mword (to_mword a - b) = to_mword (a - b).
Proof. unfold to_mword. apply Zminus_mod_idemp_l. Qed.

Lemma to_mword_sub_r a b : to_mword (a - to_mword b) = to_mword (a - b).
Proof. unfold to_mword. apply Zminus_mod_idemp_r. Qed.

Lemma MIN_spec a b : MIN a b = Z.min a b.
Proof. unfold MIN. destruct (Z.ltb_spec a b); lia. Qed.

Lemma MAX_spec a b : MAX a b = Z.max a b.
Proof. unfold MAX. rewrite Z.gtb_ltb. destruct (Z.ltb_spec b a); lia. Qed.

Lemma to_guint_nonneg z : 0 <= to_guint z.
Proof. unfold to_guint. apply Z.mod_pos_bound. reflexivity. Qed.

End MachFacts.

Import MachFacts.

(** ** Registered roots *)

Module RootsFacts.

Import Roots.

Lemma set_table_same t m h : set_table t m h t = m.
Proof. unfold set_table. by rewrite decide_True. Qed.

Lemma set_table_other t t' m h : t' <> t -> set_table t m h t' = h t'.
Proof. intros H. unfold set_table. by rewrite decide_False. Qed.

Lemma find_registered_none st start :
  unregistered st start ->
  find_registered root_type_order (roots_hash st) start = None.
Proof. intros H. simpl. by rewrite !H. Qed.

Lemma find_registered_lookup ts h start i root :
  find_registered ts h start = Some (i, root) -> h i !! start = Some root.
Proof.
  induction ts as [|t ts IH]; simpl; [done|].
  destruct (h t !! start) eqn:E; [|done].
  intros [= <- <-]. exact E.
Qed.

(** Deregistering in a table that does not hold the address changes
    nothing. *)
Lemma deregister_in_absent addr st t :
  roots_hash st t !! addr = None -> deregister_in addr st t = st.
Proof. intros H. unfold deregister_in. by rewrite H. Qed.

Lemma deregister_in_present addr st t root :
  roots_hash st t !! addr = Some root ->
  roots_size (deregister_in addr st t)
  = to_mword (roots_size st - (end_root root - addr))
  /\ forall t', t' <> t ->
       roots_hash (deregister_in addr st t) t' = roots_hash st t'.
Proof.
  intros H. unfold deregister_in. rewrite H. simpl. split; [done|].
  intros t' Ht'. by apply set_table_other.
Qed.

(** Registration of a fresh start address in the table of [root_type],
    followed by its deregistration. *)
Lemma register_inner_then_deregister
    (st : RootTables) (start size descr : Z) (root_type : RootType) :
  unregistered st start ->
  is_mword (roots_size st) ->
  exists st1,
    mono_gc_register_root_inner start size descr root_type st
      = Ret (TRUE, st1)
    /\ roots_size (mono_gc_deregister_root start st1) = roots_size st.
Proof.
  intros Hun Hrs.
  unfold mono_gc_register_root_inner.
  rewrite (find_registered_none _ _ Hun).
  eexists. split; [reflexivity|].
  set (new_root := {| end_root := to_mword (start + size); root_desc := descr |}).
  set (st1 := {| roots_hash := _; roots_size := _ |}).
  assert (Hin : roots_hash st1 root_type !! start = Some new_root).
  { simpl. rewrite set_table_same. apply lookup_insert_eq. }
  assert (Hout : forall t, t <> root_type -> roots_hash st1 t !! start = None).
  { intros t Ht. simpl. rewrite set_table_other by done. apply Hun. }
  assert (Hsz : to_mword (roots_size st1 - (end_root new_root - start))
                = roots_size st).
  { simpl. rewrite to_mword_sub_l.
    replace (roots_size st + size - (to_mword (start + size) - start))
      with (roots_size st + (start + size) - to_mword (start + size)) by lia.
    rewrite to_mword_sub_r.
    replace (roots_size st + (start + size) - (start + size))
      with (roots_size st) by lia.
    by apply to_mword_small. }
  unfold mono_gc_deregister_root. simpl.
  destruct root_type.
  - destruct (deregister_in_present start st1 ROOT_TYPE_NORMAL new_root Hin)
      as [Hs Ho].
    rewrite (deregister_in_absent start _ ROOT_TYPE_PINNED)
      by (rewrite Ho by done; by apply Hout).
    rewrite (deregister_in_absent start _ ROOT_TYPE_WBARRIER)
      by (rewrite Ho by done; by apply Hout).
    by rewrite Hs.
  - rewrite (deregister_in_absent start st1 ROOT_TYPE_NORMAL)
      by (by apply Hout).
    destruct (deregister_in_present start st1 ROOT_TYPE_PINNED new_root Hin)
      as [Hs Ho].
    rewrite (deregister_in_absent start _ ROOT_TYPE_WBARRIER)
      by (rewrite Ho by done; by apply Hout).
    by rewrite Hs.
  - rewrite (deregister_in_absent start st1 ROOT_TYPE_NORMAL)
      by (by apply Hout).
    rewrite (deregister_in_absent start st1 ROOT_TYPE_PINNED)
      by (by apply Hout).
    destruct (deregister_in_present start st1 ROOT_TYPE_WBARRIER new_root Hin)
      as [Hs Ho].
    by rewrite Hs.
Qed.

(** C6 (L2).  For a start address held by none of the three root tables,
    and any size and descriptor, registering it (through
    [mono_gc_register_root], through [mono_gc_register_root_wbarrier], or
    in the table of any root type) succeeds, and deregistering it
    afterwards brings [roots_size] back to the value it had before the
    two calls. *)
Theorem register_deregister_roots_size
    (st : RootTables) (start size descr : Z) :
  unregistered st start ->
  is_mword (roots_size st) ->
  (exists st1,
     mono_gc_register_root start size descr st = Ret (TRUE, st1)
     /\ roots_size (mono_gc_deregister_root start st1) = roots_size st)
  /\ (exists st1,
        mono_gc_register_root_wbarrier start size descr st = Ret (TRUE, st1)
        /\ roots_size (mono_gc_deregister_root start st1) = roots_size st)
  /\ (forall root_type, exists st1,
        mono_gc_register_root_inner start size descr root_type st
          = Ret (TRUE, st1)
        /\ roots_size (mono_gc_deregister_root start st1) = roots_size st).
Proof.
  intros Hun Hrs. split; [|split].
  - unfold mono_gc_register_root.
    by apply register_inner_then_deregister.
  - unfold mono_gc_register_root_wbarrier.
    by apply register_inner_then_deregister.
  - intros root_type. by apply register_inner_then_deregister.
Qed.

(** A table state with one pinned root at 4096, of 64 bytes. *)
Definition one_root : RootTables :=
  {| roots_hash := fun t =>
       match t with
       | ROOT_TYPE_PINNED => {[ 4096 := {| end_root := 4160; root_desc := 0 |} ]}
       | _ => ∅
       end;
     roots_size := 64 |}.

Lemma register_deregister_roots_size_witness :
  exists st1,
    mono_gc_register_root 8192 32 7 one_root = Ret (TRUE, st1)
    /\ roots_size (mono_gc_deregister_root 8192 st1) = 64.
Proof.
  destruct (register_deregister_roots_size one_root 8192 32 7) as [H _].
  - intros []; reflexivity.
  - unfold is_mword; simpl; split; [lia | reflexivity].
  - exact H.
Defined.

(** C7.  When [start] is already registered, [i] being the first table
    that holds it: if the old record and the new registration are both
    descriptor-bearing or both descriptor-free, the call succeeds, the
    record of table [i] gets the new end and descriptor in place, no
    table gains or loses a key, the other tables are untouched (whatever
    [root_type] was asked for), and [roots_size] moves by the difference
    of the sizes; otherwise the assertion fails. *)
Theorem reregister_updates_in_place
    (st : RootTables) (start size descr : Z) (root_type i : RootType)
    (root : RootRecord) :
  registered_in st start i root ->
  (((root_desc root <> 0 /\ descr <> 0) \/ (root_desc root = 0 /\ descr = 0)) ->
   exists st',
     mono_gc_register_root_inner start size descr root_type st
       = Ret (TRUE, st')
     /\ roots_hash st' i !! start
        = Some {| end_root := to_mword (start + size); root_desc := descr |}
     /\ (forall k, k <> start -> roots_hash st' i !! k = roots_hash st i !! k)
     /\ (forall t, t <> i -> roots_hash st' t = roots_hash st t)
     /\ (forall t, dom (roots_hash st' t) = dom (roots_hash st t))
     /\ roots_size st'
        = to_mword (roots_size st + size - to_mword (end_root root - start)))
  /\ (~ ((root_desc root <> 0 /\ descr <> 0)
         \/ (root_desc root = 0 /\ descr = 0)) ->
      mono_gc_register_root_inner start size descr root_type st
        = Abort AssertionFailure).
Proof.
  intros Hreg. pose proof (find_registered_lookup _ _ _ _ _ Hreg) as Hlk.
  unfold registered_in in Hreg. unfold mono_gc_register_root_inner.
  rewrite Hreg. unfold desc_compatible. split.
  - intros Hc.
    assert (Hb : negb (root_desc root =? 0) && negb (descr =? 0)
                 || (root_desc root =? 0) && (descr =? 0) = true).
    { destruct Hc as [[H1 H2]|[H1 H2]].
      - apply Z.eqb_neq in H1, H2. by rewrite H1, H2.
      - apply Z.eqb_eq in H1, H2. by rewrite H1, H2. }
    rewrite Hb. eexists. split; [reflexivity|]. simpl.
    rewrite set_table_same. repeat split.
    + apply lookup_insert_eq.
    + intros k Hk. by apply lookup_insert_ne.
    + intros t Ht. by apply set_table_other.
    + intros t. destruct (decide (t = i)) as [->|Ht].
      * rewrite set_table_same. rewrite dom_insert_L.
        apply subseteq_union_1_L, singleton_subseteq_l, elem_of_dom. eauto.
      * by rewrite set_table_other.
    + by rewrite to_mword_sub_l.
  - intros Hc.
    assert (Hb : negb (root_desc root =? 0) && negb (descr =? 0)
                 || (root_desc root =? 0) && (descr =? 0) = false).
    { destruct (Z.eqb_spec (root_desc root) 0), (Z.eqb_spec descr 0);
        simpl; try reflexivity; exfalso; apply Hc; auto. }
    by rewrite Hb.
Qed.

Lemma reregister_updates_in_place_witness :
  exists st',
    mono_gc_register_root_inner 4096 128 0 ROOT_TYPE_WBARRIER one_root
      = Ret (TRUE, st')
    /\ roots_hash st' ROOT_TYPE_PINNED !! 4096
       = Some {| end_root := 4224; root_desc := 0 |}
    /\ roots_size st' = 128.
Proof.
  destruct (reregister_updates_in_place one_root 4096 128 0 ROOT_TYPE_WBARRIER
              ROOT_TYPE_PINNED {| end_root := 4160; root_desc := 0 |})
    as [Hok _]; [reflexivity|].
  destruct Hok as (st' & H1 & H2 & _ & _ & _ & H6); [right; split; reflexivity|].
  exists st'. split; [exact H1|]. split; [exact H2|]. exact H6.
Defined.

End RootsFacts.

(** ** Heap size limits *)

Module HeapLimitsFacts.

Import HeapLimits.

(** C8.  At initialization ([soft_limit] is then zero, when the option
    was not given, or positive), a configured max-heap-size that is
    smaller than four times the nursery size, or smaller than the
    soft-heap-limit, ends in a fatal error. *)
Theorem undersized_max_heap_is_fatal
    (max_heap soft_limit : Z) (st : Limits) :
  is_glong max_heap ->
  0 <= soft_limit ->
  0 <= nursery_size st ->
  4 * nursery_size st < mword_modulus ->
  max_heap_configured max_heap ->
  max_heap < 4 * nursery_size st \/ max_heap < soft_limit ->
  is_fatal (init_heap_size_limits max_heap soft_limit st).
Proof.
  intros Hrange Hsoft Hn0 Hn4 Hconf Hsmall.
  unfold init_heap_size_limits, max_heap_configured in *.
  destruct (Z.eqb_spec max_heap 0) as [|_]; [done|].
  destruct (Z.ltb_spec max_heap soft_limit) as [|Hge]; [exact I|].
  assert (Hns : forall b : bool,
             nursery_size (if b
                           then {| max_heap_size := max_heap_size st;
                                   soft_heap_limit := to_mword soft_limit;
                                   nursery_size := nursery_size st |}
                           else st) = nursery_size st)
    by (by intros []).
  rewrite Hns.
  destruct Hsmall as [Hsmall|Hsmall]; [|lia].
  rewrite (to_mword_small max_heap).
  - rewrite (to_mword_small (nursery_size st * 4)) by (unfold is_mword; lia).
    destruct (Z.ltb_spec max_heap (nursery_size st * 4)); [exact I|lia].
  - unfold is_mword, is_glong in *. split; [lia|].
    change mword_modulus with (2 ^ 64). lia.
Qed.

Lemma undersized_max_heap_is_fatal_witness :
  is_fatal (init_heap_size_limits 8388608 0
              {| max_heap_size := 18446744073709551615;
                 soft_heap_limit := 18446744073709551615;
                 nursery_size := 4194304 |}).
Proof.
  apply undersized_max_heap_is_fatal.
  - unfold is_glong; lia.
  - lia.
  - simpl; lia.
  - simpl; reflexivity.
  - unfold max_heap_configured; lia.
  - left; simpl; lia.
Defined.

End HeapLimitsFacts.

(** ** The allowance and the nursery driver *)

Module CollectorFacts.

Import Collector.

Section Allowance.

Context {World : Type}.
Variable mc : MajorCollector World.

Lemma first_clamp_bounds (s : GCState World) :
  MIN_MINOR_COLLECTION_ALLOWANCE mc <= first_clamp mc s
  /\ first_clamp mc s
     <= Z.max (MIN_MINOR_COLLECTION_ALLOWANCE mc) (allowance_ceiling mc s).
Proof. unfold first_clamp. rewrite MAX_spec, MIN_spec. lia. Qed.

Lemma second_clamp_floor (s : GCState World) :
  MIN_MINOR_COLLECTION_ALLOWANCE mc <= second_clamp mc s.
Proof.
  unfold second_clamp. pose proof (first_clamp_bounds s).
  repeat case_match; rewrite ?MAX_spec; lia.
Qed.

Lemma second_clamp_ceiling (s : GCState World) :
  is_mword (soft_heap_limit s) ->
  second_clamp mc s
  <= Z.max (MIN_MINOR_COLLECTION_ALLOWANCE mc) (allowance_ceiling mc s).
Proof.
  intros Hsoft. unfold second_clamp.
  pose proof (first_clamp_bounds s) as [Hlo Hhi].
  pose proof (to_mword_range (new_major mc s + last_collection_los_memory_usage s))
    as Hnh. fold (new_heap_size mc s) in Hnh.
  destruct (Z.gtb_spec (to_mword (new_heap_size mc s + first_clamp mc s))
              (soft_heap_limit s)) as [Hover|]; [|lia].
  destruct (Z.gtb_spec (new_heap_size mc s) (soft_heap_limit s)) as [|Hle];
    [lia|].
  rewrite MAX_spec.
  rewrite (to_mword_small (soft_heap_limit s - new_heap_size mc s))
    by (unfold is_mword in *; lia).
  assert (soft_heap_limit s - new_heap_size mc s < first_clamp mc s); [|lia].
  unfold to_mword in Hover.
  assert (Hmw : is_mword (MIN_MINOR_COLLECTION_ALLOWANCE mc))
    by apply to_mword_range.
  pose proof mword_modulus_pos.
  unfold is_mword in *.
  destruct (Z.lt_ge_cases (new_heap_size mc s + first_clamp mc s) mword_modulus)
    as [Hnw|Hw].
  - rewrite Z.mod_small in Hover by lia. lia.
  - pose proof (Z.mod_pos_bound (new_heap_size mc s + first_clamp mc s)
                  mword_modulus ltac:(lia)).
    lia.
Qed.

Lemma second_clamp_soft_limit (s : GCState World) :
  new_heap_size mc s + MIN_MINOR_COLLECTION_ALLOWANCE mc <= soft_heap_limit s ->
  new_heap_size mc s
    + Z.max (MIN_MINOR_COLLECTION_ALLOWANCE mc) (allowance_ceiling mc s)
    < mword_modulus ->
  new_heap_size mc s + second_clamp mc s <= soft_heap_limit s.
Proof.
  intros Hroom Hnowrap. unfold second_clamp.
  pose proof (first_clamp_bounds s) as [Hlo Hhi].
  pose proof (to_mword_range (new_major mc s + last_collection_los_memory_usage s))
    as Hnh. fold (new_heap_size mc s) in Hnh.
  assert (Hmw : is_mword (MIN_MINOR_COLLECTION_ALLOWANCE mc))
    by apply to_mword_range.
  unfold is_mword in *.
  rewrite (to_mword_small (new_heap_size mc s + first_clamp mc s))
    by (unfold is_mword; lia).
  destruct (Z.gtb_spec (new_heap_size mc s + first_clamp mc s)
              (soft_heap_limit s)) as [Hover|]; [|lia].
  destruct (Z.gtb_spec (new_heap_size mc s) (soft_heap_limit s)) as [|Hle];
    [lia|].
  rewrite MAX_spec.
  rewrite (to_mword_small (soft_heap_limit s - new_heap_size mc s))
    by (unfold is_mword; lia).
  lia.
Qed.

Lemma allowance_after_set (v : Z) (s : GCState World) :
  minor_collection_allowance
    (set_need_calculate false
       (call_have_computed mc (set_minor_collection_allowance v s))) = v.
Proof.
  unfold call_have_computed.
  destruct (have_computed_minor_collection_allowance mc); reflexivity.
Qed.

(** C4, as amended.  When the allowance is recomputed, its new value is at
    least [MIN_MINOR_COLLECTION_ALLOWANCE] and at most the larger of
    [MIN_MINOR_COLLECTION_ALLOWANCE] and
    [num_major_sections * section_size + los_memory_usage]; and
    [new_heap_size + allowance <= soft_heap_limit] holds when the minimum
    allowance itself fits under the soft limit (and the sum does not wrap
    around). *)
Theorem allowance_clamps (overwrite : bool) (s : GCState World) :
  recomputes_allowance mc s ->
  is_mword (soft_heap_limit s) ->
  exists s',
    try_calculate_minor_collection_allowance mc overwrite s = Ret s'
    /\ MIN_MINOR_COLLECTION_ALLOWANCE mc <= minor_collection_allowance s'
    /\ minor_collection_allowance s'
       <= Z.max (MIN_MINOR_COLLECTION_ALLOWANCE mc) (allowance_ceiling mc s)
    /\ (new_heap_size mc s + MIN_MINOR_COLLECTION_ALLOWANCE mc
          <= soft_heap_limit s ->
        new_heap_size mc s
          + Z.max (MIN_MINOR_COLLECTION_ALLOWANCE mc) (allowance_ceiling mc s)
          < mword_modulus ->
        new_heap_size mc s + minor_collection_allowance s'
          <= soft_heap_limit s).
Proof.
  intros [Hneed Hswept] Hsoft.
  unfold try_calculate_minor_collection_allowance.
  rewrite Hneed, Hswept, andb_false_r. simpl.
  eexists. split; [reflexivity|].
  rewrite allowance_after_set.
  split; [apply second_clamp_floor|].
  split; [by apply second_clamp_ceiling|].
  apply second_clamp_soft_limit.
Qed.

End Allowance.

(** A major collector with sections of one megabyte, a default nursery of
    four megabytes, and [n] major sections in use. *)
Definition demo_major (n : Z) : MajorCollector unit :=
  {| section_size := 1048576;
     get_num_major_sections := fun _ => n;
     have_swept := fun _ => true;
     have_computed_minor_collection_allowance := None;
     DEFAULT_NURSERY_SIZE := 4194304;
     allowance_quotient := fun save_target alloced saved => alloced |}.

(** A state right after a major collection, with the given soft limit. *)
Definition demo_state (soft_limit : Z) (disabled : bool) : GCState unit :=
  {| disable_minor_collections := disabled;
     current_collection_generation := -1;
     degraded_mode := 0;
     objects_pinned := 0;
     bytes_pinned_from_failed_allocation := 0;
     max_heap_size := 18446744073709551615;
     soft_heap_limit := soft_limit;
     allocated_heap := 0;
     minor_collection_allowance := 16777216;
     minor_collection_sections_alloced := 0;
     need_calculate_minor_collection_allowance := true;
     last_collection_old_num_major_sections := 0;
     last_collection_los_memory_usage := 0;
     last_collection_old_los_memory_usage := 0;
     last_collection_los_memory_alloced := 0;
     los_memory_usage := 0;
     world := tt |}.

(** C4, counterexample.  With 30 major sections in use and a soft limit
    of 32 megabytes the recomputed allowance is the minimum, 16 megabytes,
    and [new_heap_size + allowance] exceeds the soft limit; with no major
    section in use the allowance, again 16 megabytes, exceeds
    [num_major_sections * section_size + los_memory_usage], which is 0. *)
Lemma allowance_exceeds_soft_limit :
  (exists s',
     try_calculate_minor_collection_allowance (demo_major 30) true
       (demo_state 33554432 false) = Ret s'
     /\ minor_collection_allowance s' = 16777216
     /\ ~ (new_heap_size (demo_major 30) (demo_state 33554432 false)
             + minor_collection_allowance s'
           <= soft_heap_limit (demo_state 33554432 false)))
  /\ (exists s',
        try_calculate_minor_collection_allowance (demo_major 0) true
          (demo_state 18446744073709551615 false) = Ret s'
        /\ ~ (minor_collection_allowance s'
              <= allowance_ceiling (demo_major 0)
                   (demo_state 18446744073709551615 false))).
Proof.
  split.
  - eexists. split; [reflexivity|]. split; [reflexivity|].
    vm_compute. intros H. apply H. reflexivity.
  - eexists. split; [reflexivity|].
    vm_compute. intros H. apply H. reflexivity.
Qed.

Lemma allowance_clamps_witness :
  exists s',
    try_calculate_minor_collection_allowance (demo_major 8) true
      (demo_state 67108864 false) = Ret s'
    /\ 16777216 <= minor_collection_allowance s'
    /\ 8388608 + minor_collection_allowance s' <= 67108864.
Proof.
  destruct (allowance_clamps (demo_major 8) true (demo_state 67108864 false))
    as (s' & H1 & H2 & _ & H4).
  - split; reflexivity.
  - unfold is_mword; simpl; split; [lia | reflexivity].
  - exists s'. split; [exact H1|]. split; [exact H2|].
    apply H4; vm_compute; congruence.
Defined.

End CollectorFacts.

Module NurseryFacts.

Import Collector.

Section Driver.

Context {World : Type}.
Variable mc : MajorCollector World.
Variable phases : NurseryPhases World.

(** With no space requested, [need_major_collection] is the allowance
    test alone: [0 > available_free_space ()] is an unsigned comparison. *)
Lemma need_major_collection_0 (s : GCState World) :
  need_major_collection mc 0 s
  = (to_mword (minor_collection_sections_alloced s * section_size mc
               + to_mword (los_memory_usage s
                           - MIN (last_collection_los_memory_usage s)
                               (los_memory_usage s)))
     >? minor_collection_allowance s).
Proof.
  unfold need_major_collection.
  pose proof (to_mword_range
                (max_heap_size s - MIN (allocated_heap s) (max_heap_size s)))
    as [H _].
  fold (available_free_space s) in H.
  destruct (Z.gtb_spec 0 (available_free_space s)); [lia|reflexivity].
Qed.

(** C10.  With [disable_minor_collections] set, [collect_nursery] returns
    true at once and the state it returns is the state it was given: no
    phase of the collection runs, since the result is the same whatever
    the phases and the major collector are. *)
Theorem collect_nursery_disabled (requested_size : Z) (s : GCState World) :
  disable_minor_collections s = true ->
  collect_nursery mc phases requested_size s = Ret (true, s)
  /\ forall (mc' : MajorCollector World) (phases' : NurseryPhases World),
       collect_nursery mc' phases' requested_size s
       = collect_nursery mc phases requested_size s.
Proof.
  intros Hdisabled. unfold collect_nursery.
  rewrite Hdisabled. split; [reflexivity|].
  intros mc' phases'. reflexivity.
Qed.

(** C3, as amended.  When minor collections are not disabled and the
    collection runs to its end in state [s_end], [collect_nursery]
    returns, and it returns true exactly when [objects_pinned] is
    non-zero in [s_end] (it was zeroed when the collection started) or
    [need_major_collection (0)] holds there, that is, when the bytes
    allocated in major sections and in the LOS since the last major
    collection exceed the allowance.  When minor collections are disabled
    it returns true whatever the counters say. *)
Theorem collect_nursery_result (requested_size : Z) (s : GCState World) :
  (disable_minor_collections s = true ->
   collect_nursery mc phases requested_size s = Ret (true, s))
  /\ (disable_minor_collections s = false ->
      forall s_end, nursery_collection mc phases s = Ret s_end ->
      exists b,
        collect_nursery mc phases requested_size s
          = Ret (b, set_objects_pinned 0
                      (set_current_collection_generation (-1) s_end))
        /\ (b = true <->
            objects_pinned s_end <> 0
            \/ need_major_collection mc 0 s_end = true)
        /\ (need_major_collection mc 0 s_end = true <->
            to_mword (minor_collection_sections_alloced s_end * section_size mc
                      + to_mword (los_memory_usage s_end
                                  - MIN (last_collection_los_memory_usage s_end)
                                      (los_memory_usage s_end)))
            > minor_collection_allowance s_end)).
Proof.
  split; [intros Hdis; unfold collect_nursery; by rewrite Hdis|].
  intros Hen s_end Hrun. unfold collect_nursery. rewrite Hen, Hrun. simpl.
  eexists. split; [reflexivity|]. split.
  - rewrite orb_true_iff, negb_true_iff, Z.eqb_neq. tauto.
  - rewrite need_major_collection_0. rewrite Z.gtb_ltb, Z.ltb_lt. lia.
Qed.

End Driver.

(** Phases that do nothing, for a collector whose heap is empty. *)
Definition idle_phases : NurseryPhases unit :=
  {| verify_and_count := Ret;
     announce_collection := Ret;
     start_collection := Ret;
     pin_scan_and_finish := Ret;
     resort_pin_queue := Ret;
     build_nursery_fragments := fun s => (4194304, s);
     finish_collection := Ret |}.

(** C3, counterexample.  With minor collections disabled, no object
    pinned and nothing allocated since the last major collection,
    [collect_nursery] returns true although neither of the two conditions
    holds. *)
Lemma collect_nursery_true_without_cause :
  collect_nursery (CollectorFacts.demo_major 0) idle_phases 0
    (CollectorFacts.demo_state 18446744073709551615 true)
  = Ret (true, CollectorFacts.demo_state 18446744073709551615 true)
  /\ ~ (objects_pinned (CollectorFacts.demo_state 18446744073709551615 true)
          <> 0
        \/ need_major_collection (CollectorFacts.demo_major 0) 0
             (CollectorFacts.demo_state 18446744073709551615 true) = true).
Proof.
  split; [reflexivity|].
  intros [H|H]; [by apply H | vm_compute in H; discriminate].
Qed.

Lemma collect_nursery_disabled_witness :
  collect_nursery (CollectorFacts.demo_major 0) idle_phases 0
    (CollectorFacts.demo_state 18446744073709551615 true)
  = Ret (true, CollectorFacts.demo_state 18446744073709551615 true).
Proof.
  destruct (collect_nursery_disabled (CollectorFacts.demo_major 0)
              idle_phases 0
              (CollectorFacts.demo_state 18446744073709551615 true) eq_refl)
    as [H _].
  exact H.
Defined.

Lemma collect_nursery_result_witness :
  exists b s',
    collect_nursery (CollectorFacts.demo_major 0) idle_phases 0
      (CollectorFacts.demo_state 18446744073709551615 false) = Ret (b, s')
    /\ b = false.
Proof.
  destruct (collect_nursery_result (CollectorFacts.demo_major 0) idle_phases 0
              (CollectorFacts.demo_state 18446744073709551615 false))
    as [_ H].
  destruct (H eq_refl _ eq_refl) as (b & Hret & Hb & _).
  exists b. eexists. split; [exact Hret|].
  destruct b; [|reflexivity].
  destruct (proj1 Hb eq_refl) as [Hp|Hn].
  - exfalso. apply Hp. reflexivity.
  - vm_compute in Hn. discriminate.
Defined.

End NurseryFacts.

(** ** Write barriers *)

Module BarriersFacts.

Import Barriers.

(** Whatever the remembered set does, [mono_gc_wbarrier_generic_store]
    has already written the slot when it reaches the recording code. *)
Lemma generic_store_writes_first
    (in_nursery on_stack : Z -> bool) (remset : RemsetOps)
    (ptr value : Z) (s : BarrierState) :
  in_nursery value = true ->
  mono_gc_wbarrier_generic_store in_nursery on_stack remset ptr value s
  = mono_gc_wbarrier_generic_nostore in_nursery on_stack remset ptr
      (store ptr value s).
Proof.
  intros H. unfold mono_gc_wbarrier_generic_store. by rewrite H.
Qed.

(** With the remembered set of the spec: a nursery value stored into a
    slot outside the nursery and the stack is first stored, then
    recorded. *)
Lemma generic_store_history
    (in_nursery on_stack : Z -> bool) (ptr value : Z) (s : BarrierState) :
  in_nursery value = true ->
  in_nursery ptr = false ->
  on_stack ptr = false ->
  history (mono_gc_wbarrier_generic_store in_nursery on_stack spec_remset
             ptr value s)
  = history s ++ [EvStore ptr value; EvRecord ptr].
Proof.
  intros Hv Hp Hs. rewrite generic_store_writes_first by done.
  unfold mono_gc_wbarrier_generic_nostore. rewrite Hp, Hs. simpl.
  rewrite Z.eqb_refl, Hv. simpl. by rewrite <- app_assoc.
Qed.

(** The sibling barrier [mono_gc_wbarrier_set_field] leaves both actions
    to the remembered set, which records first. *)
Lemma set_field_history
    (in_nursery : Z -> bool) (obj field_ptr value : Z) (s : BarrierState) :
  in_nursery field_ptr = false ->
  history (mono_gc_wbarrier_set_field in_nursery spec_remset
             obj field_ptr value s)
  = history s ++ [EvRecord field_ptr; EvStore field_ptr value].
Proof.
  intros Hp. unfold mono_gc_wbarrier_set_field. rewrite Hp. simpl.
  by rewrite <- app_assoc.
Qed.

(** The order asked for is the one [mono_gc_wbarrier_set_field] follows
    on the same slot and value. *)
Lemma set_field_records_first :
  record_then_store 1048576 4104
    (history (mono_gc_wbarrier_set_field demo_in_nursery spec_remset
                1048568 1048576 4104 demo_state)).
Proof.
  intros _ _. split.
  - by exists [], [], [].
  - intros (h1 & h2 & h3 & Heq).
    change (history _) with [EvRecord 1048576; EvStore 1048576 4104] in Heq.
    destruct h1 as [|e1 [|e2 h1]]; simplify_eq/=.
    + destruct h2; discriminate.
    + destruct h1; discriminate.
Qed.

(** C5, at the failing input.  Storing the nursery object 4104 into the
    old-generation slot 1048576 through [mono_gc_wbarrier_generic_store]
    writes the slot first and records it in the remembered set second:
    the order record, then store does not hold. *)
Theorem generic_store_records_after_store :
  history (mono_gc_wbarrier_generic_store demo_in_nursery demo_on_stack
             spec_remset 1048576 4104 demo_state)
  = [EvStore 1048576 4104; EvRecord 1048576]
  /\ ~ record_then_store 1048576 4104
         (history (mono_gc_wbarrier_generic_store demo_in_nursery
                     demo_on_stack spec_remset 1048576 4104 demo_state)).
Proof.
  assert (Hh : history (mono_gc_wbarrier_generic_store demo_in_nursery
                          demo_on_stack spec_remset 1048576 4104 demo_state)
               = [EvStore 1048576 4104; EvRecord 1048576])
    by reflexivity.
  split; [exact Hh|]. rewrite Hh. intros Hrs.
  destruct Hrs as [(h1 & h2 & h3 & Heq) _].
  - right; left; reflexivity.
  - left; reflexivity.
  - destruct h1 as [|e1 [|e2 h1]]; simplify_eq/=.
    + destruct h2; discriminate.
    + destruct h1; discriminate.
Qed.

End BarriersFacts.

(** ** The gray-stack finisher *)

Module FinisherFacts.

Import Finisher.

(** *** The monitor *)

Lemma advance_step stage e stage' :
  advance stage e = Some stage' -> stage' = stage \/ stage' = S stage.
Proof.
  destruct e as [| | | | |? ? ? []| |];
    destruct stage as [|[|[|[|[|[|?]]]]]]; simpl; intros [= <-]; auto.
Qed.

Lemma monitor_app stage t1 t2 :
  monitor stage (t1 ++ t2)
  = match monitor stage t1 with
    | Some stage' => monitor stage' t2
    | None => None
    end.
Proof.
  revert stage. induction t1 as [|e t1 IH]; intros stage; simpl; [done|].
  destruct (advance stage e); [apply IH|done].
Qed.

Lemma monitor_mono t : forall stage stage',
  monitor stage t = Some stage' -> (stage <= stage')%nat.
Proof.
  induction t as [|e t IH]; simpl; intros stage stage' H.
  - injection H as <-. lia.
  - destruct (advance stage e) as [s1|] eqn:E; [|done].
    apply IH in H. apply advance_step in E. lia.
Qed.

(** A run that moves from a stage at most [k] to a stage above [k] holds
    the call that leaves stage [k]. *)
Lemma monitor_crossing (k : nat) t : forall stage stage',
  monitor stage t = Some stage' ->
  (stage <= k < stage')%nat ->
  exists t1 e t2,
    t = t1 ++ e :: t2
    /\ monitor stage t1 = Some k
    /\ advance k e = Some (S k)
    /\ monitor (S k) t2 = Some stage'.
Proof.
  induction t as [|e t IH]; simpl; intros stage stage' H Hk.
  - injection H as <-. lia.
  - destruct (advance stage e) as [s1|] eqn:E; [|done].
    destruct (advance_step _ _ _ E) as [->| ->].
    + destruct (IH _ _ H Hk) as (t1 & e' & t2 & -> & H1 & H2 & H3).
      exists (e :: t1), e', t2. simpl. by rewrite E.
    + destruct (decide (stage = k)) as [->|Hne].
      * exists [], e, t. by simpl.
      * destruct (IH _ _ H ltac:(lia)) as (t1 & e' & t2 & -> & H1 & H2 & H3).
        exists (e :: t1), e', t2. simpl. by rewrite E.
Qed.

(** Every call of an accepted run is admitted at some stage not below the
    one the run started in. *)
Lemma monitor_admits t : forall stage stage',
  monitor stage t = Some stage' ->
  Forall (fun e => exists s s', (stage <= s)%nat /\ advance s e = Some s') t.
Proof.
  induction t as [|e t IH]; simpl; intros stage stage' H; [constructor|].
  destruct (advance stage e) as [s1|] eqn:E; [|done].
  constructor; [eauto|].
  apply advance_step in E as Hs.
  eapply Forall_impl; [eapply IH, H|].
  intros e' (s & s' & Hle & Ha). exists s, s'. split; [lia|done].
Qed.

Lemma leaves_0 e : advance 0 e = Some 1%nat -> marks_ephemerons e = true.
Proof. by destruct e as [| | | | |? ? ? []| |]. Qed.

Lemma leaves_1 e : advance 1 e = Some 2%nat -> nulls_non_tracking e = true.
Proof. by destruct e as [| | | | |? ? ? []| |]. Qed.

Lemma leaves_2 e : advance 2 e = Some 3%nat -> processes_finalizers e = true.
Proof. by destruct e as [| | | | |? ? ? []| |]. Qed.

Lemma leaves_3 e : advance 3 e = Some 4%nat -> marks_ephemerons e = true.
Proof. by destruct e as [| | | | |? ? ? []| |]. Qed.

Lemma leaves_4 e : advance 4 e = Some 5%nat -> nulls_tracking e = true.
Proof. by destruct e as [| | | | |? ? ? []| |]. Qed.

Lemma finalize_stage s e s' :
  advance s e = Some s' -> processes_finalizers e = true ->
  (2 <= s)%nat /\ s' = 3%nat.
Proof.
  destruct e as [| | | | |? ? ? []| |]; try discriminate.
  destruct s as [|[|[|[|?]]]]; simpl; intros [= <-] _; lia.
Qed.

Lemma tracking_stage s e s' :
  advance s e = Some s' -> nulls_tracking e = true ->
  (4 <= s)%nat /\ s' = 5%nat.
Proof.
  destruct e as [| | | | |? ? ? []| |]; try discriminate.
  destruct s as [|[|[|[|[|[|?]]]]]]; simpl; intros [= <-] _; lia.
Qed.

Lemma late_stage_calls s e s' :
  advance s e = Some s' ->
  ((3 <= s)%nat -> nulls_non_tracking e = false)
  /\ ((5 <= s)%nat ->
      processes_finalizers e = false /\ marks_ephemerons e = false).
Proof.
  destruct e as [| | | | |? ? ? []| |];
    destruct s as [|[|[|[|[|[|?]]]]]]; simpl; intros [= <-];
    split; intros; try split; try reflexivity; lia.
Qed.

(** Splitting an accepted run at one of its calls. *)
Lemma monitor_split pre e post stage' :
  monitor 0 (pre ++ e :: post) = Some stage' ->
  exists s s',
    monitor 0 pre = Some s /\ advance s e = Some s'
    /\ monitor s' post = Some stage'.
Proof.
  rewrite monitor_app. destruct (monitor 0 pre) as [s|]; [|done].
  simpl. destruct (advance s e) as [s'|] eqn:E; [|done].
  intros H. by exists s, s'.
Qed.

(** In an accepted run, what precedes and what follows the processing of
    the finalization queue. *)
Lemma around_finalization t stage' pre e post :
  monitor 0 t = Some stage' ->
  t = pre ++ e :: post ->
  processes_finalizers e = true ->
  Exists (fun e' => nulls_non_tracking e' = true) pre
  /\ Forall (fun e' => nulls_non_tracking e' = false) post.
Proof.
  intros Hm -> He.
  destruct (monitor_split _ _ _ _ Hm) as (s & s' & Hpre & Ha & Hpost).
  destruct (finalize_stage _ _ _ Ha He) as [Hs ->].
  split.
  - destruct (monitor_crossing 1 _ _ _ Hpre ltac:(lia))
      as (t1 & e1 & t2 & -> & _ & H1 & _).
    apply Exists_app. right. constructor. by apply leaves_1.
  - eapply Forall_impl; [eapply monitor_admits, Hpost|].
    intros e' (s1 & s2 & Hle & Ha'). simpl in Ha'.
    by apply (late_stage_calls _ _ _ Ha').
Qed.

(** In an accepted run, what precedes and what follows the nulling of the
    tracking links. *)
Lemma around_tracking t stage' pre e post :
  monitor 0 t = Some stage' ->
  t = pre ++ e :: post ->
  nulls_tracking e = true ->
  (exists pre1 e1 pre2,
     pre = pre1 ++ e1 :: pre2
     /\ processes_finalizers e1 = true
     /\ Exists (fun e' => marks_ephemerons e' = true) pre2)
  /\ Forall (fun e' => processes_finalizers e' = false) post.
Proof.
  intros Hm -> He.
  destruct (monitor_split _ _ _ _ Hm) as (s & s' & Hpre & Ha & Hpost).
  destruct (tracking_stage _ _ _ Ha He) as [Hs ->].
  split.
  - destruct (monitor_crossing 2 _ _ _ Hpre ltac:(lia))
      as (t1 & e1 & t2 & -> & _ & H1 & H2).
    exists t1, e1, t2. split; [done|]. split; [by apply leaves_2|].
    destruct (monitor_crossing 3 _ _ _ H2 ltac:(lia))
      as (t3 & e3 & t4 & -> & _ & H3 & _).
    apply Exists_app. right. constructor. by apply leaves_3.
  - eapply Forall_impl; [eapply monitor_admits, Hpost|].
    intros e' (s1 & s2 & Hle & Ha'). simpl in Ha'.
    by apply (late_stage_calls _ _ _ Ha').
Qed.

(** A run accepted up to stage 5 went through the five steps in order. *)
Lemma full_sequence t :
  monitor 0 t = Some 5%nat ->
  exists t0 e0 t1 e1 t2 e2 t3 e3 t4 e4 t5,
    t = t0 ++ e0 :: t1 ++ e1 :: t2 ++ e2 :: t3 ++ e3 :: t4 ++ e4 :: t5
    /\ marks_ephemerons e0 = true
    /\ nulls_non_tracking e1 = true
    /\ processes_finalizers e2 = true
    /\ marks_ephemerons e3 = true
    /\ nulls_tracking e4 = true.
Proof.
  intros H.
  destruct (monitor_crossing 0 _ _ _ H ltac:(lia))
    as (t0 & e0 & r0 & -> & _ & A0 & H0).
  destruct (monitor_crossing 1 _ _ _ H0 ltac:(lia))
    as (t1 & e1 & r1 & -> & _ & A1 & H1).
  destruct (monitor_crossing 2 _ _ _ H1 ltac:(lia))
    as (t2 & e2 & r2 & -> & _ & A2 & H2).
  destruct (monitor_crossing 3 _ _ _ H2 ltac:(lia))
    as (t3 & e3 & r3 & -> & _ & A3 & H3).
  destruct (monitor_crossing 4 _ _ _ H3 ltac:(lia))
    as (t4 & e4 & r4 & -> & _ & A4 & H4).
  exists t0, e0, t1, e1, t2, e2, t3, e3, t4, e4, r4.
  split; [reflexivity|].
  split; [by apply leaves_0|]. split; [by apply leaves_1|].
  split; [by apply leaves_2|]. split; [by apply leaves_3|].
  by apply leaves_4.
Qed.

(** *** Runs of [finish_gray_stack] *)

Section Runs.

Context {World : Type}.
Variable C : Collaborators World.

Definition at_stage (stage : nat) (r : Run World) : Prop :=
  monitor 0 (trace r) = Some stage.

(** [c], started in a stage that satisfies [pre], leaves an accepted
    trace, and a stage that satisfies [post] when it does not fail. *)
Definition moves (pre post : nat -> Prop)
    (c : Run World -> option Failure * Run World) : Prop :=
  forall r stage, at_stage stage r -> pre stage ->
  forall failure r', c r = (failure, r') ->
  exists stage', at_stage stage' r' /\ (failure = None -> post stage').

Lemma call_stage e f (r : Run World) stage stage' :
  at_stage stage r -> advance stage e = Some stage' ->
  at_stage stage' (call e f r).
Proof.
  unfold at_stage. intros H Ha. simpl. rewrite monitor_app, H. simpl.
  by rewrite Ha.
Qed.

Lemma drain_stage (r : Run World) stage :
  at_stage stage r -> at_stage stage (drain C r).
Proof.
  intros H. apply (call_stage _ _ _ stage); [done|].
  by destruct stage.
Qed.

(** Stage of a run extended by a few calls. *)
Ltac stage_calls :=
  first [ eassumption
        | eapply drain_stage; stage_calls
        | eapply call_stage; [stage_calls | reflexivity] ].

Lemma moves_step pre post (f : Run World -> Run World) :
  (forall r stage, at_stage stage r -> pre stage ->
   exists stage', at_stage stage' (f r) /\ post stage') ->
  moves pre post (step f).
Proof.
  intros H r stage Hs Hp failure r' [= <- <-].
  destruct (H r stage Hs Hp) as (stage' & H1 & H2). eauto.
Qed.

Lemma moves_seq pre mid post c1 c2 :
  moves pre mid c1 -> moves mid post c2 -> moves pre post (seq c1 c2).
Proof.
  intros H1 H2 r stage Hs Hp failure r'. unfold seq.
  destruct (c1 r) as [[f1|] r1] eqn:E1.
  - intros [= <- <-]. destruct (H1 r stage Hs Hp _ _ E1) as (s1 & Hs1 & _).
    exists s1. split; [done|]. discriminate.
  - intros E2. destruct (H1 r stage Hs Hp _ _ E1) as (s1 & Hs1 & Hm).
    eapply H2; eauto.
Qed.

Lemma moves_assert pre cond : moves pre pre (g_assert cond).
Proof.
  intros r stage Hs Hp failure r'. unfold g_assert.
  destruct (cond r); intros [= <- <-]; eauto.
Qed.

Lemma moves_weaken (pre pre' post post' : nat -> Prop) c :
  moves pre post c ->
  (forall s, pre' s -> pre s) -> (forall s, post s -> post' s) ->
  moves pre' post' c.
Proof.
  intros H Hpre Hpost r stage Hs Hp failure r' E.
  destruct (H r stage Hs (Hpre _ Hp) _ _ E) as (s' & H1 & H2). eauto.
Qed.

Lemma ephemeron_loop_moves (a b : nat) fuel start_addr end_addr :
  advance a (EvMarkEphemerons start_addr end_addr) = Some b ->
  advance b (EvMarkEphemerons start_addr end_addr) = Some b ->
  moves (fun s => s = a \/ s = b) (eq b)
    (ephemeron_loop C fuel start_addr end_addr).
Proof.
  intros Ha Hb. induction fuel as [|fuel IH];
    intros r stage Hs Hp failure r'; simpl.
  - intros [= <- <-]. exists stage. split; [done|discriminate].
  - set (r1 := call (EvMarkEphemerons start_addr end_addr) _ r).
    assert (H1 : at_stage b (drain C r1)).
    { apply drain_stage. destruct Hp as [-> | ->];
        eapply call_stage; eauto. }
    destruct (fst (mark_ephemerons_in_range C start_addr end_addr (world r))).
    + intros [= <- <-]. eauto.
    + intros E. eapply (IH _ b); [exact H1 | by right | exact E].
Qed.

Lemma scan_togglerefs_stage start_addr end_addr generation :
  moves (eq 1%nat) (eq 1%nat)
    (step (scan_togglerefs_both C start_addr end_addr generation)).
Proof.
  apply moves_step. intros r stage Hs <-. exists 1%nat. split; [|done].
  unfold scan_togglerefs_both.
  destruct (generation =? GENERATION_OLD); stage_calls.
Qed.

Lemma collect_bridges_stage start_addr end_addr generation :
  moves (eq 1%nat) (eq 1%nat)
    (step (collect_bridges C start_addr end_addr generation)).
Proof.
  apply moves_step. intros r stage Hs <-. exists 1%nat. split; [|done].
  unfold collect_bridges.
  destruct (need_bridge_processing C (world r)); [|done].
  destruct (generation =? GENERATION_OLD); stage_calls.
Qed.

Lemma null_links_stage start_addr end_addr generation
    (before_finalization : bool) (a b : nat) (r : Run World) stage :
  (forall g, advance a (EvNullLink start_addr end_addr g before_finalization)
             = Some b) ->
  (forall g, advance b (EvNullLink start_addr end_addr g before_finalization)
             = Some b) ->
  at_stage stage r -> stage = a \/ stage = b ->
  at_stage b (null_links C start_addr end_addr generation
                before_finalization r).
Proof.
  intros Ha Hb Hs Hp. unfold null_links.
  assert (H1 : at_stage b
                 (call (EvNullLink start_addr end_addr generation
                          before_finalization)
                    (null_link_in_range C start_addr end_addr generation
                       before_finalization) r)).
  { destruct Hp as [-> | ->]; eapply call_stage; eauto. }
  destruct (generation =? GENERATION_OLD); [|done].
  eapply call_stage; eauto.
Qed.

Lemma finalize_both_stage start_addr end_addr generation
    (r : Run World) stage :
  at_stage stage r -> stage = 2%nat \/ stage = 3%nat ->
  at_stage 3 (finalize_both C start_addr end_addr generation r).
Proof.
  intros Hs Hp. unfold finalize_both.
  assert (H1 : at_stage 3
                 (call (EvFinalize start_addr end_addr generation)
                    (finalize_in_range C start_addr end_addr generation) r)).
  { destruct Hp as [-> | ->]; eapply call_stage; eauto. }
  destruct (generation =? GENERATION_OLD); [|done].
  eapply call_stage; eauto.
Qed.

Lemma finalize_loop_stage fuel start_addr end_addr generation :
  forall num_loops (r : Run World) stage failure n r',
  at_stage stage r -> stage = 2%nat \/ stage = 3%nat ->
  finalize_loop C fuel start_addr end_addr generation num_loops r
    = (failure, (n, r')) ->
  exists stage', at_stage stage' r' /\ (failure = None -> stage' = 3%nat).
Proof.
  induction fuel as [|fuel IH]; intros num_loops r stage failure n r' Hs Hp.
  - intros [= <- <- <-]. exists stage. split; [done|discriminate].
  - pose proof (drain_stage _ _
                  (finalize_both_stage start_addr end_addr generation
                     r stage Hs Hp)) as H1.
    change (finalize_loop C (S fuel) start_addr end_addr generation
              num_loops r)
      with (let r1 := finalize_both C start_addr end_addr generation r in
            let num_loops' :=
              if negb (num_ready_finalizers C (world r)
                       =? num_ready_finalizers C (world r1))
              then num_loops + 1 else num_loops in
            if negb (num_ready_finalizers C (world r)
                     =? num_ready_finalizers C (world (drain C r1)))
            then finalize_loop C fuel start_addr end_addr generation
                   num_loops' (drain C r1)
            else (None, (num_loops', drain C r1))).
    cbv zeta.
    destruct (negb (num_ready_finalizers C (world r)
                    =? num_ready_finalizers C
                         (world (drain C
                                   (finalize_both C start_addr end_addr
                                      generation r))))).
    + intros E. eapply (IH _ _ 3%nat); [exact H1 | by right | exact E].
    + intros [= <- <- <-]. eauto.
Qed.

Lemma finalization_moves fuel start_addr end_addr generation :
  moves (eq 2%nat) (eq 3%nat)
    (finalization C fuel start_addr end_addr generation).
Proof.
  intros r stage Hs <- failure r'. unfold finalization.
  destruct (finalize_loop C fuel start_addr end_addr generation 0 r)
    as [f1 [n r1]] eqn:E.
  destruct (finalize_loop_stage _ _ _ _ _ _ _ _ _ _ Hs (or_introl eq_refl) E)
    as (s1 & Hs1 & Hf).
  destruct f1 as [f1|].
  - intros [= <- <-]. exists s1. split; [done|discriminate].
  - destruct (need_bridge_processing C (world r1) && negb (n <=? 1));
      intros [= <- <-]; exists s1; (split; [done|]).
    + discriminate.
    + intros _. symmetry. by apply Hf.
Qed.

Lemma tracking_loop_moves fuel start_addr end_addr generation :
  moves (fun s => s = 4%nat \/ s = 5%nat) (eq 5%nat)
    (tracking_loop C fuel start_addr end_addr generation).
Proof.
  induction fuel as [|fuel IH]; intros r stage Hs Hp failure r'; simpl.
  - intros [= <- <-]. exists stage. split; [done|discriminate].
  - assert (H1 : at_stage 5
                   (null_links C start_addr end_addr generation false r))
      by (eapply (null_links_stage _ _ _ false 4 5); eauto).
    destruct (gray_object_queue_is_empty C _).
    + intros [= <- <-]. eauto.
    + intros E. eapply IH; [apply drain_stage, H1| |exact E]. auto.
Qed.

(** The trace of any run of [finish_gray_stack], finished or not, is
    accepted by the monitor; a finished run has reached the last stage. *)
Lemma finish_gray_stack_accepted fuel start_addr end_addr generation :
  moves (eq 0%nat) (eq 5%nat)
    (finish_gray_stack C fuel start_addr end_addr generation).
Proof.
  unfold finish_gray_stack.
  apply (moves_seq _ (eq 0%nat)).
  { apply moves_step. intros r s Hs <-. exists 0%nat.
    split; [by apply drain_stage|reflexivity]. }
  apply (moves_seq _ (eq 0%nat)).
  { apply moves_step. intros r s Hs <-. exists 0%nat.
    split; [by eapply call_stage|reflexivity]. }
  apply (moves_seq _ (eq 1%nat)).
  { eapply moves_weaken; [apply (ephemeron_loop_moves 0 1); reflexivity| |].
    - intros s <-. by left.
    - intros s H. exact H. }
  apply (moves_seq _ (eq 1%nat)); [apply scan_togglerefs_stage|].
  apply (moves_seq _ (eq 1%nat)); [apply collect_bridges_stage|].
  apply (moves_seq _ (eq 2%nat)).
  { apply moves_step. intros r s Hs <-. exists 2%nat. split; [|reflexivity].
    eapply (null_links_stage _ _ _ true 1 2); eauto. }
  apply (moves_seq _ (eq 3%nat)); [apply finalization_moves|].
  apply (moves_seq _ (eq 4%nat)).
  { eapply moves_weaken; [apply (ephemeron_loop_moves 3 4); reflexivity| |].
    - intros s <-. by left.
    - intros s H. exact H. }
  apply (moves_seq _ (eq 4%nat)).
  { apply moves_step. intros r s Hs <-. exists 4%nat.
    split; [by eapply call_stage|reflexivity]. }
  apply (moves_seq _ (eq 4%nat)); [apply moves_assert|].
  apply (moves_seq _ (eq 5%nat)).
  { eapply moves_weaken; [apply tracking_loop_moves| |].
    - intros s <-. by left.
    - intros s H. exact H. }
  apply moves_assert.
Qed.

Lemma seq_finished c1 c2 (r r' : Run World) :
  seq c1 c2 r = (None, r') ->
  exists r1, c1 r = (None, r1) /\ c2 r1 = (None, r').
Proof.
  unfold seq. destruct (c1 r) as [[f|] r1]; [discriminate|]. eauto.
Qed.

(** A finished run has passed the final
    [g_assert (mono_sgen_gray_object_queue_is_empty (queue))]. *)
Lemma finish_gray_stack_queue_empty fuel start_addr end_addr generation r r' :
  finish_gray_stack C fuel start_addr end_addr generation r = (None, r') ->
  gray_object_queue_is_empty C (world r') = true.
Proof.
  unfold finish_gray_stack. intros H.
  repeat (apply seq_finished in H; destruct H as (? & _ & H)).
  unfold g_assert, queue_is_empty in H.
  destruct (gray_object_queue_is_empty C (world _)) eqn:E; [|discriminate].
  by injection H as <-.
Qed.

(** *** Fuel *)

Lemma seq_run c1 c2 (r r1 : Run World) :
  c1 r = (None, r1) -> seq c1 c2 r = c2 r1.
Proof. intros H. unfold seq. by rewrite H. Qed.

Lemma ephemeron_loop_more fuel k start_addr end_addr :
  forall (r r' : Run World),
  ephemeron_loop C fuel start_addr end_addr r = (None, r') ->
  ephemeron_loop C (fuel + k) start_addr end_addr r = (None, r').
Proof.
  induction fuel as [|fuel IH]; intros r r'; simpl; [discriminate|].
  destruct (fst (mark_ephemerons_in_range C start_addr end_addr (world r)));
    [done|apply IH].
Qed.

Lemma finalize_loop_more fuel k start_addr end_addr generation :
  forall num_loops (r : Run World) res,
  finalize_loop C fuel start_addr end_addr generation num_loops r
    = (None, res) ->
  finalize_loop C (fuel + k) start_addr end_addr generation num_loops r
    = (None, res).
Proof.
  induction fuel as [|fuel IH]; intros num_loops r res; simpl; [discriminate|].
  destruct (negb _); [|done].
  destruct (negb _); apply IH.
Qed.

Lemma finalization_more fuel k start_addr end_addr generation
    (r r' : Run World) :
  finalization C fuel start_addr end_addr generation r = (None, r') ->
  finalization C (fuel + k) start_addr end_addr generation r = (None, r').
Proof.
  unfold finalization.
  destruct (finalize_loop C fuel start_addr end_addr generation 0 r)
    as [[f|] [n r1]] eqn:E; [discriminate|].
  by rewrite (finalize_loop_more _ k _ _ _ _ _ _ E).
Qed.

Lemma tracking_loop_more fuel k start_addr end_addr generation :
  forall (r r' : Run World),
  tracking_loop C fuel start_addr end_addr generation r = (None, r') ->
  tracking_loop C (fuel + k) start_addr end_addr generation r = (None, r').
Proof.
  induction fuel as [|fuel IH]; intros r r'; simpl; [discriminate|].
  destruct (gray_object_queue_is_empty C _); [done|apply IH].
Qed.

(** A run that finishes does not depend on the fuel: with more fuel it
    finishes in the same state, after the same calls. *)
Lemma finish_gray_stack_more_fuel fuel k start_addr end_addr generation
    (r r' : Run World) :
  finish_gray_stack C fuel start_addr end_addr generation r = (None, r') ->
  finish_gray_stack C (fuel + k) start_addr end_addr generation r
    = (None, r').
Proof.
  unfold finish_gray_stack. intros H.
  apply seq_finished in H as (r1 & H1 & H).
  apply seq_finished in H as (r2 & H2 & H).
  apply seq_finished in H as (r3 & H3 & H).
  apply seq_finished in H as (r4 & H4 & H).
  apply seq_finished in H as (r5 & H5 & H).
  apply seq_finished in H as (r6 & H6 & H).
  apply seq_finished in H as (r7 & H7 & H).
  apply seq_finished in H as (r8 & H8 & H).
  apply seq_finished in H as (r9 & H9 & H).
  apply seq_finished in H as (r10 & H10 & H).
  apply seq_finished in H as (r11 & H11 & H).
  rewrite (seq_run _ _ _ _ H1), (seq_run _ _ _ _ H2).
  rewrite (seq_run _ _ _ _ (ephemeron_loop_more _ k _ _ _ _ H3)).
  rewrite (seq_run _ _ _ _ H4), (seq_run _ _ _ _ H5), (seq_run _ _ _ _ H6).
  rewrite (seq_run _ _ _ _ (finalization_more _ k _ _ _ _ _ H7)).
  rewrite (seq_run _ _ _ _ (ephemeron_loop_more _ k _ _ _ _ H8)).
  rewrite (seq_run _ _ _ _ H9), (seq_run _ _ _ _ H10).
  rewrite (seq_run _ _ _ _ (tracking_loop_more _ k _ _ _ _ _ H11)).
  exact H.
Qed.

(** *** The calls made and the state they leave *)

Lemma replay_app t1 t2 (w : World) :
  replay C (t1 ++ t2) w = replay C t2 (replay C t1 w).
Proof. apply fold_left_app. Qed.

(** [f] makes the calls [t], which satisfy [Q], and logs them. *)
Definition appends (f : Run World -> Run World)
    (Q : World -> list Event -> Prop) : Prop :=
  forall r, exists t,
    trace (f r) = trace r ++ t /\ world (f r) = replay C t (world r)
    /\ Q (world r) t.

(** [c] logs the calls it makes; those of a run that does not fail
    satisfy [Q]. *)
Definition logs (c : Run World -> option Failure * Run World)
    (Q : World -> list Event -> Prop) : Prop :=
  forall r failure r', c r = (failure, r') ->
  exists t,
    trace r' = trace r ++ t /\ world r' = replay C t (world r)
    /\ (failure = None -> Q (world r) t).

Lemma call_appends e :
  appends (call e (effect C e)) (fun _ t => t = [e]).
Proof. intros r. by exists [e]. Qed.

Lemma logs_step f Q : appends f Q -> logs (step f) Q.
Proof.
  intros Hf r failure r' [= <- <-].
  destruct (Hf r) as (t & H1 & H2 & H3). eauto.
Qed.

Lemma logs_seq c1 c2 (Q1 Q2 : World -> list Event -> Prop) :
  logs c1 Q1 -> logs c2 Q2 ->
  logs (seq c1 c2)
    (fun w t => exists t1 t2,
       t = t1 ++ t2 /\ Q1 w t1 /\ Q2 (replay C t1 w) t2).
Proof.
  intros H1 H2 r failure r'. unfold seq.
  destruct (c1 r) as [[f1|] r1] eqn:E1.
  - intros [= <- <-]. destruct (H1 _ _ _ E1) as (t1 & Ht1 & Hw1 & _).
    exists t1. split; [done|]. split; [done|discriminate].
  - intros E2. destruct (H1 _ _ _ E1) as (t1 & Ht1 & Hw1 & HQ1).
    destruct (H2 _ _ _ E2) as (t2 & Ht2 & Hw2 & HQ2).
    exists (t1 ++ t2). split; [by rewrite Ht2, Ht1, app_assoc|].
    split; [by rewrite Hw2, Hw1, replay_app|].
    intros Hf. exists t1, t2. split; [done|]. split; [by apply HQ1|].
    rewrite <- Hw1. by apply HQ2.
Qed.

Lemma logs_weaken c (Q Q' : World -> list Event -> Prop) :
  logs c Q -> (forall w t, Q w t -> Q' w t) -> logs c Q'.
Proof.
  intros Hc HQ r failure r' E. destruct (Hc _ _ _ E) as (t & H1 & H2 & H3).
  exists t. split; [done|]. split; [done|]. intros Hf. by apply HQ, H3.
Qed.

Lemma assert_logs :
  logs (g_assert (queue_is_empty C))
    (fun w t => t = [] /\ gray_object_queue_is_empty C w = true).
Proof.
  intros r failure r'. unfold g_assert, queue_is_empty.
  destruct (gray_object_queue_is_empty C (world r)) eqn:E;
    intros [= <- <-]; exists []; rewrite app_nil_r;
    (split; [done|]); (split; [done|]); [done|discriminate].
Qed.

Lemma drain_appends : appends (drain C) (fun _ t => t = [EvDrain]).
Proof. apply (call_appends EvDrain). Qed.

Lemma null_links_appends start_addr end_addr generation bf :
  appends (null_links C start_addr end_addr generation bf)
    (fun _ t => t = null_calls start_addr end_addr generation bf).
Proof.
  intros r. exists (null_calls start_addr end_addr generation bf).
  unfold null_links, null_calls.
  destruct (generation =? GENERATION_OLD); simpl; rewrite <- ?app_assoc; done.
Qed.

Lemma finalize_both_appends start_addr end_addr generation :
  appends (finalize_both C start_addr end_addr generation)
    (fun w t => t = finalize_calls C start_addr end_addr generation w).
Proof.
  intros r.
  exists (finalize_calls C start_addr end_addr generation (world r)).
  unfold finalize_both, finalize_calls.
  destruct (generation =? GENERATION_OLD); simpl; rewrite <- ?app_assoc; done.
Qed.

(** Calls that touch neither the weak links nor the finalization queue. *)
Definition apart (e : Event) : Prop :=
  nulls_non_tracking e = false /\ nulls_tracking e = false
  /\ processes_finalizers e = false.

Lemma scan_togglerefs_appends start_addr end_addr generation :
  appends (scan_togglerefs_both C start_addr end_addr generation)
    (fun _ t => Forall (fun e => apart e /\ marks_ephemerons e = false) t).
Proof.
  intros r. unfold scan_togglerefs_both.
  destruct (generation =? GENERATION_OLD).
  - eexists [_; _]. simpl. rewrite <- app_assoc. split; [reflexivity|].
    split; [reflexivity|]. by repeat constructor.
  - eexists [_]. simpl. split; [reflexivity|].
    split; [reflexivity|]. by repeat constructor.
Qed.

Lemma collect_bridges_appends start_addr end_addr generation :
  appends (collect_bridges C start_addr end_addr generation)
    (fun _ t => Forall (fun e => apart e /\ marks_ephemerons e = false) t).
Proof.
  intros r. unfold collect_bridges.
  destruct (need_bridge_processing C (world r)).
  - destruct (generation =? GENERATION_OLD).
    + eexists [_; _; _]. simpl. rewrite <- !app_assoc. split; [reflexivity|].
      split; [reflexivity|]. by repeat constructor.
    + eexists [_; _]. simpl. rewrite <- !app_assoc. split; [reflexivity|].
      split; [reflexivity|]. by repeat constructor.
  - exists []. rewrite app_nil_r. by repeat constructor.
Qed.

(** The ephemeron loop makes rounds of one pass and one drain, and ends
    after a pass that reports that nothing is left to mark. *)
Lemma ephemeron_loop_logs fuel start_addr end_addr :
  logs (ephemeron_loop C fuel start_addr end_addr)
    (fun w t => exists E1,
       t = E1 ++ [EvMarkEphemerons start_addr end_addr; EvDrain]
       /\ Forall (fun e => marks_ephemerons e = true \/ e = EvDrain) E1
       /\ fst (mark_ephemerons_in_range C start_addr end_addr
                 (replay C E1 w)) = true).
Proof.
  induction fuel as [|fuel IH]; intros r failure r'; simpl.
  - intros [= <- <-]. exists []. rewrite app_nil_r.
    split; [done|]. split; [done|discriminate].
  - set (r1 := drain C (call (EvMarkEphemerons start_addr end_addr) _ r)).
    assert (Ht1 : trace r1
                  = trace r ++ [EvMarkEphemerons start_addr end_addr; EvDrain])
      by (subst r1; simpl; by rewrite <- app_assoc).
    assert (Hw1 : world r1
                  = replay C [EvMarkEphemerons start_addr end_addr; EvDrain]
                      (world r)) by reflexivity.
    destruct (fst (mark_ephemerons_in_range C start_addr end_addr (world r)))
      eqn:Edone.
    + intros [= <- <-]. eexists. split; [exact Ht1|]. split; [exact Hw1|].
      intros _. exists []. by repeat split.
    + intros E. destruct (IH _ _ _ E) as (t & Ht & Hw & HQ).
      exists ([EvMarkEphemerons start_addr end_addr; EvDrain] ++ t).
      split; [by rewrite Ht, Ht1, <- app_assoc|].
      split; [by rewrite Hw, Hw1, <- replay_app|].
      intros Hf. destruct (HQ Hf) as (E1 & -> & HE1 & Hdone).
      exists ([EvMarkEphemerons start_addr end_addr; EvDrain] ++ E1).
      split; [by rewrite <- app_assoc|]. split.
      * apply Forall_app. split; [|done].
        constructor; [by left|]. constructor; [by right|constructor].
      * rewrite replay_app, <- Hw1. exact Hdone.
Qed.

(** The finalization loop makes rounds of finalization calls and one
    drain, and ends after a round that left the number of objects ready
    for finalization as it was. *)
Lemma finalize_loop_logs fuel start_addr end_addr generation :
  forall num_loops (r : Run World) failure n r',
  finalize_loop C fuel start_addr end_addr generation num_loops r
    = (failure, (n, r')) ->
  exists t,
    trace r' = trace r ++ t /\ world r' = replay C t (world r)
    /\ (failure = None ->
        exists F1,
          t = F1 ++ finalize_calls C start_addr end_addr generation
                      (replay C F1 (world r)) ++ [EvDrain]
          /\ Forall (fun e => processes_finalizers e = true \/ e = EvDrain) F1
          /\ num_ready_finalizers C (replay C F1 (world r))
             = num_ready_finalizers C (replay C t (world r))).
Proof.
  induction fuel as [|fuel IH]; intros num_loops r failure n r'.
  - intros [= <- <- <-]. exists []. rewrite app_nil_r.
    split; [done|]. split; [done|discriminate].
  - change (finalize_loop C (S fuel) start_addr end_addr generation
              num_loops r)
      with (let r1 := finalize_both C start_addr end_addr generation r in
            let num_loops' :=
              if negb (num_ready_finalizers C (world r)
                       =? num_ready_finalizers C (world r1))
              then num_loops + 1 else num_loops in
            if negb (num_ready_finalizers C (world r)
                     =? num_ready_finalizers C (world (drain C r1)))
            then finalize_loop C fuel start_addr end_addr generation
                   num_loops' (drain C r1)
            else (None, (num_loops', drain C r1))).
    cbv zeta.
    destruct (finalize_both_appends start_addr end_addr generation r)
      as (tf & Htf & Hwf & ->).
    set (round := finalize_calls C start_addr end_addr generation (world r)
                  ++ [EvDrain]).
    set (r1 := drain C (finalize_both C start_addr end_addr generation r)).
    assert (Ht1 : trace r1 = trace r ++ round)
      by (subst r1 round; simpl; by rewrite Htf, <- app_assoc).
    assert (Hw1 : world r1 = replay C round (world r))
      by (subst r1 round; simpl; by rewrite Hwf, replay_app).
    destruct (negb (num_ready_finalizers C (world r)
                    =? num_ready_finalizers C (world r1))) eqn:Emore.
    + intros E. destruct (IH _ _ _ _ _ E) as (t & Ht & Hw & HQ).
      exists (round ++ t).
      split; [by rewrite Ht, Ht1, <- app_assoc|].
      split; [by rewrite Hw, Hw1, <- replay_app|].
      intros Hf. destruct (HQ Hf) as (F1 & -> & HF1 & Hready).
      exists (round ++ F1). rewrite !replay_app, <- Hw1.
      split; [by rewrite <- app_assoc|].
      split; [|by rewrite !replay_app in Hready].
      apply Forall_app. split; [|done]. subst round.
      apply Forall_app. split; [|constructor; [by right|constructor]].
      unfold finalize_calls.
      destruct (generation =? GENERATION_OLD);
        repeat (constructor; [by left|]); constructor.
    + intros [= <- <- <-]. exists round. split; [done|]. split; [done|].
      intros _. exists []. split; [done|]. split; [done|].
      apply negb_false_iff, Z.eqb_eq in Emore.
      change (replay C [] (world r)) with (world r). by rewrite <- Hw1.
Qed.

Lemma finalization_logs fuel start_addr end_addr generation :
  logs (finalization C fuel start_addr end_addr generation)
    (fun w t => exists F1,
       t = F1 ++ finalize_calls C start_addr end_addr generation
                   (replay C F1 w) ++ [EvDrain]
       /\ Forall (fun e => processes_finalizers e = true \/ e = EvDrain) F1
       /\ num_ready_finalizers C (replay C F1 w)
          = num_ready_finalizers C (replay C t w)).
Proof.
  intros r failure r'. unfold finalization.
  destruct (finalize_loop C fuel start_addr end_addr generation 0 r)
    as [f1 [n r1]] eqn:E.
  destruct (finalize_loop_logs _ _ _ _ _ _ _ _ _ E) as (t & Ht & Hw & HQ).
  destruct f1 as [f1|].
  - intros [= <- <-]. exists t. split; [done|]. split; [done|discriminate].
  - destruct (need_bridge_processing C (world r1) && negb (n <=? 1));
      intros [= <- <-]; exists t; (split; [done|]); (split; [done|]).
    + discriminate.
    + intros _. by apply HQ.
Qed.

(** The last loop makes rounds of nulling calls and one drain, and ends
    after a round that left the gray queue empty. *)
Lemma tracking_loop_logs fuel start_addr end_addr generation :
  logs (tracking_loop C fuel start_addr end_addr generation)
    (fun w t => exists T1,
       t = T1 ++ null_calls start_addr end_addr generation false
       /\ Forall (fun e => nulls_tracking e = true \/ e = EvDrain) T1
       /\ gray_object_queue_is_empty C (replay C t w) = true).
Proof.
  induction fuel as [|fuel IH]; intros r failure r'; simpl.
  - intros [= <- <-]. exists []. rewrite app_nil_r.
    split; [done|]. split; [done|discriminate].
  - destruct (null_links_appends start_addr end_addr generation false r)
      as (tn & Htn & Hwn & ->).
    set (N := null_calls start_addr end_addr generation false) in *.
    destruct (gray_object_queue_is_empty C
                (world (null_links C start_addr end_addr generation false r)))
      eqn:Eempty.
    + intros [= <- <-]. exists N. split; [done|]. split; [done|].
      intros _. exists []. split; [done|]. split; [done|].
      by rewrite <- Hwn.
    + intros E. destruct (IH _ _ _ E) as (t & Ht & Hw & HQ).
      assert (Hw1 : world (drain C (null_links C start_addr end_addr
                                      generation false r))
                    = replay C (N ++ [EvDrain]) (world r))
        by (simpl; by rewrite Hwn, replay_app).
      exists ((N ++ [EvDrain]) ++ t).
      split; [rewrite Ht; simpl; by rewrite Htn, <- !app_assoc|].
      split; [by rewrite Hw, Hw1, <- replay_app|].
      intros Hf. destruct (HQ Hf) as (T1 & -> & HT1 & Hempty).
      exists ((N ++ [EvDrain]) ++ T1). split; [by rewrite <- !app_assoc|].
      split.
      * apply Forall_app. split; [|done].
        apply Forall_app. split; [|constructor; [by right|constructor]].
        subst N. unfold null_calls.
        destruct (generation =? GENERATION_OLD);
          repeat (constructor; [by left|]); constructor.
      * rewrite replay_app, <- Hw1. exact Hempty.
Qed.

Lemma logs_seq_any c1 c2 (Q1 Q2 : World -> list Event -> Prop) :
  logs c1 Q1 -> logs c2 Q2 -> logs (seq c1 c2) (fun _ _ => True).
Proof.
  intros H1 H2. eapply logs_weaken; [apply (logs_seq _ _ _ _ H1 H2)|done].
Qed.

(** Every call that a run of [finish_gray_stack] records was made, in the
    order of the record, finished or not. *)
Lemma finish_gray_stack_logs fuel start_addr end_addr generation :
  logs (finish_gray_stack C fuel start_addr end_addr generation)
    (fun _ _ => True).
Proof.
  unfold finish_gray_stack.
  eapply logs_seq_any; [apply logs_step, drain_appends|].
  eapply logs_seq_any; [apply logs_step, (call_appends EvBridgeReset)|].
  eapply logs_seq_any; [apply ephemeron_loop_logs|].
  eapply logs_seq_any; [apply logs_step, scan_togglerefs_appends|].
  eapply logs_seq_any; [apply logs_step, collect_bridges_appends|].
  eapply logs_seq_any; [apply logs_step, null_links_appends|].
  eapply logs_seq_any; [apply finalization_logs|].
  eapply logs_seq_any; [apply ephemeron_loop_logs|].
  eapply logs_seq_any;
    [apply logs_step,
       (call_appends (EvClearEphemerons start_addr end_addr))|].
  eapply logs_seq_any; [apply assert_logs|].
  eapply logs_seq_any; [apply tracking_loop_logs|apply assert_logs].
Qed.

Lemma logged_extend (w : World) (r r' : Run World) t :
  world r = replay C (trace r) w ->
  trace r' = trace r ++ t -> world r' = replay C t (world r) ->
  world r' = replay C (trace r') w.
Proof. intros Hr Ht Hw. by rewrite Hw, Ht, replay_app, Hr. Qed.

Lemma pass_or_drain_apart e :
  marks_ephemerons e = true \/ e = EvDrain -> apart e.
Proof. intros [H| ->]; [by destruct e|done]. Qed.


End Runs.

(** A small collector.  The state counts the objects waiting for
    finalization, the objects ready for it, the gray objects, the
    ephemeron values still to be marked, and the dead referents of the
    links of either kind.  An ephemeron pass marks one value, or reports
    that none is left; finalization moves the waiting objects to the ready
    list, grays them, and leaves one more ephemeron value to mark;
    nulling clears the links of the kind asked for; draining empties the
    queue. *)
Definition demo_collab
    : Collaborators (nat * nat * nat * nat * nat * nat) :=
  {| drain_gray_stack := fun '(waiting, ready, gray, pending, weak, tracked) =>
       (waiting, ready, O, pending, weak, tracked);
     bridge_reset_data := fun w => w;
     mark_ephemerons_in_range :=
       fun _ _ '(waiting, ready, gray, pending, weak, tracked) =>
         match pending with
         | O => (true, (waiting, ready, gray, pending, weak, tracked))
         | S pending' =>
             (false, (waiting, ready, S gray, pending', weak, tracked))
         end;
     scan_togglerefs := fun _ _ w => w;
     need_bridge_processing := fun _ => false;
     collect_bridge_objects := fun _ _ _ w => w;
     null_link_in_range :=
       fun _ _ _ (before_finalization : bool)
           '(waiting, ready, gray, pending, weak, tracked) =>
         if before_finalization
         then (waiting, ready, gray, pending, O, tracked)
         else (waiting, ready, gray, pending, weak, O);
     finalize_in_range :=
       fun _ _ _ '(waiting, ready, gray, pending, weak, tracked) =>
         match waiting with
         | O => (waiting, ready, gray, pending, weak, tracked)
         | S _ =>
             (O, (ready + waiting)%nat, (gray + waiting)%nat, S pending,
              weak, tracked)
         end;
     num_ready_finalizers :=
       fun '(waiting, ready, gray, pending, weak, tracked) => Z.of_nat ready;
     clear_unreachable_ephemerons := fun _ _ w => w;
     gray_object_queue_is_empty :=
       fun '(waiting, ready, gray, pending, weak, tracked) => Nat.eqb gray 0;
     get_nursery_start := fun _ => 4096;
     get_nursery_end := fun _ => 8192 |}.


End FinisherFacts.

(** ** Conservative pinning *)

Module PinningFacts.

Import Pinning.

Section Alignment.

Variable ALLOC_ALIGN_BITS : nat.

Lemma ALLOC_ALIGN_pos : 0 < ALLOC_ALIGN ALLOC_ALIGN_BITS.
Proof. unfold ALLOC_ALIGN. apply Z.pow_pos_nonneg; lia. Qed.

Lemma ALIGN_UP_div s :
  ALIGN_UP ALLOC_ALIGN_BITS s
  = (s + (ALLOC_ALIGN ALLOC_ALIGN_BITS - 1)) / ALLOC_ALIGN ALLOC_ALIGN_BITS
    * ALLOC_ALIGN ALLOC_ALIGN_BITS.
Proof.
  unfold ALIGN_UP, ALLOC_ALIGN.
  replace (2 ^ Z.of_nat ALLOC_ALIGN_BITS - 1)
    with (Z.ones (Z.of_nat ALLOC_ALIGN_BITS))
    by (rewrite Z.ones_equiv; lia).
  rewrite <- Z.ldiff_land, Z.ldiff_ones_r by lia.
  rewrite Z.shiftl_mul_pow2, Z.shiftr_div_pow2 by lia.
  rewrite Z.ones_equiv. reflexivity.
Qed.

Lemma ALIGN_UP_bounds s :
  s <= ALIGN_UP ALLOC_ALIGN_BITS s < s + ALLOC_ALIGN ALLOC_ALIGN_BITS.
Proof.
  rewrite ALIGN_UP_div. pose proof ALLOC_ALIGN_pos as Hpos.
  set (A := ALLOC_ALIGN ALLOC_ALIGN_BITS) in *.
  pose proof (Z.div_mod (s + (A - 1)) A ltac:(lia)) as Hdm.
  pose proof (Z.mod_pos_bound (s + (A - 1)) A Hpos) as Hm.
  lia.
Qed.

(** The 32-bit rounding clears the low bits of the 32-bit sum. *)
Lemma ALIGN_UP_guint_mod s :
  ALIGN_UP_guint ALLOC_ALIGN_BITS s
  = to_guint (s + (ALLOC_ALIGN ALLOC_ALIGN_BITS - 1))
    - to_guint (s + (ALLOC_ALIGN ALLOC_ALIGN_BITS - 1))
      mod ALLOC_ALIGN ALLOC_ALIGN_BITS.
Proof.
  unfold ALIGN_UP_guint.
  set (m := to_guint (s + (ALLOC_ALIGN ALLOC_ALIGN_BITS - 1))).
  assert (Hm : m mod 2 ^ 32 = m).
  { subst m. unfold to_guint. apply Z.mod_mod. lia. }
  unfold to_guint at 1.
  rewrite <- (Z.land_ones _ 32), (Z.land_comm _ (Z.ones 32)) by lia.
  rewrite Z.land_assoc, (Z.land_ones m 32), Hm by lia.
  unfold ALLOC_ALIGN.
  replace (2 ^ Z.of_nat ALLOC_ALIGN_BITS - 1)
    with (Z.ones (Z.of_nat ALLOC_ALIGN_BITS))
    by (rewrite Z.ones_equiv; lia).
  rewrite <- Z.ldiff_land, Z.ldiff_ones_r by lia.
  rewrite Z.shiftl_mul_pow2, Z.shiftr_div_pow2 by lia.
  pose proof (Z.div_mod m (2 ^ Z.of_nat ALLOC_ALIGN_BITS)
                ltac:(pose proof ALLOC_ALIGN_pos; unfold ALLOC_ALIGN in *; lia)).
  lia.
Qed.

Lemma ALIGN_UP_guint_nonneg s : 0 <= ALIGN_UP_guint ALLOC_ALIGN_BITS s.
Proof.
  rewrite ALIGN_UP_guint_mod. pose proof ALLOC_ALIGN_pos as Hpos.
  pose proof (to_guint_nonneg (s + (ALLOC_ALIGN ALLOC_ALIGN_BITS - 1))) as H0.
  pose proof (Z.mod_le _ _ H0 Hpos). lia.
Qed.

(** The 32-bit rounding of a [guint]: the rounding of the integers when
    the rounded size fits 32 bits, and 0 when it does not. *)
Lemma ALIGN_UP_guint_cases s :
  0 <= s < 2 ^ 32 ->
  (s <= 2 ^ 32 - ALLOC_ALIGN ALLOC_ALIGN_BITS
   /\ ALIGN_UP_guint ALLOC_ALIGN_BITS s = ALIGN_UP ALLOC_ALIGN_BITS s)
  \/ (2 ^ 32 - ALLOC_ALIGN ALLOC_ALIGN_BITS < s
      /\ ALIGN_UP_guint ALLOC_ALIGN_BITS s = 0).
Proof.
  intros Hs. rewrite ALIGN_UP_guint_mod. pose proof ALLOC_ALIGN_pos as Hpos.
  set (A := ALLOC_ALIGN ALLOC_ALIGN_BITS) in *.
  unfold to_guint.
  destruct (Z_le_gt_dec s (2 ^ 32 - A)) as [Hle|Hgt].
  - left. split; [exact Hle|].
    rewrite (Z.mod_small (s + (A - 1))) by lia.
    rewrite ALIGN_UP_div. fold A.
    pose proof (Z.div_mod (s + (A - 1)) A ltac:(lia)). lia.
  - right. split; [lia|].
    pose proof (Z.mod_pos_bound (s + (A - 1)) (2 ^ 32) ltac:(lia)) as Hm.
    pose proof (Z.div_mod (s + (A - 1)) (2 ^ 32) ltac:(lia)) as Hdm.
    assert (Hq : 1 <= (s + (A - 1)) / 2 ^ 32).
    { apply Z.div_le_lower_bound; lia. }
    rewrite (Z.mod_small ((s + (A - 1)) mod 2 ^ 32) A) by lia. lia.
Qed.

End Alignment.

Lemma sorted_snoc (l : list Z) (y : Z) :
  StronglySorted Z.lt l -> Forall (fun x => x < y) l ->
  StronglySorted Z.lt (l ++ [y]).
Proof.
  induction 1 as [|x l Hl IH Hx]; intros Hy; simpl.
  - repeat constructor.
  - inversion Hy as [|? ? Hxy Hly]; subst. constructor; [by apply IH|].
    apply Forall_app. split; [done|]. by repeat constructor.
Qed.

Lemma sorted_lt_NoDup (l : list Z) : StronglySorted Z.lt l -> NoDup l.
Proof.
  induction 1 as [|x l Hl IH Hx]; constructor; [|done].
  intros Hin. rewrite Forall_forall in Hx. specialize (Hx _ Hin). lia.
Qed.

Section General.

Variable ALLOC_ALIGN_BITS : nat.
Variable sizeof_gpointer : positive.
Variable SCAN_START_SIZE : positive.
Variable safe_object_get_size : Z -> Z.
Variable synchronisation : Z -> Z.

Local Abbreviation align_up := (ALIGN_UP ALLOC_ALIGN_BITS).
Local Abbreviation asize := (aligned_size ALLOC_ALIGN_BITS safe_object_get_size).
Local Abbreviation walk :=
  (walk ALLOC_ALIGN_BITS sizeof_gpointer safe_object_get_size synchronisation).
Local Abbreviation pin_candidate :=
  (pin_candidate ALLOC_ALIGN_BITS sizeof_gpointer SCAN_START_SIZE
     safe_object_get_size synchronisation).
Local Abbreviation pin_loop :=
  (pin_loop ALLOC_ALIGN_BITS sizeof_gpointer SCAN_START_SIZE
     safe_object_get_size synchronisation).
Local Abbreviation pin_objects_from_addresses :=
  (pin_objects_from_addresses ALLOC_ALIGN_BITS sizeof_gpointer SCAN_START_SIZE
     safe_object_get_size synchronisation).

Lemma aligned_size_nonneg a : 0 <= asize a.
Proof. apply ALIGN_UP_guint_nonneg. Qed.

Lemma to_guint_range z : 0 <= to_guint z < 2 ^ 32.
Proof. unfold to_guint. apply Z.mod_pos_bound. reflexivity. Qed.

(** A size that the rounding leaves positive was not wrapped: the aligned
    extent covers the object. *)
Lemma aligned_size_lower a :
  0 < asize a -> to_guint (safe_object_get_size a) <= asize a.
Proof.
  unfold aligned_size.
  destruct (ALIGN_UP_guint_cases ALLOC_ALIGN_BITS _
              (to_guint_range (safe_object_get_size a)))
    as [[_ ->]|[_ ->]]; [|lia].
  intros _. apply ALIGN_UP_bounds.
Qed.

(** The aligned size is positive exactly when the size is neither zero
    nor within [ALLOC_ALIGN - 1] of [2^32]. *)
Lemma aligned_size_positive a :
  0 < asize a
  <-> 0 < to_guint (safe_object_get_size a)
            <= 2 ^ 32 - ALLOC_ALIGN ALLOC_ALIGN_BITS.
Proof.
  unfold aligned_size.
  pose proof (to_guint_range (safe_object_get_size a)) as Hr.
  pose proof (ALIGN_UP_bounds ALLOC_ALIGN_BITS
                (to_guint (safe_object_get_size a))) as Hb.
  assert (H0 : ALIGN_UP ALLOC_ALIGN_BITS 0 = 0).
  { rewrite ALIGN_UP_div. pose proof (ALLOC_ALIGN_pos ALLOC_ALIGN_BITS).
    rewrite Z.div_small by lia. reflexivity. }
  destruct (ALIGN_UP_guint_cases ALLOC_ALIGN_BITS _ Hr) as [[Hle ->]|[Hgt ->]].
  - split; [|lia]. intros Hpos. split; [|exact Hle].
    destruct (Z.eq_dec (to_guint (safe_object_get_size a)) 0) as [E|]; [|lia].
    rewrite E, H0 in Hpos. lia.
  - lia.
Qed.

Lemma skip_word_advances s : s < align_up (s + Z.pos sizeof_gpointer).
Proof.
  pose proof (ALIGN_UP_bounds ALLOC_ALIGN_BITS (s + Z.pos sizeof_gpointer)).
  lia.
Qed.

(** What the walk returns, whatever the section holds: an object it
    reports contains the candidate and lies at or after the place the walk
    started from; [last_obj] is either left alone or moved forward. *)
Lemma walk_general fuel heap addr :
  forall s lo sz found lo' sz',
  walk fuel heap addr s lo sz = Ret (found, lo', sz') ->
  if found then s <= lo' /\ sz' = asize lo' /\ lo' <= addr < lo' + sz'
  else (lo' = lo /\ sz' = sz) \/ (s <= lo' /\ sz' = asize lo').
Proof.
  induction fuel as [|fuel IH]; simpl; [discriminate|].
  intros s lo sz found lo' sz' H.
  pose proof (skip_word_advances s) as Hskip.
  pose proof (aligned_size_nonneg s) as Hsz.
  destruct (heap s =? 0).
  - destruct (align_up (s + Z.pos sizeof_gpointer) <=? addr).
    + apply IH in H. destruct found.
      * destruct H as (H1 & H2 & H3). split; [lia|done].
      * destruct H as [H|[H1 H2]]; [by left|right; split; [lia|done]].
    + injection H as <- <- <-. by left.
  - destruct (negb (synchronisation s =? FRAGMENT_MARK)
              && (addr >=? s) && (addr <? s + asize s)) eqn:E.
    + injection H as <- <- <-.
      apply andb_prop in E as [E E3]. apply andb_prop in E as [_ E2].
      split; [lia|]. split; [done|]. lia.
    + destruct (s + asize s <=? addr).
      * apply IH in H. destruct found.
        -- destruct H as (H1 & H2 & H3). split; [lia|done].
        -- destruct H as [[-> ->]|[H1 H2]]; right; split; (lia || done).
      * injection H as <- <- <-. right. split; [lia|done].
Qed.

(** Why the sizes must not wrap: at a header whose size rounds to 0 the
    walk compares the candidate with an empty extent and steps by 0, so it
    stays where it is and never ends. *)
Lemma walk_stuck fuel heap addr s lo sz :
  heap s <> 0 -> asize s = 0 -> s <= addr ->
  walk fuel heap addr s lo sz = Abort FuelExhausted.
Proof.
  intros Hnz Hsz Hle. revert lo sz.
  induction fuel as [|fuel IH]; intros lo sz; simpl; [done|].
  destruct (Z.eqb_spec (heap s) 0) as [|_]; [done|].
  rewrite Hsz, Z.add_0_r.
  destruct (Z.ltb_spec addr s); [lia|]. rewrite andb_false_r.
  destruct (Z.leb_spec s addr); [apply IH|lia].
Qed.

(** The part of the loop invariant that holds for any section and any
    candidate array: [i] candidates have been handled. *)
Record progress (heap0 : Z -> Z) (queue : list Z) (n i : nat) (st : PinState)
    : Prop := mkProgress {
  pr_length : length (array st) = n;
  pr_count : (count st <= i)%nat;
  pr_sorted : StronglySorted Z.lt (definitely_pinned st);
  pr_below : Forall (fun x => x <= last_obj st) (definitely_pinned st);
  pr_size : count st = O \/ last_obj_size st = asize (last_obj st);
  pr_size_nonneg : 0 <= last_obj_size st;
  pr_queue : gray_queue st = queue ++ definitely_pinned st;
  pr_heap : forall a,
    heap st a
    = if decide (a ∈ definitely_pinned st)
      then Z.lor (heap0 a) SGEN_PINNED_BIT else heap0 a
}.

Lemma progress_initial heap0 queue candidates :
  progress heap0 queue (length candidates) 0
    (initial_state candidates heap0 queue).
Proof.
  split; simpl; try done.
  - constructor.
  - by left.
  - by rewrite app_nil_r.
Qed.

Lemma progress_skip heap0 queue n i st :
  progress heap0 queue n i st -> progress heap0 queue n (S i) st.
Proof. intros []. split; try done. lia. Qed.

(** The prefix after one more object has been written. *)
Lemma definitely_pinned_extend (st : PinState) (obj : Z) :
  (count st < length (array st))%nat ->
  take (S (count st)) (<[count st := obj]> (array st))
  = definitely_pinned st ++ [obj].
Proof.
  intros Hlt. unfold definitely_pinned.
  erewrite take_S_r by (by apply list_lookup_insert_eq).
  by rewrite take_insert_ge.
Qed.

Lemma progress_step heap0 queue n fuel section start_nursery end_nursery
    i st st' :
  (i < n)%nat ->
  progress heap0 queue n i st ->
  pin_candidate fuel section start_nursery end_nursery i st = Ret st' ->
  progress heap0 queue n (S i) st'
  /\ (count st' = count st /\ array st' = array st
      \/ exists addr obj,
           array st !! i = Some addr
           /\ count st' = S (count st)
           /\ definitely_pinned st' = definitely_pinned st ++ [obj]
           /\ array st' = <[count st := obj]> (array st)
           /\ (obj ∉ definitely_pinned st)
           /\ obj <= addr < obj + asize obj).
Proof.
  intros Hi Hpr. unfold Pinning.pin_candidate.
  destruct (array st !! i) as [addr|] eqn:Ea; [|discriminate].
  destruct (negb (addr =? last st) && (addr >=? start_nursery)
            && (addr <? end_nursery));
    [|intros [= <-]; split; [by apply progress_skip|by left]].
  destruct ((addr >=? last_obj st)
            && (addr <? last_obj st + last_obj_size st)) eqn:Eskip;
    [intros [= <-]; split; [by apply progress_skip|by left]|].
  cbv zeta.
  destruct (negb _); [discriminate|].
  destruct (_ <? 0); [discriminate|].
  match goal with
  | |- context [Pinning.walk _ _ _ _ _ _ _ ?s _ _] => set (ss := s)
  end.
  assert (Hss : last_obj st <= ss).
  { subst ss. pose proof (pr_size_nonneg _ _ _ _ _ Hpr).
    case_match eqn:E; [lia|]. apply Z.ltb_ge in E. lia. }
  destruct (walk fuel (heap st) addr ss (last_obj st) (last_obj_size st))
    as [[[found lo'] sz']|] eqn:Ew; [|discriminate].
  apply walk_general in Ew.
  destruct Hpr as [Hlen Hcount Hsorted Hbelow Hsize Hnonneg Hqueue Hheap].
  destruct found; intros [= <-].
  - destruct Ew as (H1 & -> & H3).
    assert (Hfresh : Forall (fun x => x < lo') (definitely_pinned st)).
    { destruct Hsize as [H0|Hsz].
      - unfold definitely_pinned. rewrite H0. constructor.
      - assert (lo' <> last_obj st).
        { intros ->. rewrite <- Hsz in H3.
          apply andb_false_iff in Eskip as [E|E]; lia. }
        eapply Forall_impl; [exact Hbelow|]. simpl. intros x Hx. lia. }
    assert (Hnotin : lo' ∉ definitely_pinned st).
    { intros Hin. rewrite Forall_forall in Hfresh.
      specialize (Hfresh _ Hin). lia. }
    assert (Hext : definitely_pinned (pin_found addr lo' (asize lo') st)
                   = definitely_pinned st ++ [lo']).
    { unfold definitely_pinned at 1. simpl.
      apply definitely_pinned_extend. lia. }
    split.
    + split; simpl.
      * by rewrite length_insert.
      * lia.
      * rewrite Hext. by apply sorted_snoc.
      * rewrite Hext. apply Forall_app. split.
        -- eapply Forall_impl; [exact Hfresh|]. simpl. intros; lia.
        -- repeat constructor. simpl. lia.
      * by right.
      * apply aligned_size_nonneg.
      * rewrite Hext, Hqueue. by rewrite app_assoc.
      * intros a. rewrite Hext. unfold pin_object.
        destruct (Z.eqb_spec a lo') as [->|Hne].
        -- rewrite decide_True by (apply elem_of_app; right; by constructor).
           rewrite Hheap. by rewrite decide_False.
        -- rewrite Hheap.
           destruct (decide (a ∈ definitely_pinned st)) as [Hin|Hin].
           ++ rewrite decide_True; [done|]. apply elem_of_app. by left.
           ++ rewrite decide_False; [done|].
              rewrite elem_of_app, list_elem_of_singleton. tauto.
    + right. exists addr, lo'. simpl. repeat split; try done; lia.
  - split; [|by left].
    split; simpl; try done.
    + lia.
    + change (definitely_pinned _) with (definitely_pinned st).
      destruct Ew as [[-> _]|[H1 _]]; [done|].
      eapply Forall_impl; [exact Hbelow|]. simpl. intros; lia.
    + destruct Ew as [[-> ->]|[_ ->]]; [done|by right].
    + destruct Ew as [[_ ->]|[_ ->]]; [done|apply aligned_size_nonneg].
Qed.

Lemma progress_loop heap0 queue n fuel section start_nursery end_nursery :
  forall remaining i st st',
  (i + remaining = n)%nat ->
  progress heap0 queue n i st ->
  pin_loop fuel section start_nursery end_nursery remaining i st = Ret st' ->
  progress heap0 queue n n st'.
Proof.
  induction remaining as [|remaining IH]; simpl; intros i st st' Hn Hpr.
  - intros [= <-]. assert (i = n) as -> by lia. done.
  - destruct (pin_candidate fuel section start_nursery end_nursery i st)
      as [st1|] eqn:E; [|discriminate].
    apply progress_step with (heap0 := heap0) (queue := queue) (n := n) in E
      as [Hpr1 _]; [|lia|done].
    apply IH; [lia|done].
Qed.

Lemma skipped_candidate fuel section start_nursery end_nursery i st addr :
  array st !! i = Some addr ->
  addr = last st
  \/ last_obj st <= addr < last_obj st + last_obj_size st ->
  pin_candidate fuel section start_nursery end_nursery i st = Ret st.
Proof.
  intros Ha Hskip. unfold Pinning.pin_candidate. rewrite Ha.
  destruct Hskip as [->|Hin].
  - by rewrite Z.eqb_refl.
  - destruct (negb _ && _ && _); [|done].
    destruct (Z.geb_spec addr (last_obj st)); [|lia].
    destruct (Z.ltb_spec addr (last_obj st + last_obj_size st)); [done|lia].
Qed.

(** C9.  Whatever the candidates (sorted or not) and whatever the section
    holds, when [pin_objects_from_addresses] returns: the count is at most
    the number of candidates; the prefix of the array it has written, the
    pinned objects, is in strictly increasing address order, hence
    without repetition, and it is exactly what was added to the gray
    queue, so that no object is pinned or enqueued twice; the pin tag is
    set on these objects and on no other; and a candidate equal to the
    previous one, or inside the extent of the last object met, is skipped
    without any effect. *)
Theorem pins_once_in_order
    (fuel : nat) (section : GCMemSection) (candidates : list Z)
    (start_nursery end_nursery : Z) (heap0 : Z -> Z) (queue : list Z)
    (st : PinState) :
  pin_objects_from_addresses fuel section candidates start_nursery
    end_nursery heap0 queue = Ret st ->
  (count st <= length candidates)%nat
  /\ StronglySorted Z.lt (definitely_pinned st)
  /\ NoDup (definitely_pinned st)
  /\ gray_queue st = queue ++ definitely_pinned st
  /\ (forall a,
        heap st a
        = if decide (a ∈ definitely_pinned st)
          then Z.lor (heap0 a) SGEN_PINNED_BIT else heap0 a)
  /\ (forall st0 i addr,
        array st0 !! i = Some addr ->
        addr = last st0
        \/ last_obj st0 <= addr < last_obj st0 + last_obj_size st0 ->
        pin_candidate fuel section start_nursery end_nursery i st0 = Ret st0).
Proof.
  intros H. unfold Pinning.pin_objects_from_addresses in H.
  apply progress_loop with (heap0 := heap0) (queue := queue)
                           (n := length candidates) in H;
    [|lia|apply progress_initial].
  destruct H as [Hlen Hcount Hsorted Hbelow Hsize Hnonneg Hqueue Hheap].
  split; [done|]. split; [done|]. split; [by apply sorted_lt_NoDup|].
  split; [done|]. split; [done|].
  intros st0 i addr. apply skipped_candidate.
Qed.

End General.

(** A section of 128 bytes at 4096, with scan starts every 64 bytes: an
    object of 24 bytes at 4096, two null words, a fragment placeholder of
    40 bytes at 4136, an object of 20 bytes (24 once aligned) at 4176 and
    three null words. *)
Definition demo_heap (a : Z) : Z :=
  if a =? 4096 then 1000 else if a =? 4136 then 2000
  else if a =? 4176 then 1000 else 0.

Definition demo_size (a : Z) : Z :=
  if a =? 4096 then 24 else if a =? 4136 then 40
  else if a =? 4176 then 20 else 0.

Definition demo_synchronisation (a : Z) : Z :=
  if a =? 4136 then FRAGMENT_MARK else 0.

Definition demo_section : GCMemSection :=
  {| data := 4096; scan_starts := [4096; 4176] |}.

(** Two candidates inside the first object, one of them twice; one in
    zeroed memory; two inside the placeholder; one inside the second
    object; one in the zeroed tail. *)
Definition demo_candidates : list Z :=
  [4104; 4104; 4112; 4128; 4144; 4160; 4184; 4208].

Definition demo_pin (fuel : nat) : Outcome PinState :=
  pin_objects_from_addresses 3 8 64 demo_size demo_synchronisation fuel
    demo_section demo_candidates 4096 4224 demo_heap [].

Lemma pins_once_in_order_witness :
  exists st,
    demo_pin 200 = Ret st
    /\ definitely_pinned st = [4096; 4176]
    /\ NoDup (definitely_pinned st)
    /\ gray_queue st = [4096; 4176].
Proof.
  destruct (demo_pin 200) as [st|] eqn:E; [|vm_compute in E; discriminate].
  exists st. split; [reflexivity|].
  destruct (pins_once_in_order 3 8 64 demo_size demo_synchronisation 200
              demo_section demo_candidates 4096 4224 demo_heap [] st E)
    as (_ & _ & Hnodup & Hqueue & _).
  assert (Hdp : definitely_pinned st = [4096; 4176]).
  { vm_compute in E. injection E as <-. reflexivity. }
  split; [exact Hdp|]. split; [exact Hnodup|].
  rewrite Hqueue, Hdp. reflexivity.
Defined.

(** One object whose size is within 7 of [2^32], and a candidate inside
    it: the size rounds to 0 and the function does not return, whatever
    the fuel. *)
Lemma wrapped_size_never_returns fuel :
  pin_objects_from_addresses 3 8 64 (fun _ => 4294967292) (fun _ => 0) fuel
    {| data := 4096; scan_starts := [4096] |} [4100] 4096 4160
    (fun a => if a =? 4096 then 1000 else 0) []
  = Abort FuelExhausted.
Proof.
  unfold pin_objects_from_addresses. simpl.
  unfold pin_candidate. simpl.
  rewrite walk_stuck; [reflexivity|by vm_compute..].
Qed.

End PinningFacts.

(** ** Conservative pinning: resolution of the candidates *)

Module PinningLayoutFacts.

Import Pinning PinningFacts.

Lemma pin_tag_set x : negb (Z.land (Z.lor x SGEN_PINNED_BIT) SGEN_PINNED_BIT =? 0) = true.
Proof.
  apply negb_true_iff, Z.eqb_neq. intros H.
  assert (Hb : Z.testbit (Z.land (Z.lor x SGEN_PINNED_BIT) SGEN_PINNED_BIT) 1
               = true).
  { rewrite Z.land_spec, Z.lor_spec. unfold SGEN_PINNED_BIT.
    change (Z.testbit 2 1) with true. by rewrite orb_true_r. }
  rewrite H in Hb. by rewrite Z.bits_0 in Hb.
Qed.

Lemma pin_tag_not_null x : Z.lor x SGEN_PINNED_BIT <> 0.
Proof.
  intros H. apply Z.lor_eq_0_iff in H as [_ H]. discriminate.
Qed.

Lemma sorted_later (l1 l2 : list Z) (x : Z) :
  Sorted Z.le (l1 ++ x :: l2) -> Forall (fun c => x <= c) l2.
Proof.
  intros H. apply Sorted_StronglySorted in H; [|intros a b c; lia].
  induction l1 as [|y l1 IH]; simpl in H; inversion H; subst; auto.
Qed.

Section Layout.

Variable ALLOC_ALIGN_BITS : nat.
Variable sizeof_gpointer : positive.
Variable SCAN_START_SIZE : positive.
Variable safe_object_get_size : Z -> Z.
Variable synchronisation : Z -> Z.
Variable section : GCMemSection.
Variable candidates : list Z.
Variable start_nursery end_nursery : Z.
Variable heap0 : Z -> Z.

Hypothesis Hwf :
  well_formed ALLOC_ALIGN_BITS sizeof_gpointer SCAN_START_SIZE
    safe_object_get_size section candidates start_nursery end_nursery heap0.

Local Abbreviation align_up := (ALIGN_UP ALLOC_ALIGN_BITS).
Local Abbreviation asize := (aligned_size ALLOC_ALIGN_BITS safe_object_get_size).
Local Abbreviation next :=
  (next_position ALLOC_ALIGN_BITS sizeof_gpointer safe_object_get_size heap0).
Local Abbreviation reaches :=
  (reaches ALLOC_ALIGN_BITS sizeof_gpointer safe_object_get_size heap0
     end_nursery).
Local Abbreviation position :=
  (position ALLOC_ALIGN_BITS sizeof_gpointer safe_object_get_size heap0
     start_nursery end_nursery).
Local Abbreviation object_at :=
  (object_at ALLOC_ALIGN_BITS sizeof_gpointer safe_object_get_size
     synchronisation heap0 start_nursery end_nursery).
Local Abbreviation inside := (inside ALLOC_ALIGN_BITS safe_object_get_size).
Local Abbreviation walk :=
  (walk ALLOC_ALIGN_BITS sizeof_gpointer safe_object_get_size synchronisation).
Local Abbreviation pin_candidate :=
  (pin_candidate ALLOC_ALIGN_BITS sizeof_gpointer SCAN_START_SIZE
     safe_object_get_size synchronisation).
Local Abbreviation pin_loop :=
  (pin_loop ALLOC_ALIGN_BITS sizeof_gpointer SCAN_START_SIZE
     safe_object_get_size synchronisation).
Local Abbreviation pin_objects_from_addresses :=
  (pin_objects_from_addresses ALLOC_ALIGN_BITS sizeof_gpointer SCAN_START_SIZE
     safe_object_get_size synchronisation).
Local Abbreviation progress :=
  (progress ALLOC_ALIGN_BITS safe_object_get_size heap0).

(** *** Iterating the section *)

Lemma reaches_trans s a b : reaches s a -> reaches a b -> reaches s b.
Proof. intros Hsa Hab. induction Hab; [done|by constructor]. Qed.

Lemma next_advances a : position a -> a < end_nursery -> a < next a.
Proof.
  intros Hpos Hlt. unfold next_position.
  destruct (Z.eqb_spec (heap0 a) 0) as [|Hnz].
  - apply skip_word_advances.
  - pose proof (wf_sizes _ _ _ _ _ _ _ _ _ Hwf a Hpos Hlt Hnz).
    lia.
Qed.

Lemma reaches_le s a : position s -> reaches s a -> s <= a /\ position a.
Proof.
  intros Hs Hsa. induction Hsa as [|a Hsa [IH1 IH2] Hlt].
  - split; [lia|done].
  - pose proof (next_advances a IH2 Hlt). split; [lia|].
    by apply reaches_next.
Qed.

Lemma reaches_left s a :
  reaches s a -> s = a \/ (s < end_nursery /\ reaches (next s) a).
Proof.
  induction 1 as [|a Hsa IH Hlt]; [by left|]. right.
  destruct IH as [->|[Hs Hn]].
  - split; [done|]. constructor.
  - split; [done|]. by constructor.
Qed.

Lemma positions_ordered a b :
  position a -> position b -> reaches a b \/ reaches b a.
Proof.
  intros Ha Hb. induction Hb as [|b Hb IH Hlt]; [by right|].
  destruct IH as [Hab|Hba].
  - left. by constructor.
  - destruct (reaches_left _ _ Hba) as [->|[_ Hn]].
    + left. constructor; [constructor|done].
    + by right.
Qed.

(** An object that contains [c] is met by the iteration from any position
    at or below [c]. *)
Lemma container_reached s a c :
  position s -> position a -> heap0 a <> 0 -> inside c a ->
  c < end_nursery -> s <= c -> reaches s a.
Proof.
  intros Hs Ha Hnz [Hlo Hhi] Hc Hsc.
  destruct (positions_ordered s a Hs Ha) as [|Has]; [done|].
  destruct (reaches_left _ _ Has) as [->|[Hlt Hn]]; [constructor|].
  assert (Hpn : position (next a)) by (by apply reaches_next).
  destruct (reaches_le _ _ Hpn Hn) as [Hle _].
  unfold next_position in Hle.
  destruct (Z.eqb_spec (heap0 a) 0); [done|lia].
Qed.

Lemma container_unique a b c :
  position a -> position b -> heap0 a <> 0 -> heap0 b <> 0 ->
  inside c a -> inside c b -> c < end_nursery -> a = b.
Proof.
  intros Ha Hb Hna Hnb Hia Hib Hc.
  pose proof (container_reached a b c Ha Hb Hnb Hib Hc ltac:(apply Hia)) as H1.
  pose proof (container_reached b a c Hb Ha Hna Hia Hc ltac:(apply Hib)) as H2.
  apply reaches_le in H1 as [H1 _]; [|done].
  apply reaches_le in H2 as [H2 _]; [|done]. lia.
Qed.

(** A candidate inside the unaligned extent [[a, a + size)] of an object
    is inside the aligned extent that the code compares with. *)
Lemma raw_extent_inside addr a :
  position a -> heap0 a <> 0 -> addr < end_nursery ->
  a <= addr < a + to_guint (safe_object_get_size a) -> inside addr a.
Proof.
  intros Hpos Hnz Hlt H. unfold Pinning.inside.
  pose proof (wf_sizes _ _ _ _ _ _ _ _ _ Hwf a Hpos ltac:(lia) Hnz) as Hsz.
  pose proof (aligned_size_lower ALLOC_ALIGN_BITS safe_object_get_size a Hsz).
  lia.
Qed.

(** *** The walk *)

Lemma walk_same_nulls (h h' : Z -> Z) addr :
  (forall a, (h a =? 0) = (h' a =? 0)) ->
  forall fuel s lo sz, walk fuel h addr s lo sz = walk fuel h' addr s lo sz.
Proof.
  intros Hnull. induction fuel as [|fuel IH]; simpl; [done|].
  intros s lo sz. rewrite Hnull. by rewrite !IH.
Qed.

(** From a position at or below the candidate the walk ends, and it
    reports the object that contains the candidate when there is one. *)
Lemma walk_correct addr :
  addr < end_nursery ->
  forall fuel s lo sz,
  position s -> s <= addr -> (Z.to_nat (addr - s) < fuel)%nat ->
  exists found lo' sz',
    walk fuel heap0 addr s lo sz = Ret (found, lo', sz')
    /\ if found then object_at lo' /\ inside addr lo' /\ sz' = asize lo'
       else (forall a, object_at a -> ~ inside addr a)
            /\ ((lo' = lo /\ sz' = sz)
                \/ (position lo' /\ heap0 lo' <> 0 /\ sz' = asize lo'
                    /\ lo' <= addr
                    /\ (synchronisation lo' = FRAGMENT_MARK
                        \/ lo' + sz' <= addr))).
Proof.
  intros Haddr. induction fuel as [|fuel IH]; intros s lo sz Hs Hle Hfuel;
    [lia|].
  assert (Hlt : s < end_nursery) by lia.
  pose proof (next_advances s Hs Hlt) as Hadv.
  assert (Hpn : position (next s)) by (by apply reaches_next).
  assert (Hnone : addr < next s ->
                  forall a, object_at a -> inside addr a -> a = s).
  { intros Hpast a (Hpa & Hnz & _) Hin.
    pose proof (container_reached s a addr Hs Hpa Hnz Hin Haddr Hle) as Hr.
    destruct (reaches_left _ _ Hr) as [|[_ Hn]]; [done|].
    apply reaches_le in Hn as [Hn _]; [|done].
    destruct Hin. lia. }
  simpl. unfold next_position in *.
  destruct (Z.eqb_spec (heap0 s) 0) as [Hz|Hnz].
  - destruct (Z.leb_spec (align_up (s + Z.pos sizeof_gpointer)) addr)
      as [Hin|Hout].
    + apply IH; [done|done|lia].
    + exists false, lo, sz. split; [done|]. split; [|by left].
      intros a Ha Hi. pose proof (Hnone Hout a Ha Hi) as ->.
      by destruct Ha as (_ & Hnz & _).
  - destruct (negb (synchronisation s =? FRAGMENT_MARK)
              && (addr >=? s) && (addr <? s + asize s)) eqn:E.
    + exists true, s, (asize s). split; [done|].
      apply andb_prop in E as [E E3]. apply andb_prop in E as [E1 E2].
      apply negb_true_iff, Z.eqb_neq in E1.
      split; [by repeat split|]. split; [|done]. unfold Pinning.inside. lia.
    + assert (Hm : synchronisation s = FRAGMENT_MARK \/ s + asize s <= addr).
      { apply andb_false_iff in E as [E|E];
          [apply andb_false_iff in E as [E|E]|].
        - apply negb_false_iff, Z.eqb_eq in E. by left.
        - lia.
        - right. lia. }
      destruct (Z.leb_spec (s + asize s) addr) as [Hin|Hout].
      * destruct (IH (s + asize s) s (asize s) Hpn Hin ltac:(lia))
          as (found & lo' & sz' & Hw & Hres).
        exists found, lo', sz'. split; [done|].
        destruct found; [done|]. destruct Hres as [Hno Hlo].
        split; [done|]. right.
        destruct Hlo as [[-> ->]|Hlo]; [|done].
        repeat split; try done; by right.
      * exists false, s, (asize s). split; [done|]. split.
        -- intros a Ha Hi. pose proof (Hnone Hout a Ha Hi) as ->.
           destruct Ha as (_ & _ & Hsync). destruct Hi.
           destruct Hm; [done|lia].
        -- right. repeat split; try done.
Qed.

(** *** The search start *)

Lemma usable_test addr s :
  (s =? 0) || (s >? addr) = false <-> usable addr s.
Proof.
  unfold usable. rewrite orb_false_iff, Z.eqb_neq, Z.gtb_ltb, Z.ltb_ge. tauto.
Qed.

Lemma scan_back_spec starts addr :
  forall idx s0, ~ usable addr s0 ->
  let r := scan_back starts addr idx s0 in
  (exists j, (j < idx)%nat /\ r = nth j starts 0 /\ usable addr r
             /\ forall k, (j < k < idx)%nat -> ~ usable addr (nth k starts 0))
  \/ (~ usable addr r
      /\ forall k, (k < idx)%nat -> ~ usable addr (nth k starts 0)).
Proof.
  induction idx as [|idx IH]; intros s0 Hs0; simpl.
  - right. split; [done|]. intros k Hk. lia.
  - destruct (negb (nth idx starts 0 =? 0) && (nth idx starts 0 <=? addr))
      eqn:E.
    + left. exists idx. split; [lia|]. split; [done|]. split.
      * apply andb_prop in E as [E1 E2].
        apply negb_true_iff, Z.eqb_neq in E1. split; [done|lia].
      * intros k Hk. lia.
    + assert (Hn : ~ usable addr (nth idx starts 0)).
      { intros [H1 H2]. apply andb_false_iff in E as [E|E].
        - apply negb_false_iff, Z.eqb_eq in E. done.
        - lia. }
      destruct (IH (nth idx starts 0) Hn) as [(j & Hj & Hr & Hu & Hk)|[Hu Hk]].
      * left. exists j. split; [lia|]. split; [done|]. split; [done|].
        intros k Hjk. destruct (decide (k = idx)) as [->|]; [done|].
        apply Hk. lia.
      * right. split; [done|]. intros k Hk'.
        destruct (decide (k = idx)) as [->|]; [done|]. apply Hk. lia.
Qed.

(** The search start is the nearest usable scan start at or before the
    index of the candidate's chunk, and the start of the nursery when
    there is none. *)
Lemma find_search_start_spec addr (idx : nat) :
  let ss := find_search_start section addr start_nursery idx in
  (exists j, (j <= idx)%nat /\ ss = nth j (scan_starts section) 0
             /\ usable addr ss
             /\ forall k, (j < k <= idx)%nat ->
                  ~ usable addr (nth k (scan_starts section) 0))
  \/ (ss = start_nursery
      /\ forall k, (k <= idx)%nat ->
           ~ usable addr (nth k (scan_starts section) 0)).
Proof.
  unfold find_search_start.
  destruct ((nth idx (scan_starts section) 0 =? 0)
            || (nth idx (scan_starts section) 0 >? addr)) eqn:E.
  - assert (Hn : ~ usable addr (nth idx (scan_starts section) 0)).
    { intros H. apply usable_test in H. congruence. }
    destruct (scan_back_spec (scan_starts section) addr idx _ Hn)
      as [(j & Hj & Hr & Hu & Hk)|[Hu Hk]];
      set (r := scan_back (scan_starts section) addr idx
                  (nth idx (scan_starts section) 0)) in *.
    + apply usable_test in Hu as Hu'. rewrite Hu'. left.
      exists j. split; [lia|]. split; [done|]. split; [done|].
      intros k Hjk. destruct (decide (k = idx)) as [->|]; [done|].
      apply Hk. lia.
    + destruct ((r =? 0) || (r >? addr)) eqn:E2.
      * right. split; [done|]. intros k Hk'.
        destruct (decide (k = idx)) as [->|]; [done|]. apply Hk. lia.
      * apply usable_test in E2. done.
  - left. exists idx. split; [lia|]. split; [done|].
    split; [by apply usable_test|]. intros k Hk. lia.
Qed.

Lemma search_start_position addr (idx : nat) :
  (idx < length (scan_starts section))%nat ->
  start_nursery <= addr ->
  let ss := find_search_start section addr start_nursery idx in
  position ss /\ ss <= addr.
Proof.
  intros Hidx Haddr.
  destruct (find_search_start_spec addr idx)
    as [(j & Hj & Hr & [Hnz Hle] & _)|[-> _]].
  - split; [|done]. apply (wf_scan_starts _ _ _ _ _ _ _ _ _ Hwf); [|done].
    rewrite Hr. apply nth_In. lia.
  - split; [constructor|done].
Qed.

(** The index of the chunk of a candidate is inside the table. *)
Lemma chunk_index addr :
  start_nursery <= addr < end_nursery ->
  let idx := to_int (Z.quot (addr - data section) (Z.pos SCAN_START_SIZE)) in
  0 <= idx < Z.of_nat (length (scan_starts section)).
Proof.
  intros Haddr.
  pose proof (wf_data _ _ _ _ _ _ _ _ _ Hwf) as Hdata.
  pose proof (wf_table _ _ _ _ _ _ _ _ _ Hwf) as Htable.
  pose proof (wf_table_int _ _ _ _ _ _ _ _ _ Hwf) as Hint.
  rewrite Z.quot_div_nonneg by lia.
  assert (Hq : 0 <= (addr - data section) / Z.pos SCAN_START_SIZE
               < Z.of_nat (length (scan_starts section))).
  { split; [apply Z.div_pos; lia|].
    apply Z.div_lt_upper_bound; lia. }
  simpl. unfold to_int. rewrite Z.mod_small by lia. lia.
Qed.

(** A candidate that is neither a repetition nor inside the last object
    starts a walk. *)
Lemma pin_candidate_walks fuel i st addr :
  array st !! i = Some addr ->
  addr <> last st ->
  start_nursery <= addr < end_nursery ->
  ~ (last_obj st <= addr < last_obj st + last_obj_size st) ->
  exists idx : nat,
    (idx < length (scan_starts section))%nat
    /\ pin_candidate fuel section start_nursery end_nursery i st
       = match walk fuel (heap st) addr
                 (if find_search_start section addr start_nursery idx
                     <? last_obj st
                  then last_obj st + last_obj_size st
                  else find_search_start section addr start_nursery idx)
                 (last_obj st) (last_obj_size st) with
         | Abort f => Abort f
         | Ret (true, obj, size) => Ret (pin_found addr obj size st)
         | Ret (false, obj, size) => Ret (pin_missed addr obj size st)
         end.
Proof.
  intros Ha Hlast Hrange Hout.
  pose proof (chunk_index addr Hrange) as Hidx. simpl in Hidx.
  exists (Z.to_nat (to_int (Z.quot (addr - data section)
                              (Z.pos SCAN_START_SIZE)))).
  split; [lia|].
  unfold Pinning.pin_candidate. rewrite Ha.
  apply Z.eqb_neq in Hlast. rewrite Hlast.
  destruct (Z.geb_spec addr start_nursery); [|lia].
  destruct (Z.ltb_spec addr end_nursery); [|lia]. simpl.
  assert (Hskip : (addr >=? last_obj st)
                  && (addr <? last_obj st + last_obj_size st) = false).
  { apply andb_false_iff.
    destruct (Z.geb_spec addr (last_obj st)); [|by left].
    destruct (Z.ltb_spec addr (last_obj st + last_obj_size st)); [lia|].
    by right. }
  rewrite Hskip.
  destruct (Z.ltb_spec (to_int (Z.quot (addr - data section)
                                  (Z.pos SCAN_START_SIZE)))
              (Z.of_nat (length (scan_starts section)))); [|lia].
  simpl.
  destruct (Z.ltb_spec (to_int (Z.quot (addr - data section)
                                  (Z.pos SCAN_START_SIZE))) 0); [lia|].
  reflexivity.
Qed.

(** *** The loop *)

(** The part of the loop invariant that relies on the layout: [i]
    candidates have been resolved. *)
Record resolved (i : nat) (st : PinState) : Prop := mkResolved {
  rs_suffix : forall j, (i <= j)%nat -> array st !! j = candidates !! j;
  rs_pinned : forall a, a ∈ definitely_pinned st ->
    object_at a /\ exists c, c ∈ take i candidates /\ inside c a;
  rs_covered : forall c a, c ∈ take i candidates ->
    object_at a -> inside c a -> a ∈ definitely_pinned st;
  rs_last : last st = 0 \/ last st ∈ take i candidates;
  rs_last_obj :
    (last_obj st = 0 /\ last_obj_size st = 0)
    \/ (position (last_obj st) /\ heap0 (last_obj st) <> 0
        /\ last_obj_size st = asize (last_obj st)
        /\ (forall c, c ∈ drop i candidates -> last_obj st <= c)
        /\ (synchronisation (last_obj st) = FRAGMENT_MARK
            \/ last_obj st ∈ definitely_pinned st
            \/ forall c, c ∈ drop i candidates ->
                 last_obj st + last_obj_size st <= c))
}.

Lemma resolved_initial queue :
  resolved 0 (initial_state candidates heap0 queue).
Proof.
  split; simpl; try done.
  - intros a Ha. by apply elem_of_nil in Ha.
  - intros c a Hc. by apply elem_of_nil in Hc.
  - by left.
  - by left.
Qed.

Lemma candidate_range addr : addr ∈ candidates ->
  start_nursery <= addr < end_nursery.
Proof.
  intros H. apply (wf_range _ _ _ _ _ _ _ _ _ Hwf). by apply list_elem_of_In.
Qed.

Lemma later_candidates i addr :
  candidates !! i = Some addr ->
  forall c, c ∈ drop (S i) candidates -> addr <= c.
Proof.
  intros Hi c Hc.
  pose proof (wf_sorted _ _ _ _ _ _ _ _ _ Hwf) as Hs.
  rewrite <- (take_drop_middle _ _ _ Hi) in Hs.
  apply sorted_later in Hs. rewrite Forall_forall in Hs. by apply Hs.
Qed.

Lemma take_next i addr :
  candidates !! i = Some addr ->
  forall c, c ∈ take (S i) candidates <-> c ∈ take i candidates \/ c = addr.
Proof.
  intros Hi c. erewrite take_S_r by done.
  rewrite elem_of_app, list_elem_of_singleton. tauto.
Qed.

Lemma drop_next i addr :
  candidates !! i = Some addr ->
  forall c, c ∈ drop i candidates <-> c = addr \/ c ∈ drop (S i) candidates.
Proof.
  intros Hi c. rewrite (drop_S _ _ _ Hi). apply elem_of_cons.
Qed.

(** The state is left alone when every object that contains the
    candidate is already pinned. *)
Lemma resolved_skip i st addr :
  resolved i st ->
  candidates !! i = Some addr ->
  (forall a, object_at a -> inside addr a -> a ∈ definitely_pinned st) ->
  resolved (S i) st.
Proof.
  intros [Hsuf Hpin Hcov Hlast Hlo] Hi Hnew. split.
  - intros j Hj. apply Hsuf. lia.
  - intros a Ha. destruct (Hpin a Ha) as (Hobj & c & Hc & Hin).
    split; [done|]. exists c. split; [|done]. apply (take_next i addr Hi).
    by left.
  - intros c a Hc Hobj Hin. apply (take_next i addr Hi) in Hc as [Hc| ->].
    + by apply (Hcov c).
    + by apply Hnew.
  - destruct Hlast as [|Hl]; [by left|]. right.
    apply (take_next i addr Hi). by left.
  - destruct Hlo as [|(H1 & H2 & H3 & H4 & H5)]; [by left|]. right.
    repeat split; try done.
    + intros c Hc. apply H4, (drop_next i addr Hi). by right.
    + destruct H5 as [|[|H5]]; [by left|by right; left|].
      right; right. intros c Hc. apply H5, (drop_next i addr Hi). by right.
Qed.

(** The header words change by pin tags only: a word is null after as
    before. *)
Lemma same_nulls queue n i st :
  progress queue n i st -> resolved i st ->
  forall a, (heap st a =? 0) = (heap0 a =? 0).
Proof.
  intros Hpr Hrs a. rewrite (pr_heap _ _ _ _ _ _ _ Hpr).
  destruct (decide (a ∈ definitely_pinned st)) as [Hin|]; [|done].
  destruct (rs_pinned _ _ Hrs a Hin) as ((_ & Hnz & _) & _).
  pose proof (pin_tag_not_null (heap0 a)).
  destruct (Z.eqb_spec (Z.lor (heap0 a) SGEN_PINNED_BIT) 0); [done|].
  by destruct (Z.eqb_spec (heap0 a) 0).
Qed.

Lemma resolve_step queue fuel i st addr :
  (Z.to_nat (end_nursery - start_nursery) < fuel)%nat ->
  candidates !! i = Some addr ->
  progress queue (length candidates) i st ->
  resolved i st ->
  exists st',
    pin_candidate fuel section start_nursery end_nursery i st = Ret st'
    /\ resolved (S i) st'.
Proof.
  intros Hfuel Hi Hpr Hrs.
  assert (Ha : array st !! i = Some addr)
    by (by rewrite (rs_suffix _ _ Hrs)).
  assert (Hrange : start_nursery <= addr < end_nursery)
    by (eapply candidate_range, list_elem_of_lookup_2, Hi).
  pose proof (wf_start _ _ _ _ _ _ _ _ _ Hwf) as Hpos.
  pose proof (later_candidates i addr Hi) as Hlater.
  (* a repeated candidate *)
  destruct (decide (addr = last st)) as [Hrep|Hnew].
  { exists st. split; [apply skipped_candidate with (addr := addr); auto|].
    apply (resolved_skip i st addr Hrs Hi).
    destruct (rs_last _ _ Hrs) as [H0|Hl]; [lia|].
    intros a Hobj Hin. apply (rs_covered _ _ Hrs addr); [by rewrite Hrep|done..]. }
  (* a candidate inside the last object *)
  destruct (decide (last_obj st <= addr < last_obj st + last_obj_size st))
    as [Hin|Hout].
  { exists st. split; [apply skipped_candidate with (addr := addr); auto|].
    apply (resolved_skip i st addr Hrs Hi).
    destruct (rs_last_obj _ _ Hrs) as [[H1 H2]|(H1 & H2 & H3 & H4 & H5)];
      [lia|].
    intros a (Hpa & Hnz & Hsync) Hia.
    assert (a = last_obj st) as ->.
    { apply (container_unique _ _ addr); try done; [|lia].
      unfold Pinning.inside. rewrite <- H3. lia. }
    destruct H5 as [H5|[H5|H5]]; [done|done|].
    specialize (H5 addr ltac:(apply (drop_next i addr Hi); by left)). lia. }
  (* a walk *)
  destruct (pin_candidate_walks fuel i st addr Ha Hnew Hrange Hout)
    as (idx & Hidx & ->).
  destruct (search_start_position addr idx Hidx ltac:(lia)) as [Hsp Hsle].
  set (fss := find_search_start section addr start_nursery idx) in *.
  set (ss := if fss <? last_obj st
             then last_obj st + last_obj_size st else fss).
  assert (Hss : position ss /\ ss <= addr).
  { subst ss. destruct (Z.ltb_spec fss (last_obj st)) as [Hlt|]; [|done].
    destruct (reaches_le _ _ ltac:(constructor) Hsp) as [Hge _].
    destruct (rs_last_obj _ _ Hrs) as [[H1 H2]|(H1 & H2 & H3 & H4 & H5)];
      [lia|].
    specialize (H4 addr ltac:(apply (drop_next i addr Hi); by left)).
    split; [|lia]. rewrite H3.
    replace (last_obj st + asize (last_obj st)) with (next (last_obj st)).
    - apply reaches_next; [done|lia].
    - unfold next_position. by destruct (Z.eqb_spec (heap0 (last_obj st)) 0). }
  destruct Hss as [Hssp Hssle].
  rewrite (walk_same_nulls _ heap0 addr (same_nulls queue _ i st Hpr Hrs)).
  destruct (reaches_le _ _ ltac:(constructor) Hssp) as [Hssge _].
  destruct (walk_correct addr ltac:(lia) fuel ss (last_obj st)
              (last_obj_size st) Hssp Hssle ltac:(lia))
    as (found & lo' & sz' & -> & Hres).
  destruct Hrs as [Hsuf Hpin Hcov Hlast Hlo].
  assert (Hcount : (count st < length (array st))%nat).
  { rewrite (pr_length _ _ _ _ _ _ _ Hpr).
    pose proof (pr_count _ _ _ _ _ _ _ Hpr).
    apply lookup_lt_Some in Hi. lia. }
  destruct found.
  - (* the object that contains the candidate is pinned *)
    destruct Hres as (Hobj & Hinside & ->).
    eexists. split; [reflexivity|].
    assert (Hext : definitely_pinned (pin_found addr lo' (asize lo') st)
                   = definitely_pinned st ++ [lo']).
    { unfold definitely_pinned at 1. simpl.
      by apply definitely_pinned_extend. }
    split.
    + intros j Hj. simpl. rewrite list_lookup_insert_ne.
      * apply Hsuf. lia.
      * pose proof (pr_count _ _ _ _ _ _ _ Hpr). lia.
    + intros a. rewrite Hext, elem_of_app, list_elem_of_singleton.
      intros [Ha'| ->].
      * destruct (Hpin a Ha') as (Hobja & c & Hc & Hic).
        split; [done|]. exists c. split; [|done].
        apply (take_next i addr Hi). by left.
      * split; [done|]. exists addr. split; [|done].
        apply (take_next i addr Hi). by right.
    + intros c a Hc Hobja Hic. rewrite Hext, elem_of_app.
      apply (take_next i addr Hi) in Hc as [Hc| ->].
      * left. by apply (Hcov c).
      * right. apply list_elem_of_singleton.
        destruct Hobja as (Hpa & Hnza & _). destruct Hobj as (Hpl & Hnzl & _).
        apply (container_unique _ _ addr); try done. lia.
    + right. simpl. apply (take_next i addr Hi). by right.
    + right. simpl. destruct Hobj as (Hpl & Hnzl & _).
      repeat split; try done.
      * intros c Hc. specialize (Hlater c Hc). destruct Hinside. lia.
      * right; left. rewrite Hext, elem_of_app. right.
        by apply list_elem_of_singleton.
  - (* the walk has passed the candidate *)
    destruct Hres as [Hnone Hlo'].
    eexists. split; [reflexivity|].
    split; simpl.
    + intros j Hj. apply Hsuf. lia.
    + intros a Ha'. destruct (Hpin a Ha') as (Hobja & c & Hc & Hic).
      split; [done|]. exists c. split; [|done].
      apply (take_next i addr Hi). by left.
    + intros c a Hc Hobja Hic.
      apply (take_next i addr Hi) in Hc as [Hc| ->].
      * by apply (Hcov c).
      * by destruct (Hnone a Hobja).
    + right. apply (take_next i addr Hi). by right.
    + destruct Hlo' as [[-> ->]|(H1 & H2 & H3 & H4 & H5)].
      * destruct Hlo as [|(H1 & H2 & H3 & H4 & H5)]; [by left|]. right.
        repeat split; try done.
        -- intros c Hc. apply H4, (drop_next i addr Hi). by right.
        -- destruct H5 as [|[|H5]]; [by left|by right; left|].
           right; right. intros c Hc.
           apply H5, (drop_next i addr Hi). by right.
      * right. repeat split; try done.
        -- intros c Hc. specialize (Hlater c Hc). lia.
        -- destruct H5 as [|H5]; [by left|]. right; right.
           intros c Hc. specialize (Hlater c Hc). lia.
Qed.

Lemma resolve_loop queue fuel :
  (Z.to_nat (end_nursery - start_nursery) < fuel)%nat ->
  forall remaining i st,
  (i + remaining = length candidates)%nat ->
  progress queue (length candidates) i st ->
  resolved i st ->
  exists st',
    pin_loop fuel section start_nursery end_nursery remaining i st = Ret st'
    /\ progress queue (length candidates) (length candidates) st'
    /\ resolved (length candidates) st'.
Proof.
  intros Hfuel. induction remaining as [|remaining IH]; intros i st Hn Hpr Hrs.
  - assert (i = length candidates) as -> by lia. by exists st.
  - destruct (lookup_lt_is_Some_2 candidates i ltac:(lia)) as [addr Hi].
    destruct (resolve_step queue fuel i st addr Hfuel Hi Hpr Hrs)
      as (st1 & Hstep & Hrs1).
    simpl. rewrite Hstep.
    apply progress_step with (heap0 := heap0) (queue := queue)
                             (n := length candidates) in Hstep
      as [Hpr1 _]; [|lia|done].
    apply IH; [lia|done..].
Qed.

(** C2.  For a section that can be iterated (the size of each object
    and placeholder is positive once rounded up in 32 bits, as the code
    rounds it), whose non-null scan starts are headers met by the
    iteration, and a sorted array of candidates inside its range: the
    search for a candidate starts at the nearest
    non-null scan start that is not past the candidate, at or before the
    entry of the candidate's chunk, and at the start of the nursery when
    there is none; [pin_objects_from_addresses] returns; every object
    whose extent contains a candidate (the aligned extent the code
    compares with, hence also [[start, start + size)]) has its pin tag
    set, is in the gray queue and is in the prefix of the array that was
    overwritten; and
    every address in that prefix is an object that contains a candidate,
    so that a candidate in zeroed memory or in a fragment placeholder pins
    nothing.  The other header words are unchanged and the gray queue
    grows by the prefix. *)
Theorem candidates_resolved (queue : list Z) (fuel : nat) :
  (Z.to_nat (end_nursery - start_nursery) < fuel)%nat ->
  (forall addr (idx : nat),
     let ss := find_search_start section addr start_nursery idx in
     (exists j, (j <= idx)%nat /\ ss = nth j (scan_starts section) 0
                /\ usable addr ss
                /\ forall k, (j < k <= idx)%nat ->
                     ~ usable addr (nth k (scan_starts section) 0))
     \/ (ss = start_nursery
         /\ forall k, (k <= idx)%nat ->
              ~ usable addr (nth k (scan_starts section) 0)))
  /\ exists st,
       pin_objects_from_addresses fuel section candidates start_nursery
         end_nursery heap0 queue = Ret st
       /\ (forall addr a,
             addr ∈ candidates -> object_at a -> inside addr a ->
             object_is_pinned (heap st) a = true
             /\ a ∈ gray_queue st
             /\ a ∈ definitely_pinned st)
       /\ (forall addr a,
             addr ∈ candidates -> object_at a ->
             a <= addr < a + to_guint (safe_object_get_size a) ->
             a ∈ definitely_pinned st)
       /\ (forall a, a ∈ definitely_pinned st ->
             object_at a /\ exists addr, addr ∈ candidates /\ inside addr a)
       /\ gray_queue st = queue ++ definitely_pinned st
       /\ (forall a, a ∉ definitely_pinned st -> heap st a = heap0 a).
Proof.
  intros Hfuel. split; [apply find_search_start_spec|].
  destruct (resolve_loop queue fuel Hfuel (length candidates) 0
              (initial_state candidates heap0 queue) ltac:(lia)
              (progress_initial _ _ _ _ _) (resolved_initial queue))
    as (st & Hrun & Hpr & Hrs).
  exists st. split; [exact Hrun|].
  destruct Hpr as [_ _ _ _ _ _ Hqueue Hheap].
  destruct Hrs as [_ Hpin Hcov _ _].
  rewrite take_ge in Hpin, Hcov by lia.
  split; [|split; [|split; [|split]]].
  - intros addr a Haddr Hobj Hin.
    pose proof (Hcov addr a Haddr Hobj Hin) as Hdp.
    split; [|split; [|done]].
    + unfold object_is_pinned. rewrite Hheap, decide_True by done.
      apply pin_tag_set.
    + rewrite Hqueue. apply elem_of_app. by right.
  - intros addr a Haddr Hobj Hraw.
    apply (Hcov addr a Haddr Hobj).
    destruct Hobj as (Hpos & Hnz & _).
    apply raw_extent_inside; [exact Hpos|exact Hnz| |exact Hraw].
    apply (wf_range _ _ _ _ _ _ _ _ _ Hwf). by apply list_elem_of_In.
  - exact Hpin.
  - exact Hqueue.
  - intros a Ha. by rewrite Hheap, decide_False.
Qed.

End Layout.

Lemma reaches_step bits word size heap0 end_nursery s a b :
  reaches bits word size heap0 end_nursery s a ->
  a < end_nursery ->
  next_position bits word size heap0 a = b ->
  reaches bits word size heap0 end_nursery s b.
Proof. intros H Hlt <-. by constructor. Qed.

Lemma demo_well_formed :
  well_formed 3 8 64 demo_size demo_section demo_candidates 4096 4224
    demo_heap.
Proof.
  split.
  - lia.
  - simpl; lia.
  - simpl; lia.
  - simpl; lia.
  - intros a _ _ H. unfold demo_heap in H.
    destruct (Z.eqb_spec a 4096) as [E|_]; [by rewrite E|].
    destruct (Z.eqb_spec a 4136) as [E|_]; [by rewrite E|].
    destruct (Z.eqb_spec a 4176) as [E|_]; [by rewrite E|]. done.
  - intros s [<-|[<-|[]]] _.
    + constructor.
    + apply (reaches_step _ _ _ _ _ _ 4136); [|lia|reflexivity].
      apply (reaches_step _ _ _ _ _ _ 4128); [|lia|reflexivity].
      apply (reaches_step _ _ _ _ _ _ 4120); [|lia|reflexivity].
      apply (reaches_step _ _ _ _ _ _ 4096); [|lia|reflexivity].
      constructor.
  - unfold demo_candidates. repeat constructor; lia.
  - unfold demo_candidates. simpl. intros addr H.
    repeat (destruct H as [<-|H]; [lia|]). done.
Qed.

Lemma candidates_resolved_witness :
  exists st,
    demo_pin 200 = Ret st
    /\ object_is_pinned (heap st) 4176 = true
    /\ 4176 ∈ gray_queue st
    /\ 4176 ∈ definitely_pinned st
    /\ forall a, a ∈ definitely_pinned st ->
         exists addr, addr ∈ demo_candidates /\ a <= addr.
Proof.
  destruct (candidates_resolved 3 8 64 demo_size demo_synchronisation
              demo_section demo_candidates 4096 4224 demo_heap
              demo_well_formed [] 200 ltac:(vm_compute; lia))
    as (_ & st & Hrun & Hall & _ & Honly & _).
  exists st. split; [exact Hrun|].
  assert (Hobj : object_at 3 8 demo_size demo_synchronisation demo_heap
                   4096 4224 4176).
  { split; [|split; [discriminate|discriminate]].
    apply (wf_scan_starts _ _ _ _ _ _ _ _ _ demo_well_formed);
      [right; left; reflexivity | discriminate]. }
  destruct (Hall 4184 4176) as (H1 & H2 & H3).
  - apply (list_elem_of_lookup_2 _ 6%nat). reflexivity.
  - exact Hobj.
  - unfold inside. change (aligned_size 3 demo_size 4176) with 24. lia.
  - split; [exact H1|]. split; [exact H2|]. split; [exact H3|].
    intros a Ha. destruct (Honly a Ha) as (_ & addr & Haddr & Hin & _).
    exists addr. split; [exact Haddr|exact Hin].
Defined.

End PinningLayoutFacts.

(** ** Machine words, bit by bit *)

Module WordFacts.

Lemma to_int_small z : - 2 ^ 31 <= z < 2 ^ 31 -> to_int z = z.
Proof. intros H. unfold to_int. rewrite Z.mod_small; lia. Qed.

Lemma to_int_mod8 z : to_int z mod 8 = z mod 8.
Proof.
  unfold to_int. rewrite (Z.mod_eq (z + 2 ^ 31) (2 ^ 32)) by lia.
  replace (z + 2 ^ 31 - 2 ^ 32 * ((z + 2 ^ 31) / 2 ^ 32) - 2 ^ 31)
    with (z + (- (2 ^ 29 * ((z + 2 ^ 31) / 2 ^ 32))) * 8) by lia.
  apply Z.mod_add. lia.
Qed.

Lemma to_mword_add_r a b : to_mword (a + to_mword b) = to_mword (a + b).
Proof. unfold to_mword. apply Zplus_mod_idemp_r. Qed.

Lemma to_mword_testbit x n :
  Z.testbit (to_mword x) n = (n <? 64) && Z.testbit x n.
Proof. unfold to_mword, mword_modulus, mword_bits. by apply Z.testbit_mod_pow2. Qed.

Lemma mword_high_bits x n : is_mword x -> 64 <= n -> Z.testbit x n = false.
Proof.
  intros Hx Hn. rewrite <- (to_mword_small x Hx), to_mword_testbit.
  destruct (Z.ltb_spec n 64); [lia|done].
Qed.

Lemma small_high_bits k x n :
  0 <= k -> 0 <= x < 2 ^ k -> k <= n -> Z.testbit x n = false.
Proof.
  intros Hk Hx Hn. rewrite <- (Z.mod_small x (2 ^ k)) by done.
  apply Z.mod_pow2_bits_high. lia.
Qed.

Lemma multiple_low_bits k x n :
  0 <= k -> x mod 2 ^ k = 0 -> 0 <= n < k -> Z.testbit x n = false.
Proof.
  intros Hk Hx Hn.
  rewrite (Z.div_mod x (2 ^ k)) by (apply Z.pow_nonzero; lia).
  rewrite Hx, Z.add_0_r, Z.mul_comm. apply Z.mul_pow2_bits_low. lia.
Qed.

(** Clearing the low [k] bits of a word. *)
Lemma clear_low_bits k x :
  0 <= k -> Z.land x (Z.lnot (2 ^ k - 1)) = x - x mod 2 ^ k.
Proof.
  intros Hk.
  replace (2 ^ k - 1) with (Z.ones k) by (rewrite Z.ones_equiv; lia).
  rewrite <- Z.ldiff_land, Z.ldiff_ones_r by done.
  rewrite Z.shiftl_mul_pow2, Z.shiftr_div_pow2 by done.
  pose proof (Z.div_mod x (2 ^ k) ltac:(apply Z.pow_nonzero; lia)). lia.
Qed.

End WordFacts.

(** ** Heap space accounting, pointer alignment and hidden pointers *)

Module HeapSpaceFacts.

Import Collector HeapSpace WordFacts.

Section Space.

Context {World : Type}.

Lemma set_allocated_heap_same (s : GCState World) :
  set_allocated_heap (allocated_heap s) s = s.
Proof. by destruct s. Qed.

Lemma set_allocated_heap_twice v v' (s : GCState World) :
  set_allocated_heap v (set_allocated_heap v' s) = set_allocated_heap v s.
Proof. by destruct s. Qed.

(** While the heap in use is within the limit, a reservation succeeds
    exactly when it fits under [max_heap_size]; when it succeeds
    [allocated_heap] grows by the size, without wrapping, and stays within
    the limit; when it fails nothing changes. *)
Theorem try_alloc_space_within_limit (size space : Z) (s : GCState World) :
  is_mword (allocated_heap s) ->
  is_mword (max_heap_size s) ->
  0 <= size ->
  allocated_heap s <= max_heap_size s ->
  (fst (mono_sgen_try_alloc_space size space s) = true
   <-> allocated_heap s + size <= max_heap_size s)
  /\ (fst (mono_sgen_try_alloc_space size space s) = true ->
      allocated_heap (snd (mono_sgen_try_alloc_space size space s))
      = allocated_heap s + size
      /\ allocated_heap (snd (mono_sgen_try_alloc_space size space s))
         <= max_heap_size (snd (mono_sgen_try_alloc_space size space s)))
  /\ (fst (mono_sgen_try_alloc_space size space s) = false ->
      snd (mono_sgen_try_alloc_space size space s) = s).
Proof.
  intros Ha Hm Hsize Hle. unfold mono_sgen_try_alloc_space.
  assert (Hfree : available_free_space s = max_heap_size s - allocated_heap s).
  { unfold available_free_space. rewrite MIN_spec, Z.min_l by lia.
    apply to_mword_small. unfold is_mword in *. lia. }
  rewrite Hfree.
  destruct (Z.ltb_spec (max_heap_size s - allocated_heap s) size); simpl.
  - split; [split; [discriminate|lia]|]. split; [discriminate|done].
  - split; [split; [lia|done]|]. split; [|discriminate].
    intros _. rewrite to_mword_small by (unfold is_mword in *; lia). lia.
Qed.

(** Releasing what a successful reservation took gives the state back. *)
Theorem try_alloc_then_release (size space space' : Z) (s s' : GCState World) :
  is_mword (allocated_heap s) ->
  mono_sgen_try_alloc_space size space s = (true, s') ->
  mono_sgen_release_space size space' s' = s.
Proof.
  intros Ha. unfold mono_sgen_try_alloc_space, mono_sgen_release_space.
  destruct (available_free_space s <? size); [discriminate|].
  intros [= <-]. rewrite set_allocated_heap_twice. simpl.
  rewrite to_mword_sub_l.
  replace (allocated_heap s + size - size) with (allocated_heap s) by lia.
  rewrite to_mword_small by done. apply set_allocated_heap_same.
Qed.

End Space.

Definition demo_gc (allocated : Z) : GCState unit :=
  {| disable_minor_collections := false;
     current_collection_generation := -1;
     degraded_mode := 0;
     objects_pinned := 0;
     bytes_pinned_from_failed_allocation := 0;
     max_heap_size := 1048576;
     soft_heap_limit := 0;
     allocated_heap := allocated;
     minor_collection_allowance := 0;
     minor_collection_sections_alloced := 0;
     need_calculate_minor_collection_allowance := false;
     last_collection_old_num_major_sections := 0;
     last_collection_los_memory_usage := 0;
     last_collection_old_los_memory_usage := 0;
     last_collection_los_memory_alloced := 0;
     los_memory_usage := 0;
     world := tt |}.

Lemma try_alloc_space_within_limit_witness :
  fst (mono_sgen_try_alloc_space 4096 0 (demo_gc 0)) = true
  /\ fst (mono_sgen_try_alloc_space 4096 0 (demo_gc 1048000)) = false.
Proof.
  destruct (try_alloc_space_within_limit 4096 0 (demo_gc 0)) as [[_ H1] _];
    try (cbn; unfold is_mword, mword_modulus, mword_bits; lia).
  destruct (try_alloc_space_within_limit 4096 0 (demo_gc 1048000))
    as [[H2 _] _];
    try (cbn; unfold is_mword, mword_modulus, mword_bits; lia).
  split.
  - apply H1. cbn. lia.
  - destruct (fst (mono_sgen_try_alloc_space 4096 0 (demo_gc 1048000)));
      [|reflexivity].
    specialize (H2 eq_refl). cbn in H2. lia.
Defined.

Lemma try_alloc_then_release_witness :
  mono_sgen_release_space 4096 0
    (snd (mono_sgen_try_alloc_space 4096 0 (demo_gc 8192)))
  = demo_gc 8192.
Proof.
  apply (try_alloc_then_release 4096 0 0 (demo_gc 8192)).
  - cbn; unfold is_mword, mword_modulus, mword_bits; lia.
  - reflexivity.
Defined.

(** [align_pointer] rounds up to the next multiple of the pointer size,
    leaves an aligned pointer alone, and wraps to zero in the last seven
    bytes of the address space. *)
Theorem align_pointer_rounds_up (ptr : Z) :
  is_mword ptr ->
  (ptr + 7 < mword_modulus ->
   ptr <= align_pointer ptr < ptr + 8
   /\ align_pointer ptr mod 8 = 0
   /\ (ptr mod 8 = 0 -> align_pointer ptr = ptr)
   /\ align_pointer (align_pointer ptr) = align_pointer ptr)
  /\ (mword_modulus <= ptr + 7 -> align_pointer ptr = 0).
Proof.
  intros Hptr. unfold is_mword in Hptr.
  assert (HM : mword_modulus = 8 * 2305843009213693952) by reflexivity.
  assert (Hform : forall q, 0 <= q < mword_modulus ->
            to_mword (Z.land q (Z.lnot (sizeof_gpointer - 1))) = q - q mod 8).
  { intros q Hq. change (sizeof_gpointer - 1) with (2 ^ 3 - 1).
    rewrite clear_low_bits by lia. change (2 ^ 3) with 8.
    pose proof (Z.mod_pos_bound q 8 ltac:(lia)).
    pose proof (Z.mod_le q 8 ltac:(lia) ltac:(lia)).
    apply to_mword_small. unfold is_mword. lia. }
  assert (Hno : forall p, 0 <= p -> p + 7 < mword_modulus ->
            align_pointer p = p + 7 - (p + 7) mod 8).
  { intros p Hp Hlt. unfold align_pointer. cbv zeta.
    change (sizeof_gpointer - 1) with 7 at 1.
    rewrite (to_mword_small (p + 7)) by (unfold is_mword; lia).
    apply Hform. lia. }
  split.
  - intros Hlt. rewrite (Hno ptr) by lia.
    pose proof (Z.mod_pos_bound (ptr + 7) 8 ltac:(lia)) as Hm.
    pose proof (Z.div_mod (ptr + 7) 8 ltac:(lia)) as Hdm.
    assert (Hal : (ptr + 7 - (ptr + 7) mod 8) mod 8 = 0).
    { replace (ptr + 7 - (ptr + 7) mod 8) with ((ptr + 7) / 8 * 8) by lia.
      apply Z.mod_mul. lia. }
    assert (Hfix : forall p, p mod 8 = 0 -> p + 7 - (p + 7) mod 8 = p).
    { intros p Hp.
      pose proof (Z.div_mod p 8 ltac:(lia)) as Hd.
      replace (p + 7) with (7 + p / 8 * 8) by lia.
      rewrite Z.mod_add by lia. change (7 mod 8) with 7. lia. }
    split; [lia|]. split; [done|]. split; [apply Hfix|].
    rewrite Hno by lia. by apply Hfix.
  - intros Hwrap. unfold align_pointer. cbv zeta.
    change (sizeof_gpointer - 1) with 7 at 1.
    assert (Hp : to_mword (ptr + 7) = ptr + 7 - mword_modulus).
    { unfold to_mword. symmetry.
      apply (Z.mod_unique _ _ 1); [left; lia | lia]. }
    rewrite Hp, Hform by lia.
    rewrite Z.mod_small by lia. lia.
Qed.

Lemma align_pointer_rounds_up_witness :
  4097 <= align_pointer 4097 < 4105 /\ align_pointer 4097 mod 8 = 0.
Proof.
  destruct (align_pointer_rounds_up 4097) as [H _];
    [unfold is_mword, mword_modulus, mword_bits; lia|].
  destruct H as (H1 & H2 & _); [reflexivity|]. split; [exact H1|exact H2].
Defined.

(** A link that holds the hidden pointer of an object reveals that
    object, for every object address that is a multiple of four (the null
    pointer included) and either tracking mode; a null link reveals
    null. *)
Theorem weak_link_get_reveals (memory : Z -> Z) (link_addr obj : Z)
    (track : bool) :
  is_mword obj ->
  obj mod 4 = 0 ->
  (memory link_addr = HIDE_POINTER obj track ->
   mono_gc_weak_link_get memory link_addr = obj)
  /\ (memory link_addr = 0 -> mono_gc_weak_link_get memory link_addr = 0)
  /\ HIDE_POINTER obj track <> 0.
Proof.
  intros Hobj Hal.
  set (t := if track then 1 else 0).
  assert (Ht : 0 <= t < 2 ^ 1) by (subst t; destruct track; simpl; lia).
  assert (Hreveal : REVEAL_POINTER (HIDE_POINTER obj track) = obj).
  { unfold REVEAL_POINTER, HIDE_POINTER. fold t.
    apply Z.bits_inj'. intros n Hn.
    rewrite Z.land_spec, !to_mword_testbit, !Z.lnot_spec by done.
    rewrite to_mword_testbit, Z.lnot_spec, Z.lor_spec by done.
    destruct (Z.ltb_spec n 64) as [Hlt|Hge]; simpl.
    - rewrite negb_involutive.
      destruct (Z.lt_ge_cases n 2) as [Hlow|Hhigh].
      + rewrite (multiple_low_bits 2 obj n) by (done || lia).
        assert (Z.testbit 3 n = true) as ->.
        { assert (n = 0 \/ n = 1) as [-> | ->] by lia; reflexivity. }
        by rewrite andb_false_r.
      + rewrite (small_high_bits 1 t n) by (done || lia).
        rewrite (small_high_bits 2 3 n) by (done || lia).
        by rewrite orb_false_r, andb_true_r.
    - symmetry. by apply mword_high_bits. }
  assert (Hnz : HIDE_POINTER obj track <> 0).
  { intros H0.
    assert (Hb : Z.testbit (HIDE_POINTER obj track) 1 = true).
    { unfold HIDE_POINTER. fold t.
      rewrite to_mword_testbit, Z.lnot_spec, Z.lor_spec by lia.
      rewrite (multiple_low_bits 2 obj 1), (small_high_bits 1 t 1)
        by (done || lia).
      reflexivity. }
    rewrite H0 in Hb. by rewrite Z.bits_0 in Hb. }
  split; [|split; [|done]].
  - intros Hm. unfold mono_gc_weak_link_get. rewrite Hm.
    destruct (Z.eqb_spec (HIDE_POINTER obj track) 0); [done|]. exact Hreveal.
  - intros Hm. unfold mono_gc_weak_link_get. by rewrite Hm.
Qed.

Lemma weak_link_get_reveals_witness :
  mono_gc_weak_link_get (fun a => if a =? 64 then HIDE_POINTER 4104 true else 0)
    64 = 4104.
Proof.
  destruct (weak_link_get_reveals
              (fun a => if a =? 64 then HIDE_POINTER 4104 true else 0)
              64 4104 true) as [H _].
  - unfold is_mword, mword_modulus, mword_bits; lia.
  - reflexivity.
  - apply H. reflexivity.
Defined.

End HeapSpaceFacts.

(** ** Invariants of the root tables *)

Module RootsAccountingFacts.

Import Roots RootsFacts RootsAccounting WordFacts.

Lemma table_bytes_empty : table_bytes ∅ = 0.
Proof. apply map_fold_empty. Qed.

Lemma table_bytes_delete m start root :
  m !! start = Some root ->
  table_bytes (delete start m) = table_bytes m - (end_root root - start).
Proof.
  intros H. unfold table_bytes.
  rewrite (map_fold_delete_L _ _ start root m); [lia| |done].
  intros. lia.
Qed.

Lemma table_bytes_insert_fresh m start root :
  m !! start = None ->
  table_bytes (<[start := root]> m) = table_bytes m + (end_root root - start).
Proof.
  intros H. unfold table_bytes.
  rewrite map_fold_insert_L; [done| |done].
  intros. lia.
Qed.

Lemma table_bytes_insert m start old root :
  m !! start = Some old ->
  table_bytes (<[start := root]> m)
  = table_bytes m - (end_root old - start) + (end_root root - start).
Proof.
  intros H. rewrite <- insert_delete_eq.
  rewrite table_bytes_insert_fresh by apply lookup_delete_eq.
  by rewrite (table_bytes_delete m start old).
Qed.

Lemma registered_bytes_set_table t m h :
  registered_bytes (set_table t m h)
  = registered_bytes h - table_bytes (h t) + table_bytes m.
Proof.
  unfold registered_bytes.
  destruct t;
    rewrite set_table_same, !set_table_other by done; lia.
Qed.

Lemma deregister_in_hash addr st t t' :
  roots_hash (deregister_in addr st t) t'
  = if decide (t' = t) then delete addr (roots_hash st t)
    else roots_hash st t'.
Proof.
  unfold deregister_in.
  destruct (roots_hash st t !! addr) eqn:E; simpl.
  - unfold set_table. by destruct (decide (t' = t)).
  - destruct (decide (t' = t)) as [->|]; [|done].
    by rewrite delete_id.
Qed.

Lemma deregister_hash addr st t :
  roots_hash (mono_gc_deregister_root addr st) t
  = delete addr (roots_hash st t).
Proof.
  unfold mono_gc_deregister_root. simpl.
  rewrite !deregister_in_hash.
  destruct t; simpl; reflexivity.
Qed.

Lemma deregister_in_accounted addr st t :
  accounted st -> accounted (deregister_in addr st t).
Proof.
  unfold accounted, deregister_in. intros Hacc.
  destruct (roots_hash st t !! addr) as [root|] eqn:E; [|done].
  simpl. rewrite registered_bytes_set_table.
  rewrite (table_bytes_delete _ _ root) by done.
  rewrite Hacc, to_mword_sub_l. f_equal. lia.
Qed.

(** Deregistration removes the address from every table, touches no
    other address, and changes nothing at all when the address was not
    registered. *)
Theorem deregister_root_clears (addr : Z) (st : RootTables) :
  unregistered (mono_gc_deregister_root addr st) addr
  /\ (forall t start, start <> addr ->
        roots_hash (mono_gc_deregister_root addr st) t !! start
        = roots_hash st t !! start)
  /\ (unregistered st addr -> mono_gc_deregister_root addr st = st).
Proof.
  split; [|split].
  - intros t. rewrite deregister_hash. apply lookup_delete_eq.
  - intros t start Hne. rewrite deregister_hash. by apply lookup_delete_ne.
  - intros Hun. unfold mono_gc_deregister_root. simpl.
    rewrite (deregister_in_absent addr st ROOT_TYPE_NORMAL) by apply Hun.
    rewrite (deregister_in_absent addr st ROOT_TYPE_PINNED) by apply Hun.
    apply deregister_in_absent, Hun.
Qed.

(** [roots_size] stays the sum, as an [mword], of the sizes of all
    registered records: the empty tables satisfy it, and every
    registration that returns, and every deregistration, keeps it. *)
Theorem roots_size_accounted
    (st : RootTables) (start size descr : Z) (root_type : RootType) :
  accounted st ->
  accounted no_roots
  /\ (forall r st',
        mono_gc_register_root_inner start size descr root_type st
          = Ret (r, st') -> accounted st')
  /\ accounted (mono_gc_deregister_root start st).
Proof.
  intros Hacc. split; [|split].
  - unfold accounted, registered_bytes. simpl.
    by rewrite table_bytes_empty.
  - intros r st'. unfold mono_gc_register_root_inner.
    destruct (find_registered root_type_order (roots_hash st) start)
      as [[i root]|] eqn:E.
    + destruct (desc_compatible (root_desc root) descr); [|discriminate].
      intros [= _ <-]. unfold accounted. simpl.
      rewrite registered_bytes_set_table.
      rewrite (table_bytes_insert _ _ root)
        by (by eapply find_registered_lookup).
      simpl. rewrite to_mword_sub_l, to_mword_sub_r, Hacc.
      replace (to_mword (registered_bytes (roots_hash st)) + size
               - (end_root root - start))
        with (to_mword (registered_bytes (roots_hash st))
              + (size - (end_root root - start))) by lia.
      rewrite to_mword_add_l.
      set (total := registered_bytes (roots_hash st)).
      set (bytes := table_bytes (roots_hash st i)).
      replace (total - bytes
               + (bytes - (end_root root - start)
                  + (to_mword (start + size) - start)))
        with (total - (end_root root - start) - start
              + to_mword (start + size)) by lia.
      rewrite to_mword_add_r. f_equal. lia.
    + intros [= _ <-]. unfold accounted. simpl.
      rewrite registered_bytes_set_table.
      assert (Hnone : roots_hash st root_type !! start = None).
      { simpl in E. destruct root_type;
          repeat (case_match; try discriminate); done. }
      rewrite table_bytes_insert_fresh by done.
      simpl. rewrite Hacc, to_mword_add_l.
      set (total := registered_bytes (roots_hash st)).
      set (bytes := table_bytes (roots_hash st root_type)).
      replace (total - bytes + (bytes + (to_mword (start + size) - start)))
        with (total - start + to_mword (start + size)) by lia.
      rewrite to_mword_add_r. f_equal. lia.
  - unfold mono_gc_deregister_root. simpl.
    by do 3 apply deregister_in_accounted.
Qed.

Lemma roots_size_accounted_witness :
  exists st',
    mono_gc_register_root_inner 4096 64 0 ROOT_TYPE_PINNED no_roots
      = Ret (TRUE, st')
    /\ accounted st'
    /\ accounted (mono_gc_deregister_root 4096 no_roots).
Proof.
  destruct (roots_size_accounted no_roots 4096 64 0 ROOT_TYPE_PINNED)
    as (_ & H1 & H2).
  - unfold accounted, registered_bytes. simpl.
    by rewrite table_bytes_empty.
  - eexists. split; [reflexivity|]. split; [|exact H2].
    by eapply H1.
Defined.

Lemma find_registered_first ts h start :
  find_registered ts h start = None ->
  forall t, t ∈ ts -> h t !! start = None.
Proof.
  induction ts as [|t0 ts IH]; simpl; intros Hf t Ht.
  - by apply elem_of_nil in Ht.
  - destruct (h t0 !! start) eqn:E; [discriminate|].
    apply elem_of_cons in Ht as [->|Ht]; [done|]. by apply IH.
Qed.

Lemma root_type_listed t : t ∈ root_type_order.
Proof. destruct t; unfold root_type_order; set_solver. Qed.

(** A registration that returns changes the record of its start address
    only.  A fresh address gets the record [start + size] with the given
    descriptor, in the table the entry point selects: the pinned table
    for a null descriptor and the normal one otherwise for
    [mono_gc_register_root], the write-barrier table for
    [mono_gc_register_root_wbarrier]. *)
Theorem register_root_lookup (st : RootTables) (start size descr : Z) :
  (forall root_type r st' t other,
     mono_gc_register_root_inner start size descr root_type st = Ret (r, st') ->
     other <> start ->
     roots_hash st' t !! other = roots_hash st t !! other)
  /\ (unregistered st start ->
      exists st1 st2,
        mono_gc_register_root start size descr st = Ret (TRUE, st1)
        /\ registered_in st1 start
             (if descr =? 0 then ROOT_TYPE_PINNED else ROOT_TYPE_NORMAL)
             {| end_root := to_mword (start + size); root_desc := descr |}
        /\ mono_gc_register_root_wbarrier start size descr st
           = Ret (TRUE, st2)
        /\ registered_in st2 start ROOT_TYPE_WBARRIER
             {| end_root := to_mword (start + size); root_desc := descr |}).
Proof.
  split.
  - intros root_type r st' t other. unfold mono_gc_register_root_inner.
    destruct (find_registered root_type_order (roots_hash st) start)
      as [[i root]|].
    + destruct (desc_compatible (root_desc root) descr); [|discriminate].
      intros [= _ <-] Hne. simpl. unfold set_table.
      destruct (decide (t = i)) as [->|]; [|done].
      by apply lookup_insert_ne.
    + intros [= _ <-] Hne. simpl. unfold set_table.
      destruct (decide (t = root_type)) as [->|]; [|done].
      by apply lookup_insert_ne.
  - intros Hun.
    unfold mono_gc_register_root, mono_gc_register_root_wbarrier,
      mono_gc_register_root_inner.
    rewrite (find_registered_none _ _ Hun).
    eexists _, _. split; [reflexivity|]. split; [|split; [reflexivity|]].
    + unfold registered_in. simpl.
      destruct (descr =? 0).
      * rewrite set_table_other, Hun by done.
        by rewrite set_table_same, lookup_insert_eq.
      * by rewrite set_table_same, lookup_insert_eq.
    + unfold registered_in. simpl.
      rewrite !set_table_other, !Hun by done.
      by rewrite set_table_same, lookup_insert_eq.
Qed.

Lemma register_root_lookup_witness :
  exists st1,
    mono_gc_register_root 4096 64 0 no_roots = Ret (TRUE, st1)
    /\ registered_in st1 4096 ROOT_TYPE_PINNED
         {| end_root := 4160; root_desc := 0 |}.
Proof.
  destruct (register_root_lookup no_roots 4096 64 0) as [_ H].
  destruct H as (st1 & st2 & H1 & H2 & _); [by intros t|].
  exists st1. split; [exact H1 | exact H2].
Defined.

(** No start address is ever in two root tables: the empty tables
    satisfy this, and registration and deregistration keep it. *)
Theorem root_tables_exclusive
    (st : RootTables) (start size descr : Z) (root_type : RootType) :
  exclusive st ->
  exclusive no_roots
  /\ (forall r st',
        mono_gc_register_root_inner start size descr root_type st
          = Ret (r, st') -> exclusive st')
  /\ exclusive (mono_gc_deregister_root start st).
Proof.
  intros Hex. split; [|split].
  - intros t t' k [x Hx]. simpl in Hx. by rewrite lookup_empty in Hx.
  - intros r st'. unfold mono_gc_register_root_inner.
    destruct (find_registered root_type_order (roots_hash st) start)
      as [[i root]|] eqn:E.
    + destruct (desc_compatible (root_desc root) descr); [|discriminate].
      intros [= _ <-]. apply find_registered_lookup in E.
      assert (Hsame : forall t k,
                is_Some (set_table i
                           (<[start := {| end_root := to_mword (start + size);
                                          root_desc := descr |}]>
                              (roots_hash st i)) (roots_hash st) t !! k)
                -> is_Some (roots_hash st t !! k)).
      { intros t k. unfold set_table.
        destruct (decide (t = i)) as [->|]; [|done].
        destruct (decide (k = start)) as [->|].
        - intros _. by exists root.
        - by rewrite lookup_insert_ne. }
      intros t t' k Ht Ht'. simpl in *.
      apply (Hex t t' k); by apply Hsame.
    + intros [= _ <-].
      pose proof (find_registered_first _ _ _ E) as Hnone.
      assert (Hsame : forall t k,
                is_Some (set_table root_type
                           (<[start := {| end_root := to_mword (start + size);
                                          root_desc := descr |}]>
                              (roots_hash st root_type)) (roots_hash st) t !! k)
                -> (k = start /\ t = root_type)
                   \/ (k <> start /\ is_Some (roots_hash st t !! k))).
      { intros t k. unfold set_table.
        destruct (decide (t = root_type)) as [->|].
        - destruct (decide (k = start)) as [->|]; [by left|].
          rewrite lookup_insert_ne by done. by right.
        - intros [x Hx]. right. split; [|by exists x].
          intros ->. rewrite Hnone in Hx by apply root_type_listed.
          discriminate. }
      intros t t' k Ht Ht'. simpl in *.
      apply Hsame in Ht as [[-> ->]|[Hk Ht]];
        apply Hsame in Ht' as [[? ->]|[Hk' Ht']]; try done.
      by apply (Hex t t' k).
  - intros t t' k. rewrite !deregister_hash.
    intros [x Hx] [y Hy].
    apply lookup_delete_Some in Hx as [_ Hx].
    apply lookup_delete_Some in Hy as [_ Hy].
    by apply (Hex t t' k).
Qed.

Lemma root_tables_exclusive_witness :
  exists st',
    mono_gc_register_root_inner 4096 64 0 ROOT_TYPE_PINNED no_roots
      = Ret (TRUE, st')
    /\ exclusive st'
    /\ exclusive (mono_gc_deregister_root 4096 no_roots).
Proof.
  destruct (root_tables_exclusive no_roots 4096 64 0 ROOT_TYPE_PINNED)
    as (_ & H1 & H2).
  - intros t t' k [x Hx]. simpl in Hx. by rewrite lookup_empty in Hx.
  - eexists. split; [reflexivity|]. split; [|exact H2].
    by eapply H1.
Defined.

End RootsAccountingFacts.

(** ** Sorting the pin queue *)

Module SortingFacts.

Import Sorting.

Lemma get_lookup array (i : nat) :
  (i < length array)%nat -> array !! i = Some (get array i).
Proof.
  intros H. unfold get.
  by destruct (lookup_lt_is_Some_2 array i H) as [x ->].
Qed.

Lemma swap_length array i j : length (swap array i j) = length array.
Proof. unfold swap. by rewrite !length_insert. Qed.

Lemma get_swap array (i j k : nat) :
  (i < length array)%nat -> (j < length array)%nat ->
  get (swap array i j) k
  = if decide (k = j) then get array i
    else if decide (k = i) then get array j else get array k.
Proof.
  intros Hi Hj. unfold swap. cbv zeta. unfold get at 1.
  destruct (decide (k = j)) as [->|Hkj].
  - by rewrite list_lookup_insert_eq by (by rewrite length_insert).
  - rewrite list_lookup_insert_ne by done.
    destruct (decide (k = i)) as [->|Hki].
    + by rewrite list_lookup_insert_eq.
    + by rewrite list_lookup_insert_ne.
Qed.

Lemma insert_Permutation (l : list Z) (j : nat) x y :
  l !! j = Some y -> y :: <[j := x]> l ≡ₚ x :: l.
Proof.
  revert j. induction l as [|z l IH]; intros [|j] H; simplify_eq/=.
  - apply perm_swap.
  - rewrite perm_swap. rewrite (IH j H). apply perm_swap.
Qed.

Lemma swap_Permutation array (i j : nat) :
  (i < length array)%nat -> (j < length array)%nat ->
  swap array i j ≡ₚ array.
Proof.
  unfold swap. cbv zeta. revert i j.
  induction array as [|x l IH]; intros i j Hi Hj; simpl in *; [lia|].
  destruct i as [|i], j as [|j]; simpl.
  - done.
  - unfold get. simpl.
    destruct (lookup_lt_is_Some_2 l j ltac:(lia)) as [y Hy].
    rewrite Hy. simpl. by apply insert_Permutation.
  - unfold get. simpl.
    destruct (lookup_lt_is_Some_2 l i ltac:(lia)) as [y Hy].
    rewrite Hy. simpl. by apply insert_Permutation.
  - apply Permutation_skip.
    change (get (x :: l) (S i)) with (get l i).
    change (get (x :: l) (S j)) with (get l j).
    apply IH; lia.
Qed.

Lemma parent_cases (c : nat) :
  (0 < c)%nat ->
  (c = 2 * ((c - 1) / 2) + 1 \/ c = 2 * ((c - 1) / 2) + 2)%nat.
Proof.
  intros Hc.
  pose proof (Nat.div_mod_eq (c - 1) 2).
  pose proof (Nat.mod_upper_bound (c - 1) 2).
  lia.
Qed.

(** The first [n] entries form a max-heap. *)
Definition heap_upto (array : list Z) (n : nat) : Prop :=
  forall c : nat, (0 < c < n)%nat ->
    get array c <= get array ((c - 1) / 2).

(** A max-heap but for the entry at [child], which may exceed its
    parent. *)
Definition up_inv (array : list Z) (n child : nat) : Prop :=
  (forall c : nat, (0 < c < n)%nat -> c <> child ->
     get array c <= get array ((c - 1) / 2))
  /\ ((0 < child)%nat ->
      forall c : nat, (0 < c < n)%nat -> ((c - 1) / 2)%nat = child ->
        get array c <= get array ((child - 1) / 2)).

(** A max-heap but for the entry at [root], which may be below its
    children. *)
Definition down_inv (array : list Z) (n root : nat) : Prop :=
  (forall c : nat, (0 < c < n)%nat -> ((c - 1) / 2)%nat <> root ->
     get array c <= get array ((c - 1) / 2))
  /\ ((0 < root)%nat ->
      forall c : nat, (0 < c < n)%nat -> ((c - 1) / 2)%nat = root ->
        get array c <= get array ((root - 1) / 2)).

Lemma heap_root_max array n :
  heap_upto array n ->
  forall j : nat, (j < n)%nat -> get array j <= get array 0.
Proof.
  intros Hheap j. induction j as [j IH] using lt_wf_ind. intros Hj.
  destruct (decide (j = 0)%nat) as [->|Hne]; [lia|].
  pose proof (parent_cases j ltac:(lia)).
  pose proof (Hheap j ltac:(lia)).
  pose proof (IH ((j - 1) / 2)%nat ltac:(lia) ltac:(lia)).
  lia.
Qed.

Lemma sift_up_step fuel array (child : nat) :
  child <> 0%nat ->
  sift_up (S fuel) array child
  = if get array ((child - 1) / 2) >=? get array child then Ret array
    else sift_up fuel (swap array ((child - 1) / 2) child) ((child - 1) / 2).
Proof.
  intros H. change (sift_up (S fuel) array child)
    with (if (child =? 0)%nat then Ret array
          else if get array ((child - 1) / 2) >=? get array child then Ret array
          else sift_up fuel (swap array ((child - 1) / 2) child)
                 ((child - 1) / 2)).
  by destruct (Nat.eqb_spec child 0).
Qed.

Lemma sift_up_spec (n : nat) (fuel : nat) :
  forall array (child : nat),
    (child < n)%nat -> (n <= length array)%nat -> (child <= fuel)%nat ->
    up_inv array n child ->
    exists array',
      sift_up fuel array child = Ret array'
      /\ heap_upto array' n
      /\ array' ≡ₚ array
      /\ forall k : nat, (n <= k)%nat -> get array' k = get array k.
Proof.
  induction fuel as [|fuel IH]; intros array child Hc Hn Hf [H1 H2].
  - assert (child = 0%nat) as -> by lia. simpl.
    exists array. split; [done|]. split; [|by split].
    intros c Hc'. apply H1; lia.
  - destruct (decide (child = 0%nat)) as [->|Hpos].
    { exists array. split; [done|]. split; [|by split].
      intros c Hc'. apply H1; lia. }
    rewrite sift_up_step by done.
    pose proof (parent_cases child ltac:(lia)) as Hpc.
    set (parent := ((child - 1) / 2)%nat) in *.
    destruct (get array parent >=? get array child) eqn:E.
    + exists array. split; [done|]. split; [|by split].
      intros c Hc'. destruct (decide (c = child)) as [->|Hne].
      * fold parent. apply Z.geb_le in E. lia.
      * by apply H1.
    + assert (Hlt : get array parent < get array child).
      { rewrite Z.geb_leb in E. apply Z.leb_gt in E. lia. }
      destruct (IH (swap array parent child) parent) as (array' & Hr & Hh & Hp & Hs).
      * lia.
      * by rewrite swap_length.
      * lia.
      * split.
        -- intros c Hc' Hne.
           pose proof (parent_cases c ltac:(lia)) as Hcc.
           rewrite !get_swap by lia.
           destruct (decide (c = child)) as [->|Hcne].
           ++ fold parent. rewrite decide_False by lia.
              rewrite decide_True by done. lia.
           ++ rewrite (decide_False (P := c = parent)) by done.
              destruct (decide (((c - 1) / 2)%nat = child)) as [Hpc'|Hpc'].
              ** specialize (H2 ltac:(lia) c Hc' Hpc'). fold parent in H2. lia.
              ** destruct (decide (((c - 1) / 2)%nat = parent)) as [Hpp|Hpp].
                 --- specialize (H1 c Hc' Hcne). rewrite Hpp in H1. lia.
                 --- by apply H1.
        -- intros Hppos c Hc' Hcp.
           pose proof (parent_cases c ltac:(lia)) as Hcc.
           pose proof (parent_cases parent ltac:(lia)) as Hpp.
           rewrite !get_swap by lia.
           rewrite (decide_False (P := ((parent - 1) / 2)%nat = child)) by lia.
           rewrite (decide_False (P := ((parent - 1) / 2)%nat = parent)) by lia.
           pose proof (H1 parent ltac:(lia) ltac:(lia)) as Hpar.
           destruct (decide (c = child)) as [->|Hcne]; [done|].
           rewrite (decide_False (P := c = parent)) by lia.
           specialize (H1 c Hc' Hcne). rewrite Hcp in H1. lia.
      * exists array'. split; [done|]. split; [done|]. split.
        -- rewrite Hp. apply swap_Permutation; lia.
        -- intros k Hk. rewrite Hs by done. rewrite get_swap by lia.
           by rewrite !decide_False by lia.
Qed.

Lemma sift_down_step fuel array (root end_ : nat) :
  (root * 2 + 1 <= end_)%nat ->
  sift_down (S fuel) array root end_
  = let child := (root * 2 + 1)%nat in
    let child :=
      if (child <? end_)%nat && (get array child <? get array (child + 1))
      then (child + 1)%nat else child in
    if get array root >=? get array child then Ret array
    else sift_down fuel (swap array root child) child end_.
Proof.
  intros H. change (sift_down (S fuel) array root end_)
    with (if (root * 2 + 1 <=? end_)%nat then
            let child := (root * 2 + 1)%nat in
            let child :=
              if (child <? end_)%nat
                 && (get array child <? get array (child + 1))
              then (child + 1)%nat else child in
            if get array root >=? get array child then Ret array
            else sift_down fuel (swap array root child) child end_
          else Ret array).
  by destruct (Nat.leb_spec (root * 2 + 1) end_); [|lia].
Qed.

Lemma sift_down_done fuel array (root end_ : nat) :
  (end_ < root * 2 + 1)%nat -> sift_down fuel array root end_ = Ret array.
Proof.
  intros H. destruct fuel; simpl;
    by destruct (Nat.leb_spec (root * 2 + 1) end_); [lia|].
Qed.

Lemma sift_down_spec (end_ : nat) (fuel : nat) :
  forall array (root : nat),
    (root <= end_)%nat -> (end_ < length array)%nat ->
    (end_ <= fuel + root)%nat ->
    down_inv array (S end_) root ->
    exists array',
      sift_down fuel array root end_ = Ret array'
      /\ heap_upto array' (S end_)
      /\ array' ≡ₚ array
      /\ (forall k : nat, (end_ < k)%nat -> get array' k = get array k)
      /\ (forall P : Z -> Prop,
            (forall j : nat, (j <= end_)%nat -> P (get array j)) ->
            forall j : nat, (j <= end_)%nat -> P (get array' j)).
Proof.
  assert (Hexit : forall array (root : nat),
            (end_ < root * 2 + 1)%nat ->
            down_inv array (S end_) root -> heap_upto array (S end_)).
  { intros array root Hr [H1 H2] c Hc.
    pose proof (parent_cases c ltac:(lia)).
    apply H1; lia. }
  induction fuel as [|fuel IH]; intros array root Hroot Hlen Hf Hinv.
  { rewrite sift_down_done by lia.
    exists array. split; [done|]. split; [apply (Hexit array root); [lia|done]|].
    by repeat split. }
  destruct (Nat.le_gt_cases (root * 2 + 1) end_) as [Hin|Hout].
  2:{ rewrite sift_down_done by lia.
      exists array. split; [done|].
      split; [apply (Hexit array root); [lia|done]|]. by repeat split. }
  rewrite sift_down_step by done. cbv zeta.
  destruct Hinv as [H1 H2].
  set (c0 := (root * 2 + 1)%nat) in *.
  set (child := if (c0 <? end_)%nat && (get array c0 <? get array (c0 + 1))
                then (c0 + 1)%nat else c0).
  assert (Hchild : (child = c0 \/ child = c0 + 1)%nat /\ (child <= end_)%nat
                   /\ get array c0 <= get array child
                   /\ ((c0 + 1 <= end_)%nat ->
                       get array (c0 + 1) <= get array child)).
  { subst child. destruct (Nat.ltb_spec c0 end_); simpl.
    - destruct (Z.ltb_spec (get array c0) (get array (c0 + 1))).
      + repeat split; [by right|lia|lia|lia].
      + repeat split; [by left|lia|lia|lia].
    - repeat split; [by left|lia|lia|lia]. }
  clearbody child. destruct Hchild as (Hwhich & Hle & Hbig0 & Hbig1).
  assert (Hparent : ((child - 1) / 2)%nat = root).
  { pose proof (parent_cases child ltac:(lia)). lia. }
  destruct (get array root >=? get array child) eqn:E.
  - apply Z.geb_le in E.
    exists array. split; [done|]. split; [|by repeat split].
    intros c Hc. pose proof (parent_cases c ltac:(lia)) as Hcc.
    destruct (decide (((c - 1) / 2)%nat = root)) as [Hp|Hp]; [|by apply H1].
    rewrite Hp.
    assert (c = c0 \/ c = (c0 + 1)%nat) as [->| ->] by lia; [lia|].
    specialize (Hbig1 ltac:(lia)). lia.
  - assert (Hlt : get array root < get array child).
    { rewrite Z.geb_leb in E. apply Z.leb_gt in E. lia. }
    destruct (IH (swap array root child) child)
      as (array' & Hr & Hh & Hp & Hs & Hin').
    + done.
    + by rewrite swap_length.
    + lia.
    + split.
      * intros c Hc Hpc.
        pose proof (parent_cases c ltac:(lia)) as Hcc.
        rewrite !get_swap by lia.
        destruct (decide (c = child)) as [->|Hcne].
        { rewrite Hparent. rewrite (decide_False (P := root = child)) by lia.
          rewrite decide_True by done. lia. }
        destruct (decide (c = root)) as [->|Hcr].
        -- pose proof (parent_cases root ltac:(lia)) as Hrr.
           rewrite !decide_False by lia.
           exact (H2 ltac:(lia) child ltac:(lia) Hparent).
        -- rewrite (decide_False (P := ((c - 1) / 2)%nat = child)) by done.
           destruct (decide (((c - 1) / 2)%nat = root)) as [Hcp|Hcp].
           ++ assert (c = c0 \/ c = (c0 + 1)%nat) as [->| ->] by lia; [lia|].
              specialize (Hbig1 ltac:(lia)). lia.
           ++ by apply H1.
      * intros _ c Hc Hpc.
        pose proof (parent_cases c ltac:(lia)) as Hcc.
        rewrite Hparent. rewrite !get_swap by lia.
        rewrite (decide_False (P := c = child)) by lia.
        rewrite (decide_False (P := c = root)) by lia.
        rewrite (decide_False (P := root = child)) by lia.
        rewrite decide_True by done.
        specialize (H1 c Hc ltac:(lia)). rewrite Hpc in H1. lia.
    + exists array'. split; [done|]. split; [done|]. split; [|split].
      * rewrite Hp. apply swap_Permutation; lia.
      * intros k Hk. rewrite Hs by done. rewrite get_swap by lia.
        by rewrite !decide_False by lia.
      * intros P HP. apply Hin'. intros j Hj. rewrite get_swap by lia.
        repeat case_decide; apply HP; lia.
Qed.

Lemma build_loop_spec (fuel : nat) (remaining : nat) :
  forall array (i : nat),
    (i + remaining <= length array)%nat ->
    (i + remaining <= S fuel)%nat ->
    heap_upto array i ->
    exists array',
      build_loop fuel array i remaining = Ret array'
      /\ heap_upto array' (i + remaining)
      /\ array' ≡ₚ array
      /\ forall k : nat, (i + remaining <= k)%nat ->
           get array' k = get array k.
Proof.
  induction remaining as [|remaining IH]; intros array i Hlen Hf Hheap.
  - simpl. exists array. rewrite Nat.add_0_r. by repeat split.
  - destruct (sift_up_spec (S i) fuel array i) as (a1 & Hr & Hh & Hp & Hs);
      [lia|lia|lia| |].
    { split.
      - intros c Hc Hne. apply Hheap. lia.
      - intros Hi c Hc Hpc. pose proof (parent_cases c ltac:(lia)). lia. }
    destruct (IH a1 (S i)) as (a2 & Hr2 & Hh2 & Hp2 & Hs2).
    + rewrite (Permutation_length Hp). lia.
    + lia.
    + done.
    + exists a2. simpl. rewrite Hr. simpl.
      replace (i + S remaining)%nat with (S i + remaining)%nat by lia.
      split; [done|]. split; [done|]. split; [by rewrite Hp2|].
      intros k Hk. rewrite Hs2 by done. apply Hs. lia.
Qed.

(** The first [m] entries form a heap, the entries from [m] up to
    [size] are sorted, and none of the former exceeds any of the
    latter. *)
Definition extract_inv (array : list Z) (m size : nat) : Prop :=
  heap_upto array m
  /\ (forall j k : nat, (m <= j)%nat -> (j <= k)%nat -> (k < size)%nat ->
        get array j <= get array k)
  /\ (forall j k : nat, (j < m)%nat -> (m <= k)%nat -> (k < size)%nat ->
        get array j <= get array k).

Lemma extract_loop_spec (fuel size : nat) (i : nat) :
  forall array,
    (S i <= size)%nat -> (size <= length array)%nat -> (i <= S fuel)%nat ->
    extract_inv array (S i) size ->
    exists array',
      extract_loop fuel array i = Ret array'
      /\ extract_inv array' 1 size
      /\ array' ≡ₚ array
      /\ forall k : nat, (size <= k)%nat -> get array' k = get array k.
Proof.
  induction i as [|e IH]; intros array Hi Hlen Hf Hinv.
  - simpl. exists array. split; [done|]. split; [exact Hinv|]. by split.
  - destruct Hinv as (Hheap & Hsorted & Hbelow).
    set (a1 := swap array (S e) 0).
    assert (Hget1 : forall k : nat,
              get a1 k = if decide (k = 0%nat) then get array (S e)
                         else if decide (k = S e) then get array 0
                              else get array k).
    { intros k. unfold a1. by rewrite get_swap by lia. }
    destruct (sift_down_spec e fuel a1 0%nat)
      as (a2 & Hr & Hh & Hp & Hs & Hin); [lia| |lia| |].
    { unfold a1. rewrite swap_length. lia. }
    { split; [|lia].
      intros c Hc Hpc. pose proof (parent_cases c ltac:(lia)) as Hcc.
      rewrite !Hget1. rewrite !decide_False by lia. apply Hheap. lia. }
    destruct (IH a2) as (a3 & Hr3 & Hinv3 & Hp3 & Hs3).
    + lia.
    + rewrite (Permutation_length Hp). unfold a1. rewrite swap_length. lia.
    + lia.
    + split; [done|]. split.
      * intros j k Hj Hjk Hk. rewrite !Hs by lia. rewrite !Hget1.
        rewrite !(decide_False (P := _ = 0%nat)) by lia.
        destruct (decide (j = S e)) as [->|Hne].
        -- destruct (decide (k = S e)) as [->|Hne']; [lia|].
           apply Hbelow; lia.
        -- rewrite (decide_False (P := k = S e)) by lia.
           apply Hsorted; lia.
      * intros j k Hj Hk Hks.
        apply (Hin (fun x => forall k : nat,
                      (S e <= k)%nat -> (k < size)%nat -> x <= get a2 k));
          [|lia|lia|lia].
        clear j k Hj Hk Hks. intros j Hj k Hk Hks.
        rewrite Hs by lia. rewrite !Hget1.
        rewrite (decide_False (P := k = 0%nat)) by lia.
        destruct (decide (k = S e)) as [->|Hne].
        -- destruct (decide (j = 0%nat)) as [->|Hj0].
           ++ apply (heap_root_max array (S (S e))); [done|lia].
           ++ rewrite decide_False by lia.
              apply (heap_root_max array (S (S e))); [done|lia].
        -- destruct (decide (j = 0%nat)) as [->|Hj0].
           ++ apply Hbelow; lia.
           ++ rewrite decide_False by lia. apply Hbelow; lia.
    + exists a3. simpl. fold a1. rewrite Hr. simpl.
      split; [done|]. split; [done|]. split.
      * rewrite Hp3, Hp. apply swap_Permutation; lia.
      * intros k Hk. rewrite Hs3, Hs by lia. rewrite Hget1.
        by rewrite !decide_False by lia.
Qed.

Lemma sort_addresses_run (fuel : nat) (array : list Z) (size : nat) :
  (size <= length array)%nat ->
  (size <= fuel)%nat ->
  exists sorted,
    mono_sgen_sort_addresses fuel array size = Ret sorted
    /\ extract_inv sorted 1 size
    /\ sorted ≡ₚ array
    /\ forall k : nat, (size <= k)%nat -> get sorted k = get array k.
Proof.
  intros Hlen Hfuel. unfold mono_sgen_sort_addresses.
  destruct (decide (size = 0%nat)) as [->|Hpos].
  { exists array. simpl. split; [done|]. split; [|by split].
    split; [intros c Hc; lia|]. split; intros; lia. }
  destruct (build_loop_spec fuel (size - 1) array 1)
    as (a1 & Hr1 & Hh1 & Hp1 & Hs1); [lia|lia|intros c Hc; lia|].
  rewrite Hr1. simpl.
  replace (1 + (size - 1))%nat with size in * by lia.
  destruct (extract_loop_spec fuel size (size - 1) a1)
    as (a2 & Hr2 & Hinv & Hp2 & Hs2).
  - lia.
  - rewrite (Permutation_length Hp1). lia.
  - lia.
  - replace (S (size - 1)) with size by lia.
    split; [done|]. split; intros; lia.
  - exists a2. split; [done|]. split; [done|]. split; [by rewrite Hp2|].
    intros k Hk. rewrite Hs2 by done. by apply Hs1.
Qed.

(** [mono_sgen_sort_addresses] returns, with the first [size] entries in
    increasing order and a rearrangement of the entries that were there,
    and the entries beyond [size] as they were.  [size] is at most
    [2 ^ 30], which keeps the [int] index [root * 2 + 1] from
    overflowing. *)
Theorem sort_addresses_sorts (fuel : nat) (array : list Z) (size : nat) :
  (size <= length array)%nat ->
  Z.of_nat size <= 2 ^ 30 ->
  (size <= fuel)%nat ->
  exists sorted,
    mono_sgen_sort_addresses fuel array size = Ret sorted
    /\ (forall j k : nat, (j <= k)%nat -> (k < size)%nat ->
          get sorted j <= get sorted k)
    /\ take size sorted ≡ₚ take size array
    /\ drop size sorted = drop size array.
Proof.
  intros Hlen _ Hfuel.
  destruct (sort_addresses_run fuel array size Hlen Hfuel)
    as (sorted & Hrun & (_ & Hsorted & Hbelow) & Hp & Hs).
  exists sorted. split; [done|]. split; [|split].
  - intros j k Hjk Hk.
    destruct (decide (j = 0%nat)) as [->|Hj].
    + destruct (decide (k = 0%nat)) as [->|Hk0]; [lia|].
      apply Hbelow; lia.
    + apply Hsorted; lia.
  - apply (Permutation_app_inv_r (drop size array)).
    rewrite take_drop.
    assert (Hd : drop size array = drop size sorted); [|rewrite Hd at 1].
    + apply list_eq. intros k. rewrite !lookup_drop.
      pose proof (Permutation_length Hp) as Hl.
      destruct (decide (size + k < length array)%nat) as [Hin|Hout].
      * rewrite !get_lookup by lia. f_equal. symmetry. apply Hs. lia.
      * by rewrite !lookup_ge_None_2 by lia.
    + by rewrite take_drop.
  - apply list_eq. intros k. rewrite !lookup_drop.
    pose proof (Permutation_length Hp) as Hl.
    destruct (decide (size + k < length array)%nat) as [Hin|Hout].
    + rewrite !get_lookup by lia. f_equal. apply Hs. lia.
    + by rewrite !lookup_ge_None_2 by lia.
Qed.

Lemma sort_addresses_sorts_witness :
  exists sorted,
    mono_sgen_sort_addresses 8 [4160; 4096; 4200; 4128; 4096; 7] 5
      = Ret sorted
    /\ get sorted 0 <= get sorted 4
    /\ drop 5 sorted = [7].
Proof.
  destruct (sort_addresses_sorts 8 [4160; 4096; 4200; 4128; 4096; 7] 5)
    as (sorted & Hr & Hs & _ & Hd); [simpl; lia | lia | lia |].
  exists sorted. split; [exact Hr|]. split; [apply Hs; lia | exact Hd].
Defined.

End SortingFacts.

(** ** Conservative scanning *)

Module ConservativeFacts.

Import Pinning PinningFacts Conservative WordFacts.

Section Scan.

Variable ALLOC_ALIGN_BITS : nat.
Variable do_pin_stats : bool.
Variable ptr_in_nursery : Z -> bool.

Local Abbreviation A := (ALLOC_ALIGN ALLOC_ALIGN_BITS).
Local Abbreviation pin_word :=
  (conservatively_pin_word ALLOC_ALIGN_BITS do_pin_stats ptr_in_nursery).
Local Abbreviation pin_from :=
  (conservatively_pin_objects_from ALLOC_ALIGN_BITS do_pin_stats
     ptr_in_nursery).

(** Masking a word with [~(ALLOC_ALIGN - 1)] rounds it down to a multiple
    of [ALLOC_ALIGN]. *)
Lemma align_down word :
  is_mword word ->
  Z.land word (to_mword (Z.lnot (A - 1))) = word - word mod A.
Proof.
  intros Hw. unfold ALLOC_ALIGN.
  rewrite <- (clear_low_bits (Z.of_nat ALLOC_ALIGN_BITS)) by lia.
  apply Z.bits_inj'. intros n Hn.
  rewrite !Z.land_spec, to_mword_testbit.
  destruct (Z.ltb_spec n 64); [done|].
  by rewrite (mword_high_bits word n) by (done || lia).
Qed.

Lemma align_down_bounds word :
  0 <= word ->
  word - A < word - word mod A <= word /\ (word - word mod A) mod A = 0.
Proof.
  intros Hw. pose proof (ALLOC_ALIGN_pos ALLOC_ALIGN_BITS) as Hpos.
  pose proof (Z.mod_pos_bound word A Hpos).
  split; [lia|].
  rewrite Zminus_mod_idemp_r. by rewrite Z.sub_diag.
Qed.

Lemma pin_word_staged start_nursery end_nursery pin_type st word :
  is_mword word ->
  staged (pin_word start_nursery end_nursery pin_type st word)
  = if (start_nursery <=? word) && (word <? end_nursery)
       && (start_nursery <=? word - word mod A)
    then staged st ++ [word - word mod A] else staged st.
Proof.
  intros Hw. unfold conservatively_pin_word. cbv zeta.
  rewrite align_down by done. rewrite !Z.geb_leb.
  destruct (align_down_bounds word ltac:(unfold is_mword in Hw; lia))
    as [Hb _].
  destruct (Z.leb_spec start_nursery word); simpl; [|done].
  destruct (Z.ltb_spec word end_nursery); simpl; [|done].
  destruct (Z.leb_spec start_nursery (word - word mod A)); simpl.
  - destruct (Z.ltb_spec (word - word mod A) end_nursery); [|lia].
    by destruct (do_pin_stats && _).
  - by destruct (do_pin_stats && _).
Qed.

Lemma scan_stages
    (words : list Z) (start_nursery end_nursery pin_type : Z)
    (st : StageState) :
  Forall is_mword words ->
  exists added,
    staged (pin_from words start_nursery end_nursery pin_type st)
    = staged st ++ added
    /\ (forall addr, addr ∈ added ->
          addr mod A = 0
          /\ start_nursery <= addr < end_nursery
          /\ exists word, word ∈ words
               /\ start_nursery <= word < end_nursery
               /\ addr <= word < addr + A)
    /\ (start_nursery mod A = 0 ->
        forall word, word ∈ words ->
          start_nursery <= word < end_nursery ->
          (word - word mod A) ∈ added).
Proof.
  unfold conservatively_pin_objects_from.
  revert st. induction words as [|w words IH]; intros st Hall.
  - exists []. simpl. rewrite app_nil_r. split; [done|].
    split; [intros ? H; by apply elem_of_nil in H|].
    intros _ ? H. by apply elem_of_nil in H.
  - apply Forall_cons in Hall as [Hw Hall]. simpl.
    destruct (IH (pin_word start_nursery end_nursery pin_type st w) Hall)
      as (added & Heq & Hsound & Hcomplete).
    rewrite Heq, pin_word_staged by done.
    destruct (align_down_bounds w ltac:(unfold is_mword in Hw; lia))
      as [Hb Hal].
    pose proof (ALLOC_ALIGN_pos ALLOC_ALIGN_BITS) as Hpos.
    destruct ((start_nursery <=? w) && (w <? end_nursery)
              && (start_nursery <=? w - w mod A)) eqn:E.
    + apply andb_true_iff in E as [E E3].
      apply andb_true_iff in E as [E1 E2].
      apply Z.leb_le in E1, E3. apply Z.ltb_lt in E2.
      exists ((w - w mod A) :: added). rewrite <- app_assoc.
      split; [done|]. split.
      * intros addr Hin. apply elem_of_cons in Hin as [->|Hin].
        -- split; [done|]. split; [lia|].
           exists w. split; [by left|]. lia.
        -- destruct (Hsound addr Hin) as (H1 & H2 & word & H3 & H4).
           split; [done|]. split; [done|].
           exists word. split; [by right|done].
      * intros Hstart word Hin Hrange.
        apply elem_of_cons in Hin as [->|Hin]; [by left|].
        right. by apply Hcomplete.
    + exists added. split; [done|]. split.
      * intros addr Hin.
        destruct (Hsound addr Hin) as (H1 & H2 & word & H3 & H4).
        split; [done|]. split; [done|].
        exists word. split; [by right|done].
      * intros Hstart word Hin Hrange.
        apply elem_of_cons in Hin as [->|Hin]; [|by apply Hcomplete].
        exfalso.
        assert (start_nursery <= w - w mod A).
        { pose proof (Z.div_mod start_nursery A ltac:(lia)) as Hd1.
          pose proof (Z.div_mod w A ltac:(lia)) as Hd2.
          rewrite Hstart in Hd1.
          assert (start_nursery / A <= w / A)
            by (apply Z.div_le_mono; lia).
          nia. }
        apply andb_false_iff in E as [E|E].
        -- apply andb_false_iff in E as [E|E].
           ++ apply Z.leb_gt in E. lia.
           ++ apply Z.ltb_ge in E. lia.
        -- apply Z.leb_gt in E. lia.
Qed.

Lemma pin_word_stats start_nursery end_nursery pin_type st word :
  stats (pin_word start_nursery end_nursery pin_type st word)
  = if do_pin_stats && (word >=? start_nursery) && (word <? end_nursery)
       && ptr_in_nursery
            (Z.land word (to_mword (Z.lnot (A - 1))))
    then stats st
         ++ [(Z.land word (to_mword (Z.lnot (A - 1))), pin_type)]
    else stats st.
Proof.
  unfold conservatively_pin_word. cbv zeta.
  destruct do_pin_stats, (word >=? start_nursery), (word <? end_nursery);
    simpl; try done.
  - by destruct (_ && _), (ptr_in_nursery _).
  - by destruct (_ && _).
Qed.

(** Scanning keeps what was staged before and adds, in the order of the
    scanned words, only addresses that are multiples of [ALLOC_ALIGN],
    lie in the nursery range, and are less than [ALLOC_ALIGN] below a
    scanned word that lies in the range itself.  When the nursery start
    is a multiple of [ALLOC_ALIGN], every scanned word in the range has
    its rounded-down address staged.  Without pin statistics nothing is
    registered with them. *)
Theorem conservative_scan_stages
    (words : list Z) (start_nursery end_nursery pin_type : Z)
    (st : StageState) :
  Forall is_mword words ->
  (exists added,
     staged (pin_from words start_nursery end_nursery pin_type st)
     = staged st ++ added
     /\ (forall addr, addr ∈ added ->
           addr mod A = 0
           /\ start_nursery <= addr < end_nursery
           /\ exists word, word ∈ words
                /\ start_nursery <= word < end_nursery
                /\ addr <= word < addr + A)
     /\ (start_nursery mod A = 0 ->
         forall word, word ∈ words ->
           start_nursery <= word < end_nursery ->
           (word - word mod A) ∈ added))
  /\ (do_pin_stats = false ->
      stats (pin_from words start_nursery end_nursery pin_type st)
      = stats st).
Proof.
  intros Hwords. split; [by apply scan_stages|].
  intros Hoff. unfold conservatively_pin_objects_from.
  clear Hwords. revert st.
  induction words as [|w ws IH]; intros st; simpl; [done|].
  rewrite IH, pin_word_stats, Hoff. done.
Qed.

End Scan.

Lemma conservative_scan_stages_witness :
  staged (conservatively_pin_objects_from 3 false (fun _ => false)
            [4100; 17; 4133; 8200] 4096 8192 0 (mkStage [] []))
  = [4096; 4128].
Proof.
  destruct (conservative_scan_stages 3 false (fun _ => false)
              [4100; 17; 4133; 8200] 4096 8192 0 (mkStage [] []))
    as [(added & Heq & _) _].
  - repeat constructor; unfold is_mword, mword_modulus, mword_bits; lia.
  - reflexivity.
Defined.

End ConservativeFacts.

(** ** Draining the gray stack *)

Module GrayStackFacts.

Import GrayStack WordFacts.

Section Drain.

Context {W : Type}.
Variable ops : GrayOps W.

Lemma drain_major_budget (fuel : nat) :
  forall (max_objs i : Z) (w : W),
    0 <= i <= max_objs -> max_objs < 2 ^ 31 ->
    (Z.to_nat (max_objs - i) < fuel)%nat ->
    exists r w',
      drain_major ops fuel max_objs i w = Ret (r, w')
      /\ ((r = false
           /\ scans ops (major_scan_object ops) (Z.to_nat (max_objs - i)) w w')
          \/ (r = true
              /\ exists (n : nat) w0,
                   (n < Z.to_nat (max_objs - i))%nat
                   /\ scans ops (major_scan_object ops) n w w0
                   /\ found_empty ops w0 w')).
Proof.
  induction fuel as [|fuel IH]; intros max_objs i w Hi Hmax Hfuel; [lia|].
  simpl. destruct (Z.eqb_spec i max_objs) as [->|Hne].
  - destruct (Z.ltb_spec max_objs 0); [lia|].
    exists false, w. split; [done|]. left. split; [done|].
    rewrite Z.sub_diag. constructor.
  - destruct (dequeue ops w) as [[obj|] w1] eqn:E.
    + rewrite to_int_small by lia.
      destruct (IH max_objs (i + 1) (major_scan_object ops obj w1))
        as (r & w' & Hr & Hcase); [lia|lia|lia|].
      exists r, w'. split; [done|].
      replace (Z.to_nat (max_objs - i))
        with (S (Z.to_nat (max_objs - (i + 1)))) by lia.
      destruct Hcase as [[-> Hs]|[-> (n & w0 & Hn & Hs & He)]].
      * left. split; [done|]. by econstructor.
      * right. split; [done|]. exists (S n), w0.
        split; [lia|]. split; [by econstructor|done].
    + exists true, w1. split; [done|]. right. split; [done|].
      exists 0%nat, w. split; [lia|]. split; [constructor|done].
Qed.

(** During a major collection, with a budget of [max_objs >= 0] objects
    and a queue that is not a distributed one of a parallel collection,
    the drain returns within [max_objs + 1] loop tests: [FALSE] after
    scanning exactly [max_objs] objects, without having looked whether
    more are queued, or [TRUE] after scanning fewer and then finding the
    queue empty.  A budget of zero returns [FALSE] at once and leaves the
    queue untouched. *)
Theorem drain_gray_stack_budget
    (fuel : nat) (nursery_parallel major_parallel : bool)
    (max_objs : Z) (w : W) :
  0 <= max_objs < 2 ^ 31 ->
  major_parallel && is_distributed_queue ops = false ->
  (Z.to_nat max_objs < fuel)%nat ->
  (exists r w',
     mono_sgen_drain_gray_stack ops fuel GENERATION_OLD nursery_parallel
       major_parallel max_objs w = Ret (r, w')
     /\ ((r = false
          /\ scans ops (major_scan_object ops) (Z.to_nat max_objs) w w')
         \/ (r = true
             /\ exists (n : nat) w0,
                  (n < Z.to_nat max_objs)%nat
                  /\ scans ops (major_scan_object ops) n w w0
                  /\ found_empty ops w0 w')))
  /\ (max_objs = 0 ->
      mono_sgen_drain_gray_stack ops fuel GENERATION_OLD nursery_parallel
        major_parallel max_objs w = Ret (false, w)).
Proof.
  intros Hmax Hpar Hfuel.
  unfold mono_sgen_drain_gray_stack, mono_sgen_collection_is_parallel.
  simpl. rewrite Hpar. split.
  - destruct (drain_major_budget fuel max_objs 0 w) as (r & w' & Hr & Hcase);
      [lia|lia|by rewrite Z.sub_0_r|].
    rewrite Z.sub_0_r in Hcase. by exists r, w'.
  - intros ->. destruct fuel; [simpl in Hfuel; lia|]. reflexivity.
Qed.

Lemma drain_nursery_true (fuel : nat) :
  forall (w : W) r w',
    drain_nursery ops fuel w = Ret (r, w') ->
    r = true
    /\ exists (n : nat) w0,
         (n < fuel)%nat
         /\ scans ops (minor_scan_object ops) n w w0
         /\ found_empty ops w0 w'.
Proof.
  induction fuel as [|fuel IH]; intros w r w' H; [discriminate|].
  simpl in H. destruct (dequeue ops w) as [[obj|] w1] eqn:E.
  - destruct (IH _ _ _ H) as (-> & n & w0 & Hn & Hs & He).
    split; [done|]. exists (S n), w0.
    split; [lia|]. split; [by econstructor|done].
  - injection H as <- <-. split; [done|].
    exists 0%nat, w. split; [lia|]. split; [constructor|done].
Qed.

Lemma drain_nursery_returns (n : nat) :
  forall (fuel : nat) (w w0 w' : W),
    scans ops (minor_scan_object ops) n w w0 ->
    found_empty ops w0 w' ->
    (n < fuel)%nat ->
    drain_nursery ops fuel w = Ret (true, w').
Proof.
  induction n as [|n IH]; intros fuel w w0 w' Hs He Hfuel;
    (destruct fuel as [|fuel]; [lia|]); inversion Hs; subst; simpl.
  - unfold found_empty in He. by rewrite He.
  - rewrite H0. eapply IH; [done|done|lia].
Qed.

Lemma drain_major_unbounded_true (fuel : nat) :
  forall (max_objs i : Z) (w : W) r w',
    max_objs < 0 ->
    drain_major ops fuel max_objs i w = Ret (r, w') ->
    r = true /\ exists w0, found_empty ops w0 w'.
Proof.
  induction fuel as [|fuel IH]; intros max_objs i w r w' Hneg H;
    [discriminate|].
  simpl in H. destruct (i =? max_objs).
  - destruct (Z.ltb_spec max_objs 0); [|lia]. by eapply IH.
  - destruct (dequeue ops w) as [[obj|] w1] eqn:E.
    + by eapply IH.
    + injection H as <- <-. split; [done|]. by exists w.
Qed.

(** A nursery drain ignores [max_objs]; it and a major drain with a
    negative [max_objs] never return [FALSE], and return only after a
    dequeue that found the queue empty.  The nursery drain does return
    once the queue runs empty.  Outside a collection, with the
    generation at [-1], the drain fails the assertion of
    [mono_sgen_collection_is_parallel]. *)
Theorem drain_gray_stack_until_empty
    (fuel : nat) (nursery_parallel major_parallel : bool)
    (max_objs : Z) (w : W) :
  (forall r w',
     mono_sgen_drain_gray_stack ops fuel GENERATION_NURSERY nursery_parallel
       major_parallel max_objs w = Ret (r, w') ->
     r = true
     /\ exists (n : nat) w0,
          scans ops (minor_scan_object ops) n w w0 /\ found_empty ops w0 w')
  /\ (forall (n : nat) w0 w',
        scans ops (minor_scan_object ops) n w w0 ->
        found_empty ops w0 w' ->
        (n < fuel)%nat ->
        mono_sgen_drain_gray_stack ops fuel GENERATION_NURSERY
          nursery_parallel major_parallel max_objs w = Ret (true, w'))
  /\ (max_objs < 0 ->
      major_parallel && is_distributed_queue ops = false ->
      forall r w',
        mono_sgen_drain_gray_stack ops fuel GENERATION_OLD nursery_parallel
          major_parallel max_objs w = Ret (r, w') ->
        r = true /\ exists w0, found_empty ops w0 w')
  /\ mono_sgen_drain_gray_stack ops fuel (-1) nursery_parallel
       major_parallel max_objs w = Abort AssertionFailure.
Proof.
  unfold mono_sgen_drain_gray_stack, mono_sgen_collection_is_parallel.
  simpl. split; [|split; [|split; [|done]]].
  - intros r w' H.
    destruct (drain_nursery_true _ _ _ _ H) as (-> & n & w0 & _ & Hs & He).
    split; [done|]. by exists n, w0.
  - intros n w0 w' Hs He Hfuel. by eapply drain_nursery_returns.
  - intros Hneg Hpar r w' H. rewrite Hpar in H.
    by eapply drain_major_unbounded_true.
Qed.

End Drain.

(** A queue held as a list, most recent entry first; scanning object
    [n > 0] enqueues [n - 1]. *)
Definition demo_ops : GrayOps (list Z) :=
  {| dequeue := fun w => match w with
                         | [] => (None, [])
                         | obj :: w' => (Some obj, w')
                         end;
     minor_scan_object := fun obj w => if 0 <? obj then (obj - 1) :: w else w;
     major_scan_object := fun obj w => if 0 <? obj then (obj - 1) :: w else w;
     is_distributed_queue := false |}.

Lemma drain_gray_stack_budget_witness :
  mono_sgen_drain_gray_stack demo_ops 4 GENERATION_OLD false true 0 [3]
  = Ret (false, [3])
  /\ exists r w',
       mono_sgen_drain_gray_stack demo_ops 4 GENERATION_OLD false true 2 [3]
       = Ret (r, w').
Proof.
  split.
  - apply (drain_gray_stack_budget demo_ops 4 false true 0 [3]);
      [lia|reflexivity|lia|reflexivity].
  - destruct (drain_gray_stack_budget demo_ops 4 false true 2 [3])
      as [(r & w' & H & _) _]; [lia|reflexivity|lia|].
    by exists r, w'.
Defined.

End GrayStackFacts.

(** ** Heap boundaries *)

Module HeapBoundariesFacts.

Import HeapBoundaries.

Lemma lower_lowest_alone low cell : lower_lowest low [] cell = Z.min low cell.
Proof.
  simpl. rewrite Z.geb_leb. destruct (Z.leb_spec cell low); [lia|].
  rewrite Z.eqb_refl. lia.
Qed.

Lemma raise_highest_alone high cell :
  raise_highest high [] cell = Z.max high cell.
Proof.
  simpl. destruct (Z.leb_spec high cell); [lia|].
  rewrite Z.eqb_refl. lia.
Qed.

Lemma lower_lowest_bound low others :
  forall cell,
    lower_lowest low others cell <= low
    /\ forall bound, cell <= bound -> Forall (fun v => v <= bound) (stores others) ->
         lower_lowest low others cell <= bound.
Proof.
  induction others as [|other others IH]; intros cell.
  - rewrite lower_lowest_alone. split; [lia|]. intros; lia.
  - simpl. rewrite Z.geb_leb.
    destruct (Z.leb_spec cell low) as [Hle|Hgt].
    { split; [lia|]. by intros. }
    destruct other as [v|]; unfold SGEN_CAS_PTR; simpl.
    + destruct (Z.eqb_spec v cell) as [->|Hne].
      * split; [lia|]. intros; lia.
      * destruct (IH v) as [H1 H2]. split; [done|].
        intros bound Hb Hall. apply Forall_cons in Hall as [Hv Hall].
        by apply H2.
    + rewrite !Z.eqb_refl. split; [lia|]. intros; lia.
Qed.

Lemma raise_highest_bound high others :
  forall cell,
    high <= raise_highest high others cell
    /\ forall bound, bound <= cell -> Forall (fun v => bound <= v) (stores others) ->
         bound <= raise_highest high others cell.
Proof.
  induction others as [|other others IH]; intros cell.
  - rewrite raise_highest_alone. split; [lia|]. intros; lia.
  - simpl.
    destruct (Z.leb_spec high cell) as [Hle|Hgt].
    { split; [lia|]. by intros. }
    destruct other as [v|]; unfold SGEN_CAS_PTR; simpl.
    + destruct (Z.eqb_spec v cell) as [->|Hne].
      * split; [lia|]. intros; lia.
      * destruct (IH v) as [H1 H2]. split; [done|].
        intros bound Hb Hall. apply Forall_cons in Hall as [Hv Hall].
        by apply H2.
    + rewrite !Z.eqb_refl. split; [lia|]. intros; lia.
Qed.

(** With no other thread in between, an update widens the recorded range
    just enough to take in [[low, high]]; the first update after a reset
    records exactly [[low, high]]. *)
Theorem update_heap_boundaries_alone (low high : Z) (b : Boundaries) :
  mono_sgen_update_heap_boundaries low high [] [] b
  = {| lowest_heap_address := Z.min low (lowest_heap_address b);
       highest_heap_address := Z.max high (highest_heap_address b) |}
  /\ (is_mword low -> is_mword high ->
      mono_sgen_update_heap_boundaries low high [] [] reset_heap_boundaries
      = {| lowest_heap_address := low; highest_heap_address := high |}).
Proof.
  unfold mono_sgen_update_heap_boundaries.
  rewrite !lower_lowest_alone, !raise_highest_alone. split; [done|].
  intros [Hl1 Hl2] [Hh1 Hh2].
  change (lowest_heap_address reset_heap_boundaries)
    with 18446744073709551615.
  change (highest_heap_address reset_heap_boundaries) with 0.
  change mword_modulus with 18446744073709551616 in *.
  f_equal; lia.
Qed.

Lemma update_heap_boundaries_alone_witness :
  mono_sgen_update_heap_boundaries 4096 8192 [] [] reset_heap_boundaries
  = {| lowest_heap_address := 4096; highest_heap_address := 8192 |}.
Proof.
  apply (update_heap_boundaries_alone 4096 8192 reset_heap_boundaries);
    unfold is_mword, mword_modulus, mword_bits; lia.
Defined.

(** Whatever other threads store between the reads and the
    compare-and-swaps, the range recorded when the update returns takes in
    [[low, high]]; and if the other threads only store values that widen
    the range the update started from, the range has not shrunk. *)
Theorem update_heap_boundaries_covers
    (low high : Z) (others_low others_high : list (option Z))
    (b : Boundaries) :
  let b' :=
    mono_sgen_update_heap_boundaries low high others_low others_high b in
  lowest_heap_address b' <= low
  /\ high <= highest_heap_address b'
  /\ (Forall (fun v => v <= lowest_heap_address b) (stores others_low) ->
      lowest_heap_address b' <= lowest_heap_address b)
  /\ (Forall (fun v => highest_heap_address b <= v) (stores others_high) ->
      highest_heap_address b <= highest_heap_address b').
Proof.
  simpl.
  destruct (lower_lowest_bound low others_low (lowest_heap_address b))
    as [H1 H2].
  destruct (raise_highest_bound high others_high (highest_heap_address b))
    as [H3 H4].
  split; [done|]. split; [done|]. split.
  - intros Hall. by apply H2.
  - intros Hall. by apply H4.
Qed.

Lemma update_heap_boundaries_covers_witness :
  lowest_heap_address
    (mono_sgen_update_heap_boundaries 4096 8192 [Some 2048; None] [Some 9000]
       {| lowest_heap_address := 6000; highest_heap_address := 7000 |})
  < 6001
  /\ 8191
     < highest_heap_address
         (mono_sgen_update_heap_boundaries 4096 8192 [Some 2048; None]
            [Some 9000]
            {| lowest_heap_address := 6000; highest_heap_address := 7000 |}).
Proof.
  destruct (update_heap_boundaries_covers 4096 8192 [Some 2048; None]
              [Some 9000]
              {| lowest_heap_address := 6000; highest_heap_address := 7000 |})
    as (_ & H2 & H3 & _).
  split; [|lia].
  assert (Hall : Forall (fun v => v <= 6000) (stores [Some 2048; None]))
    by (repeat constructor; lia).
  eapply Z.le_lt_trans; [apply H3; exact Hall | reflexivity].
Defined.

End HeapBoundariesFacts.

(** ** Write barriers and the remembered set *)

Module BarrierCopyFacts.

Import Barriers BarrierCopy WordFacts.

Lemma spec_remset_records : remset_records spec_remset.
Proof.
  split; intros; simpl; try done;
    rewrite elem_of_app, list_elem_of_singleton; tauto.
Qed.

Section Invariant.

Variable ptr_in_nursery : Z -> bool.
Variable ptr_on_stack : Z -> bool.
Variable remset : RemsetOps.

Hypothesis Hremset : remset_records remset.

Local Abbreviation covered := (covered ptr_in_nursery ptr_on_stack).

Lemma generic_nostore_memory ptr s a :
  memory (mono_gc_wbarrier_generic_nostore ptr_in_nursery ptr_on_stack
            remset ptr s) a
  = memory s a.
Proof.
  unfold mono_gc_wbarrier_generic_nostore.
  destruct (_ || _); [done|]. apply (nostore_stores _ Hremset).
Qed.

Lemma generic_store_memory ptr value s a :
  memory (mono_gc_wbarrier_generic_store ptr_in_nursery ptr_on_stack
            remset ptr value s) a
  = if a =? ptr then value else memory s a.
Proof.
  unfold mono_gc_wbarrier_generic_store. cbv zeta.
  destruct (ptr_in_nursery value); [|done].
  by rewrite generic_nostore_memory.
Qed.

Lemma generic_store_remembered ptr value s x :
  x ∈ remembered (mono_gc_wbarrier_generic_store ptr_in_nursery ptr_on_stack
                    remset ptr value s)
  <-> x ∈ remembered s
      \/ (x = ptr /\ ptr_in_nursery value = true
          /\ ptr_in_nursery ptr = false /\ ptr_on_stack ptr = false).
Proof.
  unfold mono_gc_wbarrier_generic_store, mono_gc_wbarrier_generic_nostore.
  cbv zeta. simpl. rewrite Z.eqb_refl.
  destruct (ptr_in_nursery value) eqn:Hv; simpl;
    [|split; [by left | intros [?|(_ & ? & _)]; [done|discriminate]]].
  destruct (ptr_in_nursery ptr) eqn:Hp; simpl;
    [split; [by left | intros [?|(_ & _ & ? & _)]; [done|discriminate]]|].
  destruct (ptr_on_stack ptr) eqn:Hs; simpl;
    [split; [by left | intros [?|(_ & _ & _ & ?)]; [done|discriminate]]|].
  rewrite (nostore_records _ Hremset). simpl. tauto.
Qed.

(** The three storing barriers keep the remembered set complete: if
    every slot outside the nursery and the stack that holds a nursery
    pointer is remembered before the call, the same is true after it. *)
Theorem barriers_keep_covered (obj slot value : Z) (s : BarrierState) :
  covered s ->
  covered (mono_gc_wbarrier_set_field ptr_in_nursery remset obj slot value s)
  /\ covered (mono_gc_wbarrier_set_arrayref ptr_in_nursery remset
                obj slot value s)
  /\ covered (mono_gc_wbarrier_generic_store ptr_in_nursery ptr_on_stack
                remset slot value s).
Proof.
  intros Hcov. split; [|split].
  - unfold mono_gc_wbarrier_set_field. intros a Ha Hs Hm.
    destruct (ptr_in_nursery slot) eqn:Hslot.
    + simpl in *. destruct (Z.eqb_spec a slot) as [->|Hne]; [congruence|].
      by apply Hcov.
    + rewrite (set_field_stores _ Hremset) in Hm.
      apply (set_field_records _ Hremset). simpl in Hm.
      destruct (Z.eqb_spec a slot) as [->|Hne]; [by right|].
      left. by apply Hcov.
  - unfold mono_gc_wbarrier_set_arrayref. intros a Ha Hs Hm.
    destruct (ptr_in_nursery slot) eqn:Hslot.
    + simpl in *. destruct (Z.eqb_spec a slot) as [->|Hne]; [congruence|].
      by apply Hcov.
    + rewrite (set_arrayref_stores _ Hremset) in Hm.
      apply (set_arrayref_records _ Hremset). simpl in Hm.
      destruct (Z.eqb_spec a slot) as [->|Hne]; [by right|].
      left. by apply Hcov.
  - intros a Ha Hs Hm. rewrite generic_store_memory in Hm.
    apply generic_store_remembered.
    destruct (Z.eqb_spec a slot) as [->|Hne]; [by right|].
    left. by apply Hcov.
Qed.

Local Abbreviation copy_bitmap :=
  (mono_gc_wbarrier_value_copy_bitmap ptr_in_nursery ptr_on_stack remset).

Lemma copy_bitmap_step fuel dest src size bitmap s :
  size <> 0 ->
  copy_bitmap (S fuel) dest src size bitmap s
  = let s :=
      if negb (Z.land bitmap 1 =? 0)
      then mono_gc_wbarrier_generic_store ptr_in_nursery ptr_on_stack
             remset dest (memory s src) s
      else store dest (memory s src) s in
    copy_bitmap fuel (to_mword (dest + SIZEOF_VOID_P))
      (to_mword (src + SIZEOF_VOID_P)) (to_int (size - SIZEOF_VOID_P))
      (Z.shiftr bitmap 1) s.
Proof.
  intros H. simpl. by destruct (Z.eqb_spec size 0).
Qed.

Lemma low_bit bitmap :
  negb (Z.land bitmap 1 =? 0) = Z.testbit bitmap 0.
Proof.
  change 1 with (Z.ones 1). rewrite Z.land_ones by lia.
  change (2 ^ 1) with 2. rewrite <- Z.bit0_mod.
  by destruct (Z.testbit bitmap 0).
Qed.

(** Copying [n] words from a source that does not overlap the
    destination returns with the source words in the destination and
    every other word untouched.  The slots that enter the remembered set
    are exactly the destination words whose bit of the bitmap is set,
    that received a nursery pointer and that lie outside the nursery and
    the stack. *)
Theorem value_copy_bitmap_copies (n : nat) :
  forall (fuel : nat) (dest src bitmap : Z) (s : BarrierState),
  Z.of_nat n < 2 ^ 28 ->
  (n <= fuel)%nat ->
  0 <= dest -> dest + 8 * Z.of_nat n < mword_modulus ->
  0 <= src -> src + 8 * Z.of_nat n < mword_modulus ->
  dest + 8 * Z.of_nat n <= src \/ src + 8 * Z.of_nat n <= dest ->
  exists s',
    copy_bitmap fuel dest src (8 * Z.of_nat n) bitmap s = Ret s'
    /\ (forall i, 0 <= i < Z.of_nat n ->
          memory s' (dest + 8 * i) = memory s (src + 8 * i))
    /\ (forall a, (forall i, 0 <= i < Z.of_nat n -> a <> dest + 8 * i) ->
          memory s' a = memory s a)
    /\ (forall x,
          x ∈ remembered s'
          <-> x ∈ remembered s
              \/ exists i,
                   0 <= i < Z.of_nat n /\ x = dest + 8 * i
                   /\ Z.testbit bitmap i = true
                   /\ ptr_in_nursery (memory s (src + 8 * i)) = true
                   /\ ptr_in_nursery x = false
                   /\ ptr_on_stack x = false).
Proof.
  induction n as [|n IH];
    intros fuel dest src bitmap s Hn Hfuel Hd0 Hd Hs0 Hs Hdisj.
  - exists s. split; [by destruct fuel|]. split; [intros; lia|].
    split; [done|]. intros x. split; [by left|].
    intros [?|(i & ? & _)]; [done|lia].
  - destruct fuel as [|fuel]; [lia|].
    rewrite copy_bitmap_step by lia. cbv zeta.
    set (s1 := if negb (Z.land bitmap 1 =? 0)
               then mono_gc_wbarrier_generic_store ptr_in_nursery
                      ptr_on_stack remset dest (memory s src) s
               else store dest (memory s src) s).
    assert (Hm1 : forall a,
              memory s1 a = if a =? dest then memory s src else memory s a).
    { intros a. subst s1. destruct (negb _); [|done].
      apply generic_store_memory. }
    assert (Hr1 : forall x,
              x ∈ remembered s1
              <-> x ∈ remembered s
                  \/ (x = dest /\ Z.testbit bitmap 0 = true
                      /\ ptr_in_nursery (memory s src) = true
                      /\ ptr_in_nursery dest = false
                      /\ ptr_on_stack dest = false)).
    { intros x. subst s1. rewrite low_bit.
      destruct (Z.testbit bitmap 0).
      - rewrite generic_store_remembered. tauto.
      - simpl. split; [by left|].
        intros [?|(_ & ? & _)]; [done|discriminate]. }
    clearbody s1.
    unfold SIZEOF_VOID_P.
    rewrite !to_mword_small by (unfold is_mword; lia).
    rewrite to_int_small by lia.
    replace (8 * Z.of_nat (S n) - 8) with (8 * Z.of_nat n) by lia.
    destruct (IH fuel (dest + 8) (src + 8) (Z.shiftr bitmap 1) s1)
      as (s' & Hr & Hcopy & Hrest & Hrem); try lia.
    exists s'. split; [done|]. split; [|split].
    + intros i Hi. destruct (decide (i = 0)) as [->|Hi0].
      * rewrite !Z.mul_0_r, !Z.add_0_r.
        rewrite Hrest by (intros; lia).
        by rewrite Hm1, Z.eqb_refl.
      * replace (dest + 8 * i) with (dest + 8 + 8 * (i - 1)) by lia.
        rewrite Hcopy by lia. rewrite Hm1.
        destruct (Z.eqb_spec (src + 8 + 8 * (i - 1)) dest); [lia|].
        f_equal. lia.
    + intros a Ha. rewrite Hrest.
      * rewrite Hm1. destruct (Z.eqb_spec a dest) as [->|]; [|done].
        specialize (Ha 0 ltac:(lia)). lia.
      * intros i Hi. specialize (Ha (i + 1) ltac:(lia)). lia.
    + intros x. rewrite Hrem, Hr1. split.
      * intros [[?|(-> & Hb & Hv & Hp & Hst)]|(i & Hi & -> & Hb & Hv & Hp & Hst)].
        -- by left.
        -- right. exists 0. rewrite Z.mul_0_r, !Z.add_0_r.
           split; [lia|]. by repeat split.
        -- right. exists (i + 1). split; [lia|]. split; [lia|].
           rewrite Z.shiftr_spec in Hb by lia. rewrite Hm1 in Hv.
           destruct (Z.eqb_spec (src + 8 + 8 * i) dest); [lia|].
           replace (src + 8 * (i + 1)) with (src + 8 + 8 * i) by lia.
           by repeat split.
      * intros [?|(i & Hi & -> & Hb & Hv & Hp & Hst)]; [by left; left|].
        destruct (decide (i = 0)) as [->|Hi0].
        -- left. right. rewrite Z.mul_0_r, !Z.add_0_r in *.
           by repeat split.
        -- right. exists (i - 1). split; [lia|]. split; [lia|].
           rewrite Z.shiftr_spec by lia. rewrite Hm1.
           destruct (Z.eqb_spec (src + 8 + 8 * (i - 1)) dest); [lia|].
           replace (i - 1 + 1) with i by lia.
           replace (src + 8 + 8 * (i - 1)) with (src + 8 * i) by lia.
           replace (dest + 8 + 8 * (i - 1)) with (dest + 8 * i) by lia.
           by repeat split.
Qed.

(** A size that is not a multiple of the word size steps over zero: the
    loop never meets its exit test, however long it runs. *)
Theorem value_copy_bitmap_misses_zero
    (fuel : nat) (dest src size bitmap : Z) (s : BarrierState) :
  size mod 8 <> 0 ->
  copy_bitmap fuel dest src size bitmap s = Abort FuelExhausted.
Proof.
  revert dest src size bitmap s.
  induction fuel as [|fuel IH]; intros dest src size bitmap s Hsize.
  - simpl. destruct (Z.eqb_spec size 0) as [->|]; [|done].
    by rewrite Z.mod_0_l in Hsize.
  - rewrite copy_bitmap_step
      by (intros ->; by rewrite Z.mod_0_l in Hsize).
    cbv zeta. apply IH. rewrite to_int_mod8. unfold SIZEOF_VOID_P.
    replace (size - 8) with (size + (-1) * 8) by lia.
    by rewrite Z.mod_add.
Qed.

End Invariant.

Lemma barriers_keep_covered_witness :
  covered demo_in_nursery demo_on_stack demo_state
  /\ covered demo_in_nursery demo_on_stack
       (mono_gc_wbarrier_generic_store demo_in_nursery demo_on_stack
          spec_remset 1048576 4104 demo_state).
Proof.
  assert (H : covered demo_in_nursery demo_on_stack demo_state)
    by (intros slot _ _ H; discriminate H).
  split; [exact H|].
  apply (barriers_keep_covered demo_in_nursery demo_on_stack spec_remset
           spec_remset_records 0 1048576 4104 demo_state H).
Defined.

(** Two words at 8192, the first a nursery pointer. *)
Definition demo_memory : BarrierState :=
  {| memory := fun a => if a =? 8192 then 4104 else if a =? 8200 then 7 else 0;
     remembered := []; history := [] |}.

Lemma value_copy_bitmap_copies_witness :
  exists s',
    mono_gc_wbarrier_value_copy_bitmap demo_in_nursery demo_on_stack
      spec_remset 2 1048576 8192 16 1 demo_memory = Ret s'
    /\ memory s' 1048576 = 4104
    /\ memory s' 1048584 = 7.
Proof.
  destruct (value_copy_bitmap_copies demo_in_nursery demo_on_stack
              spec_remset spec_remset_records 2 2 1048576 8192 1 demo_memory)
    as (s' & Hr & Hcopy & _);
    try (change mword_modulus with 18446744073709551616; lia).
  exists s'. split; [exact Hr|]. split.
  - apply (Hcopy 0). lia.
  - apply (Hcopy 1). lia.
Defined.

Lemma value_copy_bitmap_misses_zero_witness :
  mono_gc_wbarrier_value_copy_bitmap demo_in_nursery demo_on_stack
    spec_remset 5 1048576 8192 12 1 demo_memory = Abort FuelExhausted.
Proof.
  apply (value_copy_bitmap_misses_zero demo_in_nursery demo_on_stack
           spec_remset 5 1048576 8192 12 1 demo_memory).
  discriminate.
Defined.

End BarrierCopyFacts.

(** ** The collection entry points *)

Module CollectionsFacts.

Import Collector Collections.

Section Entry.

Context {World : Type}.
Variable major_collector : MajorCollector World.
Variable phases : NurseryPhases World.
Variable disable_major_collections : bool.
Variable ops : WorldOps World.

Local Abbreviation at_rest :=
  (fun s : CollectionState World => current_collection_generation (gc s) = -1).

Lemma collect_nursery_rests size (g g' : GCState World) r :
  current_collection_generation g = -1 ->
  collect_nursery major_collector phases size g = Ret (r, g') ->
  current_collection_generation g' = -1.
Proof.
  intros Hg. unfold collect_nursery.
  destruct (disable_minor_collections g); [by intros [= _ <-]|].
  destruct (nursery_collection major_collector phases g); [|discriminate].
  simpl. by intros [= _ <-].
Qed.

Lemma collect_nursery_only_rests (s s' : CollectionState World) :
  at_rest s ->
  collect_nursery_only major_collector phases s = Ret s' ->
  at_rest s'.
Proof.
  intros Hs. unfold collect_nursery_only.
  destruct (collect_nursery _ _ _ _) as [[r g]|] eqn:E; [|discriminate].
  simpl. intros [= <-]. simpl.
  eapply collect_nursery_rests; [exact Hs | exact E].
Qed.

Lemma major_collection_rests (s s' : CollectionState World) :
  at_rest s ->
  major_collection major_collector phases disable_major_collections ops s
    = Ret s' ->
  at_rest s'.
Proof.
  intros Hs. unfold major_collection.
  destruct disable_major_collections; [by apply collect_nursery_only_rests|].
  destruct (major_do_collection _ _) as [[need g]|]; [|discriminate].
  simpl. destruct need.
  - by apply collect_nursery_only_rests.
  - by intros [= <-].
Qed.

Lemma stop_world_rests generation (s s' : CollectionState World) :
  at_rest s -> stop_world ops generation s = Ret s' ->
  at_rest s' /\ major_collection_happened s' = false
  /\ disable_minor_collections (gc s') = disable_minor_collections (gc s).
Proof.
  intros Hs. unfold stop_world.
  destruct (stop_threads _ _ _); [|discriminate].
  simpl. by intros [= <-].
Qed.

(** Between collections [current_collection_generation] is [-1]: every
    entry point that starts with it at [-1] and returns leaves it at
    [-1], whatever the collectors do in between. *)
Theorem entry_points_leave_generation_at_rest
    (generation nursery_section size : Z) (s : CollectionState World) :
  current_collection_generation (gc s) = -1 ->
  (forall s',
     mono_gc_collect major_collector phases disable_major_collections ops
       generation s = Ret s' ->
     current_collection_generation (gc s') = -1)
  /\ (forall s',
        sgen_collect_major_no_lock major_collector phases
          disable_major_collections ops s = Ret s' ->
        current_collection_generation (gc s') = -1)
  /\ (forall s',
        minor_collect_or_expand_inner major_collector phases
          disable_major_collections ops nursery_section size s = Ret s' ->
        current_collection_generation (gc s') = -1).
Proof.
  intros Hs. split; [|split]; intros s'.
  - unfold mono_gc_collect. cbv zeta.
    destruct (stop_world _ _ _) as [s1|] eqn:E1; [|discriminate].
    apply stop_world_rests in E1 as (H1 & _); [|done]. simpl.
    destruct (_ =? 0).
    + destruct (collect_nursery_only _ _ _) as [s2|] eqn:E2; [|discriminate].
      simpl. intros [= <-]. simpl.
      by apply (collect_nursery_only_rests s1 s2).
    + destruct (major_collection _ _ _ _ _) as [s2|] eqn:E2; [|discriminate].
      simpl. intros [= <-]. simpl.
      by apply (major_collection_rests s1 s2).
  - unfold sgen_collect_major_no_lock.
    destruct (stop_world _ _ _) as [s1|] eqn:E1; [|discriminate].
    apply stop_world_rests in E1 as (H1 & _); [|done]. simpl.
    destruct (major_collection _ _ _ _ _) as [s2|] eqn:E2; [|discriminate].
    simpl. intros [= <-]. simpl.
    by apply (major_collection_rests s1 s2).
  - unfold minor_collect_or_expand_inner.
    destruct (nursery_section =? 0); [discriminate|].
    destruct (stop_world _ _ _) as [s1|] eqn:E1; [|discriminate].
    apply stop_world_rests in E1 as (H1 & _); [|done]. simpl.
    destruct (collect_nursery _ _ _ _) as [[overflow g]|] eqn:E2;
      [|discriminate].
    simpl. apply collect_nursery_rests in E2; [|done].
    set (s2 := {| gc := g; major_collection_happened := _ |}).
    assert (H2 : at_rest s2) by done.
    destruct (if overflow then _ else _) as [s3|] eqn:E3; [|discriminate].
    assert (H3 : at_rest s3).
    { destruct overflow.
      - by apply (major_collection_rests s2 s3).
      - by injection E3 as <-. }
    simpl. destruct (mono_sgen_can_alloc_size _ _ _) as [fits w].
    intros [= <-]. simpl. by destruct fits.
Qed.

(** When [mono_gc_collect] returns, [major_collection_happened] tells
    whether the body of the major collector ran: it is set exactly for a
    generation other than 0 with major collections enabled.  Generations
    above 1 are collected as generation 1. *)
Theorem collect_records_major
    (generation : Z) (s s' : CollectionState World) :
  mono_gc_collect major_collector phases disable_major_collections ops
    generation s = Ret s' ->
  major_collection_happened s'
  = negb (generation =? 0) && negb disable_major_collections
  /\ (1 < generation ->
      mono_gc_collect major_collector phases disable_major_collections ops
        1 s = Ret s').
Proof.
  intros H. split.
  - revert H. unfold mono_gc_collect. cbv zeta.
    assert (Hgen : ((if generation >? 1 then 1 else generation) =? 0)
                   = (generation =? 0)).
    { destruct (Z.gtb_spec generation 1); [|done].
      by destruct (Z.eqb_spec generation 0); [lia|]. }
    rewrite Hgen.
    destruct (stop_world _ _ _) as [s1|] eqn:E1; [|discriminate].
    assert (H1 : major_collection_happened s1 = false).
    { revert E1. unfold stop_world.
      destruct (stop_threads _ _ _); [|discriminate].
      simpl. by intros [= <-]. }
    simpl. destruct (generation =? 0); simpl.
    + unfold collect_nursery_only.
      destruct (collect_nursery _ _ _ _) as [[r g]|]; [|discriminate].
      simpl. by intros [= <-].
    + unfold major_collection, collect_nursery_only.
      destruct disable_major_collections; simpl.
      * destruct (collect_nursery _ _ _ _) as [[r g]|]; [|discriminate].
        simpl. by intros [= <-].
      * destruct (major_do_collection _ _) as [[need g]|]; [|discriminate].
        simpl. destruct need; simpl.
        -- destruct (collect_nursery _ _ _ _) as [[r g']|]; [|discriminate].
           simpl. by intros [= <-].
        -- by intros [= <-].
  - intros Hgt. revert H. unfold mono_gc_collect. cbv zeta.
    by destruct (Z.gtb_spec generation 1); [|lia].
Qed.

(** With minor and major collections both disabled no collector runs:
    [mono_gc_collect] only stops and restarts the world, and a failed
    nursery allocation goes to degraded mode as soon as the allocator
    still cannot serve it. *)
Theorem disabled_collections_collect_nothing
    (generation nursery_section size : Z) (s : CollectionState World)
    (w : World) :
  disable_minor_collections (gc s) = true ->
  disable_major_collections = true ->
  generation <= 1 ->
  nursery_section <> 0 ->
  (stop_threads ops generation (world (gc s)) = Ret w ->
   mono_gc_collect major_collector phases disable_major_collections ops
     generation s
   = Ret {| gc := set_world (restart_threads ops generation w) (gc s);
            major_collection_happened := false |})
  /\ (stop_threads ops 0 (world (gc s)) = Ret w ->
      minor_collect_or_expand_inner major_collector phases
        disable_major_collections ops nursery_section size s
      = Ret {| gc :=
                 (let '(fits, w') :=
                    mono_sgen_can_alloc_size ops size
                      (restart_threads ops 0 w) in
                  if fits then set_world w' (gc s)
                  else set_degraded_mode 1 (set_world w' (gc s)));
               major_collection_happened := false |}).
Proof.
  intros Hminor -> Hgen Hsection. split; intros Hstop.
  - unfold mono_gc_collect. cbv zeta.
    destruct (Z.gtb_spec generation 1); [lia|].
    unfold stop_world. rewrite Hstop. simpl.
    unfold major_collection, collect_nursery_only, collect_nursery. simpl.
    rewrite Hminor.
    destruct (generation =? 0); simpl; unfold restart_world; simpl;
      by destruct s as [[]].
  - unfold minor_collect_or_expand_inner.
    destruct (Z.eqb_spec nursery_section 0); [done|].
    unfold stop_world. rewrite Hstop. simpl.
    unfold collect_nursery at 1. simpl. rewrite Hminor. simpl.
    unfold major_collection, collect_nursery_only, collect_nursery. simpl.
    rewrite Hminor. simpl.
    destruct (mono_sgen_can_alloc_size _ _ _) as [fits w'].
    destruct s as [[]]. simpl in *. by destruct fits.
Qed.

End Entry.

(** A world without threads, a major collector that asks for no nursery
    collection and an allocator that never finds room. *)
Definition demo_ops : WorldOps unit :=
  {| stop_threads := fun _ w => Ret w;
     restart_threads := fun _ w => w;
     major_do_collection := fun g => Ret (false, g);
     mono_sgen_can_alloc_size := fun _ w => (false, w) |}.

Definition demo_collection (disabled : bool) : CollectionState unit :=
  {| gc := CollectorFacts.demo_state 0 disabled;
     major_collection_happened := true |}.

Lemma entry_points_leave_generation_at_rest_witness :
  exists s',
    mono_gc_collect (CollectorFacts.demo_major 1) NurseryFacts.idle_phases
      false demo_ops 1 (demo_collection false) = Ret s'
    /\ current_collection_generation (gc s') = -1.
Proof.
  destruct (entry_points_leave_generation_at_rest
              (CollectorFacts.demo_major 1) NurseryFacts.idle_phases false
              demo_ops 1 1 0 (demo_collection false) eq_refl) as (H & _).
  eexists. split; [reflexivity|]. apply H. reflexivity.
Defined.

Lemma collect_records_major_witness :
  exists s',
    mono_gc_collect (CollectorFacts.demo_major 1) NurseryFacts.idle_phases
      false demo_ops 2 (demo_collection false) = Ret s'
    /\ major_collection_happened s' = true.
Proof.
  eexists. split; [reflexivity|].
  apply (collect_records_major (CollectorFacts.demo_major 1)
           NurseryFacts.idle_phases false demo_ops 2 (demo_collection false)).
  reflexivity.
Defined.

Lemma disabled_collections_collect_nothing_witness :
  exists s',
    minor_collect_or_expand_inner (CollectorFacts.demo_major 1)
      NurseryFacts.idle_phases true demo_ops 4096 64 (demo_collection true)
    = Ret s'
    /\ degraded_mode (gc s') = 1.
Proof.
  destruct (disabled_collections_collect_nothing
              (CollectorFacts.demo_major 1) NurseryFacts.idle_phases true
              demo_ops 0 4096 64 (demo_collection true) tt)
    as [_ H]; [reflexivity|reflexivity|lia|lia|].
  eexists. split; [apply H; reflexivity|]. reflexivity.
Defined.

End CollectionsFacts.

(** ** Running the ready finalizers *)

Module FinalizersFacts.

Import Finalizers WordFacts.

Lemma to_int_sub_l a b : to_int (to_int a - b) = to_int (a - b).
Proof.
  unfold to_int. f_equal.
  replace ((a + 2 ^ 31) mod 2 ^ 32 - 2 ^ 31 - b + 2 ^ 31)
    with ((a + 2 ^ 31) mod 2 ^ 32 + (- b)) by lia.
  rewrite Zplus_mod_idemp_l. f_equal. lia.
Qed.

Lemma to_int_add_l a b : to_int (to_int a + b) = to_int (a + b).
Proof.
  unfold to_int. f_equal.
  replace ((a + 2 ^ 31) mod 2 ^ 32 - 2 ^ 31 + b + 2 ^ 31)
    with ((a + 2 ^ 31) mod 2 ^ 32 + b) by lia.
  rewrite Zplus_mod_idemp_l. f_equal. lia.
Qed.

Lemma to_int_idem a : to_int (to_int a) = to_int a.
Proof.
  rewrite <- (Z.add_0_r (to_int a)) at 1.
  rewrite to_int_add_l. by rewrite Z.add_0_r.
Qed.

Lemma claim_first_none l :
  claim_first l = None -> ready_objects l = [] /\ spent l = l.
Proof.
  unfold ready_objects, spent, has_object.
  induction l as [|e l IH]; simpl; [done|].
  destruct (object e =? 0); [|discriminate]. simpl.
  destruct (claim_first l) as [[x l']|]; [discriminate|].
  intros _. destruct IH as [H1 H2]; [done|]. by rewrite H2.
Qed.

Lemma claim_first_some l e l' :
  claim_first l = Some (e, l') ->
  exists l1 l2,
    l = l1 ++ e :: l2
    /\ l' = l1 ++ mkEntry (entry_addr e) 0 :: l2
    /\ ready_objects l1 = [] /\ spent l1 = l1
    /\ has_object e = true.
Proof.
  unfold ready_objects, spent, has_object.
  revert l'. induction l as [|x l IH]; intros l'; simpl; [done|].
  destruct (object x =? 0) eqn:E.
  - destruct (claim_first l) as [[y l'']|]; [|discriminate].
    intros [= -> <-].
    destruct (IH l'' eq_refl) as (l1 & l2 & -> & -> & H1 & H2 & H3).
    exists (x :: l1), l2. simpl. rewrite E. simpl. by rewrite H2.
  - intros [= <- <-]. exists [], l. simpl. by rewrite E.
Qed.

Lemma ready_objects_none l :
  ready_objects l = [] -> claim_first l = None /\ spent l = l.
Proof.
  unfold ready_objects, spent, has_object.
  induction l as [|e l IH]; simpl; [done|].
  destruct (object e =? 0); [|discriminate]. simpl.
  intros H. destruct (IH H) as [-> ->]. done.
Qed.

Lemma unlink_middle (l1 l2 : list FinalizeReadyEntry) x :
  entry_addr x ∉ map entry_addr l1 ->
  unlink (entry_addr x) (l1 ++ x :: l2) = Ret (l1 ++ l2).
Proof.
  induction l1 as [|e l1 IH]; simpl; intros Hnot.
  - by rewrite Z.eqb_refl.
  - apply not_elem_of_cons in Hnot as [Hne Hnot].
    destruct (Z.eqb_spec (entry_addr e) (entry_addr x)); [done|].
    by rewrite IH.
Qed.

Lemma ready_objects_app l1 l2 :
  ready_objects (l1 ++ l2) = ready_objects l1 ++ ready_objects l2.
Proof. unfold ready_objects. by rewrite List.filter_app, map_app. Qed.

Lemma spent_app l1 l2 : spent (l1 ++ l2) = spent l1 ++ spent l2.
Proof. unfold spent. by rewrite List.filter_app. Qed.

Lemma has_object_split e :
  has_object e = true ->
  ready_objects [e] = [object e] /\ spent [e] = [].
Proof.
  unfold ready_objects, spent, has_object. simpl.
  by destruct (object e =? 0).
Qed.

Lemma spent_addr l x :
  x ∈ map entry_addr (spent l) -> x ∈ map entry_addr l.
Proof.
  unfold spent. induction l as [|e l IH]; simpl; [done|].
  destruct (object e =? 0); simpl.
  - intros [->|H]%elem_of_cons; [by left|]. right. by apply IH.
  - intros H. right. by apply IH.
Qed.

Lemma NoDup_spent l :
  NoDup (map entry_addr l) -> NoDup (map entry_addr (spent l)).
Proof.
  induction l as [|e l IH]; simpl; [done|].
  intros [H1 H2]%NoDup_cons. unfold spent. simpl.
  destruct (object e =? 0); simpl; [|by apply IH].
  apply NoDup_cons. split; [|by apply IH].
  intros Hin. apply H1. by apply spent_addr.
Qed.

Section Quiet.

Context {W : Type}.
Variable mono_gc_run_finalize : Z -> FinState W -> FinState W.
Variable effect : Z -> W -> W.

(** The finalizers queue nothing for finalization. *)
Hypothesis Hquiet : forall obj s,
  mono_gc_run_finalize obj s
  = mkFin (fin_ready_list s) (critical_fin_list s) (num_ready_finalizers s)
      (effect obj (world s)).

(** [entries] still holds the entry at [a], finalized in the last
    iteration; [rest] is [entries] without it. *)
Inductive held (a : Z) (entries rest : list FinalizeReadyEntry) : Prop :=
| held_at l1 x l2 :
    entries = l1 ++ x :: l2 -> rest = l1 ++ l2 ->
    entry_addr x = a -> a ∉ map entry_addr l1 ->
    held a entries rest.

Definition loop_inv (entry : option Z) (entry_is_critical : bool)
    (s : FinState W) (ready critical : list FinalizeReadyEntry) : Prop :=
  match entry with
  | None => fin_ready_list s = ready /\ critical_fin_list s = critical
  | Some a =>
      if entry_is_critical
      then fin_ready_list s = ready /\ held a (critical_fin_list s) critical
      else held a (fin_ready_list s) ready /\ critical_fin_list s = critical
  end.

Lemma remove_finalized_spec entry entry_is_critical s ready critical :
  loop_inv entry entry_is_critical s ready critical ->
  remove_finalized entry entry_is_critical s
  = Ret (mkFin ready critical (num_ready_finalizers s) (world s)).
Proof.
  unfold loop_inv, remove_finalized.
  destruct entry as [a|]; [destruct entry_is_critical|].
  - intros [<- [l1 x l2 -> -> <- Hnot]]. by rewrite unlink_middle.
  - intros [[l1 x l2 -> -> <- Hnot] <-]. by rewrite unlink_middle.
  - intros [<- <-]. by destruct s.
Qed.

Lemma loop_nonempty entry entry_is_critical s ready critical fuel count :
  loop_inv entry entry_is_critical s ready critical ->
  (ready <> [] \/ critical <> [] \/ entry <> None) ->
  invoke_loop mono_gc_run_finalize (S fuel) entry entry_is_critical count s
  = Collector.bind (remove_finalized entry entry_is_critical s) (fun s =>
      match claim_first (fin_ready_list s) with
      | Some (e, l) =>
          let s := mkFin l (critical_fin_list s)
                     (to_int (num_ready_finalizers s - 1)) (world s) in
          invoke_loop mono_gc_run_finalize fuel (Some (entry_addr e)) false
            (to_int (count + 1)) (mono_gc_run_finalize (object e) s)
      | None =>
          match claim_first (critical_fin_list s) with
          | Some (e, l) =>
              let s := mkFin (fin_ready_list s) l
                         (to_int (num_ready_finalizers s - 1)) (world s) in
              invoke_loop mono_gc_run_finalize fuel (Some (entry_addr e)) true
                (to_int (count + 1)) (mono_gc_run_finalize (object e) s)
          | None => Ret (count, s)
          end
      end).
Proof.
  intros Hinv Hne. simpl.
  destruct (fin_ready_list s) as [|r rs] eqn:Er; [|done].
  destruct (critical_fin_list s) as [|c cs] eqn:Ec; [|done].
  exfalso. unfold loop_inv in Hinv.
  destruct entry as [a|]; [destruct entry_is_critical|].
  - destruct Hinv as [_ [l1 x l2 H _ _ _]].
    rewrite Ec in H. by destruct l1.
  - destruct Hinv as [[l1 x l2 H _ _ _] _].
    rewrite Er in H. by destruct l1.
  - destruct Hinv as [<- <-]. destruct Hne as [?|[?|?]]; congruence.
Qed.

Lemma invoke_loop_spec (k : nat) :
  forall (fuel : nat) entry entry_is_critical count (s : FinState W)
         ready critical,
    loop_inv entry entry_is_critical s ready critical ->
    (length (ready_objects ready) + length (ready_objects critical))%nat = k ->
    (k < fuel)%nat ->
    NoDup (map entry_addr ready) -> NoDup (map entry_addr critical) ->
    to_int count = count ->
    to_int (num_ready_finalizers s) = num_ready_finalizers s ->
    invoke_loop mono_gc_run_finalize fuel entry entry_is_critical count s
    = Ret (to_int (count + Z.of_nat k),
           mkFin (spent ready) (spent critical)
             (to_int (num_ready_finalizers s - Z.of_nat k))
             (fold_left (fun w obj => effect obj w)
                (ready_objects ready ++ ready_objects critical) (world s))).
Proof.
  induction k as [|k IH];
    intros fuel entry crit count s ready critical Hinv Hk Hfuel Hnd1 Hnd2
      Hcount Hnum;
    (destruct fuel as [|fuel]; [lia|]).
  - apply Nat.eq_add_0 in Hk as [Hk1 Hk2].
    apply nil_length_inv in Hk1, Hk2.
    pose proof (ready_objects_none _ Hk1) as [Hc1 Hs1].
    pose proof (ready_objects_none _ Hk2) as [Hc2 Hs2].
    rewrite Hk1, Hk2, Hs1, Hs2. simpl fold_left.
    rewrite Z.add_0_r, Z.sub_0_r, Hcount, Hnum.
    assert (Hcase : (ready = [] /\ critical = [] /\ entry = None)
                    \/ (ready <> [] \/ critical <> [] \/ entry <> None)).
    { destruct ready; [|right; by left].
      destruct critical; [|right; right; by left].
      destruct entry; [right; right; by right|by left]. }
    destruct Hcase as [(-> & -> & ->)|Hne].
    + destruct Hinv as [H1 H2]. simpl. rewrite H1, H2.
      destruct s. simpl in *. by subst.
    + rewrite (loop_nonempty _ _ _ ready critical) by done.
      rewrite (remove_finalized_spec _ _ _ _ _ Hinv). simpl.
      by rewrite Hc1, Hc2.
  - rewrite (loop_nonempty _ _ _ ready critical); [|done|].
    2:{ destruct ready; [|by left]. destruct critical; [|by right; left].
        simpl in Hk. lia. }
    rewrite (remove_finalized_spec _ _ _ _ _ Hinv). simpl.
    destruct (claim_first ready) as [[e l]|] eqn:E1.
    + apply claim_first_some in E1
        as (l1 & l2 & -> & -> & Ho1 & Hs1 & He).
      destruct (has_object_split e He) as [Hoe Hse].
      rewrite Hquiet. simpl.
      rewrite map_app in Hnd1. simpl in Hnd1.
      apply NoDup_app in Hnd1 as (Hn1 & Hn2 & Hn3).
      apply NoDup_cons in Hn3 as [Hn3 Hn4].
      rewrite (IH fuel _ _ _ _ (l1 ++ l2) critical).
      * rewrite !ready_objects_app, !spent_app.
        change (e :: l2) with ([e] ++ l2).
        rewrite !ready_objects_app, !spent_app, Hoe, Hse, Ho1. simpl.
        rewrite to_int_add_l, to_int_sub_l.
        do 2 f_equal; [f_equal; lia|]. f_equal. f_equal. lia.
      * simpl. split; [|done].
        eapply (held_at _ _ _ l1 (mkEntry (entry_addr e) 0) l2);
          [done|done|done|].
        intros Hin. apply (Hn2 _ Hin). by left.
      * rewrite ready_objects_app, Ho1. simpl.
        rewrite ready_objects_app in Hk.
        change (e :: l2) with ([e] ++ l2) in Hk.
        rewrite ready_objects_app, Hoe, Ho1 in Hk. simpl in Hk. lia.
      * lia.
      * rewrite map_app. apply NoDup_app. split; [done|]. split; [|done].
        intros x Hx Hx'. apply (Hn2 x Hx). by right.
      * done.
      * apply to_int_idem.
      * simpl.
        apply to_int_idem.
    + apply claim_first_none in E1 as [Ho1 Hs1].
      destruct (claim_first critical) as [[e l]|] eqn:E2.
      * apply claim_first_some in E2
          as (l1 & l2 & -> & -> & Ho2 & Hs2 & He).
        destruct (has_object_split e He) as [Hoe Hse].
        rewrite Hquiet. simpl.
        rewrite map_app in Hnd2. simpl in Hnd2.
        apply NoDup_app in Hnd2 as (Hn1 & Hn2 & Hn3).
        apply NoDup_cons in Hn3 as [Hn3 Hn4].
        rewrite (IH fuel _ _ _ _ ready (l1 ++ l2)).
        -- rewrite !ready_objects_app, !spent_app.
           change (e :: l2) with ([e] ++ l2).
           rewrite !ready_objects_app, !spent_app, Hoe, Hse, Ho1, Ho2.
           simpl. rewrite to_int_add_l, to_int_sub_l.
           do 2 f_equal; [f_equal; lia|]. f_equal. f_equal. lia.
        -- simpl. split; [done|].
           eapply (held_at _ _ _ l1 (mkEntry (entry_addr e) 0) l2);
             [done|done|done|].
           intros Hin. apply (Hn2 _ Hin). by left.
        -- rewrite ready_objects_app, Ho2. simpl.
           rewrite ready_objects_app in Hk.
           change (e :: l2) with ([e] ++ l2) in Hk.
           rewrite ready_objects_app, Hoe, Ho1, Ho2 in Hk. simpl in Hk.
           rewrite Ho1. simpl. lia.
        -- lia.
        -- done.
        -- rewrite map_app. apply NoDup_app. split; [done|]. split; [|done].
           intros x Hx Hx'. apply (Hn2 x Hx). by right.
        -- apply to_int_idem.
        -- simpl.
           apply to_int_idem.
      * apply claim_first_none in E2 as [Ho2 Hs2].
        rewrite Ho1, Ho2 in Hk. simpl in Hk. lia.
Qed.

(** With finalizers that queue nothing, and entries at distinct
    addresses, [mono_gc_invoke_finalizers] returns after running the
    finalizer of every entry that has an object, once each: those of
    [fin_ready_list] first, then those of [critical_fin_list], either in
    list order.  It returns their number, lowers
    [num_ready_finalizers] by it, and leaves in the lists exactly the
    entries that had no object to begin with, so that a second call runs
    nothing. *)
Theorem invoke_finalizers_runs_all (fuel : nat) (s : FinState W) :
  NoDup (map entry_addr (fin_ready_list s)) ->
  NoDup (map entry_addr (critical_fin_list s)) ->
  to_int (num_ready_finalizers s) = num_ready_finalizers s ->
  (length (ready_objects (fin_ready_list s)
           ++ ready_objects (critical_fin_list s)) < fuel)%nat ->
  let run := ready_objects (fin_ready_list s)
             ++ ready_objects (critical_fin_list s) in
  let s' := mkFin (spent (fin_ready_list s)) (spent (critical_fin_list s))
              (to_int (num_ready_finalizers s - Z.of_nat (length run)))
              (fold_left (fun w obj => effect obj w) run (world s)) in
  mono_gc_invoke_finalizers mono_gc_run_finalize fuel s
  = Ret (to_int (Z.of_nat (length run)), s')
  /\ mono_gc_invoke_finalizers mono_gc_run_finalize fuel s' = Ret (0, s').
Proof.
  intros Hnd1 Hnd2 Hnum Hfuel run s'.
  unfold mono_gc_invoke_finalizers. split.
  - rewrite (invoke_loop_spec (length run) fuel None false 0 s
               (fin_ready_list s) (critical_fin_list s));
      [done|done| |done|done|done|done|done].
    unfold run. by rewrite length_app.
  - assert (Hspent : forall l, ready_objects (spent l) = []
                               /\ spent (spent l) = spent l).
    { intros l. unfold ready_objects, spent, has_object.
      induction l as [|e l [IH1 IH2]]; simpl; [done|].
      destruct (object e =? 0) eqn:E; [|done].
      simpl. rewrite E. simpl. by rewrite IH2. }
    destruct (Hspent (fin_ready_list s)) as [H1 H2].
    destruct (Hspent (critical_fin_list s)) as [H3 H4].
    rewrite (invoke_loop_spec 0 fuel None false 0 s'
               (spent (fin_ready_list s)) (spent (critical_fin_list s))).
    + simpl. rewrite H1, H2, H3, H4. simpl. rewrite Z.sub_0_r.
      unfold s'. f_equal. f_equal. f_equal.
      apply to_int_idem.
    + done.
    + by rewrite H1, H3.
    + lia.
    + by apply NoDup_spent.
    + by apply NoDup_spent.
    + done.
    + simpl.
      apply to_int_idem.
Qed.

Variable has_critical_finalizer : Z -> bool.

(** Queueing the pairs of entry address and object, first to last. *)
Definition queue_all (queued : list (Z * Z)) (s : FinState W) : FinState W :=
  fold_left
    (fun s '(entry, obj) =>
       queue_finalization_entry has_critical_finalizer entry obj s)
    queued s.

Definition entries_of (critical : bool) (queued : list (Z * Z))
    : list FinalizeReadyEntry :=
  map (fun '(entry, obj) => mkEntry entry obj)
    (List.filter
       (fun '(entry, obj) => Bool.eqb (has_critical_finalizer obj) critical)
       queued).

Lemma queue_all_lists queued :
  forall s,
    fin_ready_list (queue_all queued s)
    = rev (entries_of false queued) ++ fin_ready_list s
    /\ critical_fin_list (queue_all queued s)
       = rev (entries_of true queued) ++ critical_fin_list s
    /\ num_ready_finalizers (queue_all queued s) = num_ready_finalizers s
    /\ world (queue_all queued s) = world s.
Proof.
  unfold queue_all, entries_of.
  induction queued as [|[entry obj] queued IH]; intros s; simpl; [done|].
  destruct (IH (queue_finalization_entry has_critical_finalizer entry obj s))
    as (H1 & H2 & H3 & H4).
  rewrite H1, H2, H3, H4. unfold queue_finalization_entry.
  destruct (has_critical_finalizer obj); simpl;
    by rewrite <- ?app_assoc.
Qed.

Lemma entries_of_objects critical queued :
  Forall (fun p => snd p <> 0) queued ->
  ready_objects (rev (entries_of critical queued))
  = rev (map object (entries_of critical queued))
  /\ spent (rev (entries_of critical queued)) = [].
Proof.
  unfold entries_of. intros Hall.
  induction Hall as [|[entry obj] queued Hobj Hall [IH1 IH2]]; simpl; [done|].
  destruct (Bool.eqb _ _); simpl; [|done].
  rewrite ready_objects_app, spent_app, IH1, IH2.
  unfold ready_objects, spent, has_object. simpl in *.
  by destruct (Z.eqb_spec obj 0).
Qed.

Lemma entries_of_addr critical queued x :
  x ∈ map entry_addr (entries_of critical queued) -> x ∈ map fst queued.
Proof.
  unfold entries_of.
  induction queued as [|[entry obj] queued IH]; simpl; [done|].
  destruct (Bool.eqb _ _); simpl.
  - intros [->|H]%elem_of_cons; [by left|]. right. by apply IH.
  - intros H. right. by apply IH.
Qed.

Lemma entries_of_NoDup critical queued :
  NoDup (map fst queued) ->
  NoDup (map entry_addr (rev (entries_of critical queued))).
Proof.
  intros Hnd. rewrite map_rev, <- Permutation_rev.
  unfold entries_of. induction queued as [|[entry obj] queued IH]; simpl.
  - constructor.
  - simpl in Hnd. apply NoDup_cons in Hnd as [H1 H2].
    destruct (Bool.eqb _ _); simpl; [|by apply IH].
    apply NoDup_cons. split; [|by apply IH].
    intros Hin. apply H1. by eapply entries_of_addr.
Qed.

(** Entries are queued at the head of their list and run from the head:
    of the objects queued into empty lists, each with an object and an
    entry of its own, [mono_gc_invoke_finalizers] runs the finalizers of
    those without a critical finalizer, last queued first, then those
    with one, last queued first, and leaves both lists empty. *)
Theorem finalizers_run_last_queued_first
    (queued : list (Z * Z)) (fuel : nat) (num : Z) (w : W) :
  NoDup (map fst queued) ->
  Forall (fun p => snd p <> 0) queued ->
  to_int num = num ->
  (length queued < fuel)%nat ->
  exists count s',
    mono_gc_invoke_finalizers mono_gc_run_finalize fuel
      (queue_all queued (mkFin [] [] num w)) = Ret (count, s')
    /\ fin_ready_list s' = [] /\ critical_fin_list s' = []
    /\ world s'
       = fold_left (fun w obj => effect obj w)
           (rev (map object (entries_of false queued))
            ++ rev (map object (entries_of true queued))) w.
Proof.
  intros Hnd Hobjs Hnum Hfuel.
  destruct (queue_all_lists queued (mkFin [] [] num w))
    as (H1 & H2 & H3 & H4).
  simpl in *. rewrite app_nil_r in H1, H2.
  destruct (entries_of_objects false queued Hobjs) as [Ho1 Hs1].
  destruct (entries_of_objects true queued Hobjs) as [Ho2 Hs2].
  assert (Hcount : (length (entries_of false queued)
                    + length (entries_of true queued)
                    <= length queued)%nat).
  { unfold entries_of. rewrite !length_map.
    clear. induction queued as [|[entry obj] queued IH]; simpl; [lia|].
    destruct (has_critical_finalizer obj); simpl; lia. }
  unfold mono_gc_invoke_finalizers.
  rewrite (invoke_loop_spec
             (length (ready_objects (rev (entries_of false queued)))
              + length (ready_objects (rev (entries_of true queued))))
             fuel None false 0 _
             (rev (entries_of false queued)) (rev (entries_of true queued)));
    [| by split | done | | by apply entries_of_NoDup
     | by apply entries_of_NoDup | done | by rewrite H3].
  - eexists _, _. split; [reflexivity|]. simpl.
    by rewrite Hs1, Hs2, Ho1, Ho2, H4.
  - rewrite Ho1, Ho2, !length_rev, !length_map. lia.
Qed.

End Quiet.

(** Finalizers that only log the object they are run on. *)
Definition demo_run_finalize (obj : Z) (s : FinState (list Z))
    : FinState (list Z) :=
  mkFin (fin_ready_list s) (critical_fin_list s) (num_ready_finalizers s)
    (world s ++ [obj]).

Lemma finalizers_run_last_queued_first_witness :
  exists count s',
    mono_gc_invoke_finalizers demo_run_finalize 5
      (queue_all (fun obj => obj =? 9) [(100, 7); (108, 9); (116, 5)]
         (mkFin [] [] 3 []))
    = Ret (count, s')
    /\ world s' = [5; 7; 9].
Proof.
  destruct (finalizers_run_last_queued_first demo_run_finalize
              (fun obj w => w ++ [obj]) (fun _ _ => eq_refl)
              (fun obj => obj =? 9) [(100, 7); (108, 9); (116, 5)] 5 3 [])
    as (count & s' & Hr & _ & _ & Hw).
  - simpl.
    repeat (apply NoDup_cons; split;
            [rewrite ?elem_of_cons, elem_of_nil; lia|]).
    apply NoDup_nil_2.
  - repeat constructor; simpl; lia.
  - reflexivity.
  - simpl. lia.
  - exists count, s'. split; [exact Hr | exact Hw].
Defined.

Definition demo_fin : FinState (list Z) :=
  mkFin [mkEntry 100 7; mkEntry 108 0; mkEntry 116 9] [mkEntry 200 5] 3 [].

Lemma invoke_finalizers_runs_all_witness :
  mono_gc_invoke_finalizers demo_run_finalize 5 demo_fin
  = Ret (3, mkFin [mkEntry 108 0] [] 0 [7; 9; 5]).
Proof.
  apply (invoke_finalizers_runs_all demo_run_finalize
           (fun obj w => w ++ [obj]) (fun _ _ => eq_refl) 5 demo_fin).
  - simpl.
    repeat (apply NoDup_cons; split;
            [rewrite ?elem_of_cons, elem_of_nil; lia|]).
    apply NoDup_nil_2.
  - simpl.
    repeat (apply NoDup_cons; split;
            [rewrite ?elem_of_cons, elem_of_nil; lia|]).
    apply NoDup_nil_2.
  - reflexivity.
  - simpl. lia.
Defined.

End FinalizersFacts.

(** ** Reporting moved objects to the profiler *)

Module MovedObjectsFacts.

Import MovedObjects WordFacts.

Lemma take_two_stored (l : list Z) (i : nat) (o d : Z) :
  (S i < length l)%nat ->
  take (S (S i)) (<[S i := d]> (<[i := o]> l)) = take i l ++ [o; d].
Proof.
  intros Hi.
  rewrite (take_S_r _ _ d)
    by (apply list_lookup_insert_eq; rewrite length_insert; lia).
  rewrite take_insert_ge by lia.
  rewrite (take_S_r _ _ o) by (apply list_lookup_insert_eq; lia).
  rewrite take_insert_ge by lia.
  by rewrite <- app_assoc.
Qed.

Lemma store_moved_room v st :
  0 <= moved_objects_idx st < Z.of_nat (length (moved_objects st)) ->
  store_moved v st
  = Ret {| moved_objects :=
             <[Z.to_nat (moved_objects_idx st) := v]> (moved_objects st);
           moved_objects_idx := to_int (moved_objects_idx st + 1);
           reported := reported st |}.
Proof.
  intros H. unfold store_moved.
  destruct (Z.leb_spec 0 (moved_objects_idx st)); [|lia].
  by destruct (Z.ltb_spec (moved_objects_idx st)
                 (Z.of_nat (length (moved_objects st)))); [|lia].
Qed.

(** Outside a parallel collection and with the profiler listening, a
    registration always finds room in the array: it reports the full
    array first if need be, and adds the pair behind everything
    registered before.  Reporting the leftovers at the restart of the
    world empties the array and loses nothing. *)
Theorem moved_objects_are_kept
    (generation : Z) (nursery_parallel major_parallel : bool)
    (obj destination : Z) (st : MovedState) :
  buffered st ->
  GrayStack.mono_sgen_collection_is_parallel generation nursery_parallel
    major_parallel = Ret false ->
  (exists st',
     mono_sgen_register_moved_object true generation nursery_parallel
       major_parallel obj destination st = Ret st'
     /\ buffered st'
     /\ moves st' = moves st ++ [obj; destination])
  /\ buffered (report_leftover_moves true st)
  /\ moved_objects_idx (report_leftover_moves true st) = 0
  /\ moves (report_leftover_moves true st) = moves st.
Proof.
  intros (Hlen & Hidx & Heven) Hpar. split.
  - unfold mono_sgen_register_moved_object. rewrite Hpar. simpl.
    set (st1 := if moved_objects_idx st =? MOVED_OBJECTS_NUM
                then report_moves st else st).
    assert (H1 : Z.of_nat (length (moved_objects st1)) = MOVED_OBJECTS_NUM
                 /\ 0 <= moved_objects_idx st1 <= MOVED_OBJECTS_NUM - 2
                 /\ moved_objects_idx st1 mod 2 = 0
                 /\ moves st1 = moves st).
    { subst st1. unfold MOVED_OBJECTS_NUM in *.
      destruct (Z.eqb_spec (moved_objects_idx st) 64) as [E|E].
      - simpl. repeat split; try done.
        unfold moves. simpl. rewrite concat_app. simpl.
        by rewrite !app_nil_r.
      - repeat split; try done; try lia.
        assert (moved_objects_idx st <> 63); [|lia].
        intros E'. by rewrite E' in Heven. }
    clearbody st1. destruct H1 as (Hlen1 & Hidx1 & Heven1 & Hmoves1).
    unfold MOVED_OBJECTS_NUM in *.
    rewrite (store_moved_room obj st1) by lia. simpl.
    rewrite store_moved_room
      by (simpl; rewrite length_insert, to_int_small by lia; lia).
    simpl. eexists. split; [reflexivity|].
    rewrite !to_int_small by (rewrite ?to_int_small by lia; lia).
    split.
    + unfold buffered, MOVED_OBJECTS_NUM. simpl.
      rewrite !length_insert. split; [done|]. split; [lia|].
      replace (moved_objects_idx st1 + 1 + 1)
        with (moved_objects_idx st1 + 1 * 2) by lia.
      by rewrite Z.mod_add.
    + rewrite <- Hmoves1. unfold moves. simpl.
      replace (Z.to_nat (moved_objects_idx st1 + 1 + 1))
        with (S (S (Z.to_nat (moved_objects_idx st1)))) by lia.
      replace (Z.to_nat (moved_objects_idx st1 + 1))
        with (S (Z.to_nat (moved_objects_idx st1))) by lia.
      rewrite take_two_stored by lia. by rewrite app_assoc.
  - unfold report_leftover_moves. simpl.
    destruct (Z.eqb_spec (moved_objects_idx st) 0) as [E|E]; simpl.
    + split; [by split|by split].
    + unfold buffered, moves, MOVED_OBJECTS_NUM in *. simpl.
      rewrite concat_app. simpl. rewrite !app_nil_r.
      repeat split; try done; lia.
Qed.

Lemma moved_objects_are_kept_witness :
  exists st',
    mono_sgen_register_moved_object true GENERATION_NURSERY false false
      4104 1048576 (mkMoved (replicate 64 0) 0 []) = Ret st'
    /\ moves st' = [4104; 1048576].
Proof.
  destruct (moved_objects_are_kept GENERATION_NURSERY false false
              4104 1048576 (mkMoved (replicate 64 0) 0 []))
    as [(st' & Hr & _ & Hm) _].
  - by repeat split.
  - reflexivity.
  - exists st'. split; [exact Hr | exact Hm].
Defined.

End MovedObjectsFacts.

(** ** Accepted heap limits *)

Module AcceptedLimitsFacts.

Import HeapLimits.

(** At initialization the limits are accepted exactly when no
    max-heap-size is given or the one given is at least the
    soft-heap-limit and four nursery sizes.  An accepted max-heap-size
    leaves, once the nursery is taken off, at least three nursery sizes;
    without one the old limit stays.  A soft limit is stored as
    given. *)
Theorem heap_limits_accepted
    (max_heap soft_limit : Z) (st : Limits) :
  is_glong max_heap ->
  0 <= soft_limit -> is_glong soft_limit ->
  0 <= nursery_size st ->
  4 * nursery_size st < mword_modulus ->
  ((exists st', init_heap_size_limits max_heap soft_limit st = InitDone st')
   <-> max_heap = 0
       \/ (soft_limit <= max_heap /\ 4 * nursery_size st <= max_heap))
  /\ forall st',
       init_heap_size_limits max_heap soft_limit st = InitDone st' ->
       nursery_size st' = nursery_size st
       /\ soft_heap_limit st'
          = (if soft_limit =? 0 then soft_heap_limit st else soft_limit)
       /\ (max_heap = 0 -> max_heap_size st' = max_heap_size st)
       /\ (max_heap <> 0 ->
           max_heap_size st' = max_heap - nursery_size st
           /\ 3 * nursery_size st <= max_heap_size st').
Proof.
  intros [Hm1 Hm2] Hsoft [_ Hs2] Hn0 Hn4.
  change mword_modulus with (2 ^ 64) in Hn4.
  unfold init_heap_size_limits.
  set (st1 := if negb (soft_limit =? 0)
              then {| max_heap_size := max_heap_size st;
                      soft_heap_limit := to_mword soft_limit;
                      nursery_size := nursery_size st |}
              else st).
  assert (Hst1 : nursery_size st1 = nursery_size st
                 /\ max_heap_size st1 = max_heap_size st
                 /\ soft_heap_limit st1
                    = if soft_limit =? 0 then soft_heap_limit st
                      else soft_limit).
  { subst st1. destruct (soft_limit =? 0); simpl; [done|].
    repeat split. apply to_mword_small. unfold is_mword.
    change mword_modulus with (2 ^ 64). lia. }
  clearbody st1. destruct Hst1 as (Hn & Hmax & Hsl). rewrite Hn.
  destruct (Z.eqb_spec max_heap 0) as [->|Hne].
  { split; [split; [by left|by exists st1]|].
    intros st' [= <-]. repeat split; try done. }
  destruct (Z.ltb_spec max_heap soft_limit) as [Hlt|Hge].
  { split; [|done]. split; [by intros [? ?]|].
    intros [?|[? ?]]; [done|lia]. }
  rewrite (to_mword_small max_heap)
    by (unfold is_mword; change mword_modulus with (2 ^ 64); lia).
  rewrite (to_mword_small (nursery_size st * 4))
    by (unfold is_mword; change mword_modulus with (2 ^ 64); lia).
  destruct (Z.ltb_spec max_heap (nursery_size st * 4)) as [Hsmall|Hbig].
  { split; [|done]. split; [by intros [? ?]|].
    intros [?|[? ?]]; [done|lia]. }
  split.
  - split; [intros _; right; lia|]. intros _. by eexists.
  - intros st' [= <-]. simpl.
    rewrite to_mword_small
      by (unfold is_mword; change mword_modulus with (2 ^ 64); lia).
    repeat split; try done; lia.
Qed.

Lemma heap_limits_accepted_witness :
  exists st',
    init_heap_size_limits 67108864 33554432
      {| max_heap_size := 0; soft_heap_limit := 0; nursery_size := 4194304 |}
    = InitDone st'
    /\ max_heap_size st' = 62914560.
Proof.
  destruct (heap_limits_accepted 67108864 33554432
              {| max_heap_size := 0; soft_heap_limit := 0;
                 nursery_size := 4194304 |})
    as [_ H];
    try (unfold is_glong; simpl; lia);
    try (change mword_modulus with (2 ^ 64); simpl; lia).
  eexists. split; [reflexivity|].
  destruct (H _ eq_refl) as (_ & _ & _ & H4).
  destruct H4 as [H4 _]; [lia|]. exact H4.
Defined.

End AcceptedLimitsFacts.

(** ** From scanned words to pinned objects *)

Module PinPipelineFacts.

Import Pinning PinningFacts PinningLayoutFacts.
Import Conservative ConservativeFacts Sorting SortingFacts.

Lemma sorted_by_index (l : list Z) :
  (forall j k : nat, (j <= k)%nat -> (k < length l)%nat ->
     get l j <= get l k) ->
  Sorted Z.le l.
Proof.
  induction l as [|x l IH]; intros H; constructor.
  - apply IH. intros j k Hjk Hk.
    apply (H (S j) (S k)); simpl; lia.
  - destruct l as [|y l]; constructor.
    apply (H 0%nat 1%nat); simpl; lia.
Qed.

Section Pipeline.

Variable ALLOC_ALIGN_BITS : nat.
Variable sizeof_gpointer : positive.
Variable SCAN_START_SIZE : positive.
Variable safe_object_get_size : Z -> Z.
Variable synchronisation : Z -> Z.
Variable do_pin_stats : bool.
Variable ptr_in_nursery : Z -> bool.
Variable section : GCMemSection.
Variable start_nursery end_nursery : Z.
Variable heap0 : Z -> Z.

Local Abbreviation A := (ALLOC_ALIGN ALLOC_ALIGN_BITS).
Local Abbreviation asize :=
  (aligned_size ALLOC_ALIGN_BITS safe_object_get_size).
Local Abbreviation position :=
  (position ALLOC_ALIGN_BITS sizeof_gpointer safe_object_get_size heap0
     start_nursery end_nursery).
Local Abbreviation object_at :=
  (object_at ALLOC_ALIGN_BITS sizeof_gpointer safe_object_get_size
     synchronisation heap0 start_nursery end_nursery).

(** The section can be iterated and its scan starts are headers. *)
Hypothesis Hlayout :
  well_formed ALLOC_ALIGN_BITS sizeof_gpointer SCAN_START_SIZE
    safe_object_get_size section [] start_nursery end_nursery heap0.

Hypothesis Hstart : start_nursery mod A = 0.

Lemma ALIGN_UP_aligned s : ALIGN_UP ALLOC_ALIGN_BITS s mod A = 0.
Proof.
  rewrite ALIGN_UP_div. apply Z.mod_mul.
  pose proof (ALLOC_ALIGN_pos ALLOC_ALIGN_BITS). lia.
Qed.

Lemma position_aligned a : position a -> a mod A = 0.
Proof.
  pose proof (ALLOC_ALIGN_pos ALLOC_ALIGN_BITS) as Hpos.
  induction 1 as [|a Ha IH Hlt]; [done|].
  unfold next_position. destruct (heap0 a =? 0).
  - apply ALIGN_UP_aligned.
  - unfold aligned_size. rewrite ALIGN_UP_guint_mod.
    set (m := to_guint _).
    pose proof (Z.div_mod m A ltac:(lia)) as Hm.
    replace (a + (m - m mod A)) with (a + m / A * A) by lia.
    rewrite Z.mod_add by lia. exact IH.
Qed.

Lemma layout_with (candidates : list Z) :
  Sorted Z.le candidates ->
  (forall addr, addr ∈ candidates -> start_nursery <= addr < end_nursery) ->
  well_formed ALLOC_ALIGN_BITS sizeof_gpointer SCAN_START_SIZE
    safe_object_get_size section candidates start_nursery end_nursery heap0.
Proof.
  intros Hsorted Hrange. destruct Hlayout as [H1 H2 H3 H4 H5 H6 _ _].
  split; try done.
  intros addr Hin. apply Hrange. by apply list_elem_of_In.
Qed.

(** The three steps of conservative pinning, one after the other:
    [conservatively_pin_objects_from] stages the words of a scanned area,
    [mono_sgen_sort_addresses] sorts what was staged, and
    [pin_objects_from_addresses] resolves the sorted addresses.  In a
    section that can be iterated (the size of each object and placeholder
    is positive once rounded up in 32 bits, as the code rounds it) and
    starts at a multiple of [ALLOC_ALIGN], the three return, and every object of the section
    that a scanned word points into, at its start or anywhere inside,
    ends up with its pin tag set and in the gray queue. *)
Theorem scanned_words_pin_their_objects
    (words : list Z) (pin_type : Z) (queue : list Z)
    (fuel_sort fuel_pin : nat) :
  let candidates :=
    staged (conservatively_pin_objects_from ALLOC_ALIGN_BITS do_pin_stats
              ptr_in_nursery words start_nursery end_nursery pin_type
              (mkStage [] [])) in
  Forall is_mword words ->
  Z.of_nat (length candidates) <= 2 ^ 30 ->
  (length candidates <= fuel_sort)%nat ->
  (Z.to_nat (end_nursery - start_nursery) < fuel_pin)%nat ->
  exists sorted st,
    mono_sgen_sort_addresses fuel_sort candidates (length candidates)
      = Ret sorted
    /\ pin_objects_from_addresses ALLOC_ALIGN_BITS sizeof_gpointer
         SCAN_START_SIZE safe_object_get_size synchronisation fuel_pin
         section sorted start_nursery end_nursery heap0 queue = Ret st
    /\ forall word a,
         word ∈ words ->
         start_nursery <= word < end_nursery ->
         object_at a ->
         a <= word < a + asize a ->
         object_is_pinned (heap st) a = true /\ a ∈ gray_queue st.
Proof.
  intros candidates Hwords Hsize Hfuel1 Hfuel2.
  destruct (scan_stages ALLOC_ALIGN_BITS do_pin_stats ptr_in_nursery words
              start_nursery end_nursery pin_type (mkStage [] []) Hwords)
    as (added & Hstaged & Hsound & Hcomplete).
  simpl in Hstaged. fold candidates in Hstaged.
  destruct (sort_addresses_run fuel_sort candidates (length candidates))
    as (sorted & Hsort & (_ & Hinc & Hbelow) & Hperm & _); [lia|done|].
  assert (Hlen' : length sorted = length candidates)
    by (by apply Permutation_length).
  assert (Hwf : well_formed ALLOC_ALIGN_BITS sizeof_gpointer SCAN_START_SIZE
                  safe_object_get_size section sorted start_nursery
                  end_nursery heap0).
  { apply layout_with.
    - apply sorted_by_index. intros j k Hjk Hk.
      destruct (decide (j = 0%nat)) as [->|Hj].
      + destruct (decide (k = 0%nat)) as [->|Hk0]; [lia|].
        apply Hbelow; lia.
      + apply Hinc; lia.
    - intros addr Hin. rewrite Hperm, Hstaged in Hin.
      by destruct (Hsound addr Hin) as (_ & ? & _). }
  destruct (resolve_loop ALLOC_ALIGN_BITS sizeof_gpointer SCAN_START_SIZE
              safe_object_get_size synchronisation section sorted
              start_nursery end_nursery heap0 Hwf queue fuel_pin Hfuel2
              (length sorted) 0 (initial_state sorted heap0 queue)
              ltac:(lia) (progress_initial _ _ _ _ _)
              (resolved_initial _ _ _ _ _ _ _ _ _))
    as (st & Hrun & Hpr & Hrs).
  exists sorted, st. split; [done|]. split; [exact Hrun|].
  intros word a Hword Hrange Hobj Hin.
  assert (Hpinned : a ∈ definitely_pinned st).
  { apply (rs_covered _ _ _ _ _ _ _ _ _ _ Hrs (word - word mod A) a).
    - rewrite take_ge by lia. rewrite Hperm, Hstaged.
      by apply Hcomplete.
    - exact Hobj.
    - unfold inside.
      pose proof (ALLOC_ALIGN_pos ALLOC_ALIGN_BITS) as Hpos.
      pose proof (Z.mod_pos_bound word A Hpos).
      destruct Hobj as [Hposn _].
      pose proof (position_aligned a Hposn) as Ha.
      pose proof (Z.div_mod a A ltac:(lia)) as Hda.
      pose proof (Z.div_mod word A ltac:(lia)) as Hdw.
      assert (a / A <= word / A) by (apply Z.div_le_mono; lia).
      split; [nia|lia]. }
  split.
  - unfold object_is_pinned.
    rewrite (pr_heap _ _ _ _ _ _ _ Hpr), decide_True by done.
    apply pin_tag_set.
  - rewrite (pr_queue _ _ _ _ _ _ _ Hpr). apply elem_of_app. by right.
Qed.

End Pipeline.

Lemma demo_layout :
  well_formed 3 8 64 demo_size demo_section [] 4096 4224 demo_heap.
Proof.
  destruct demo_well_formed as [H1 H2 H3 H4 H5 H6 _ _].
  by split.
Qed.

Lemma scanned_words_pin_their_objects_witness :
  exists sorted st,
    mono_sgen_sort_addresses 8
      (staged (conservatively_pin_objects_from 3 false (fun _ => false)
                 [4184; 17; 4100] 4096 4224 0 (mkStage [] []))) 2
    = Ret sorted
    /\ pin_objects_from_addresses 3 8 64 demo_size demo_synchronisation 200
         demo_section sorted 4096 4224 demo_heap [] = Ret st
    /\ object_is_pinned (heap st) 4176 = true.
Proof.
  destruct (scanned_words_pin_their_objects 3 8 64 demo_size
              demo_synchronisation false (fun _ => false) demo_section
              4096 4224 demo_heap demo_layout eq_refl
              [4184; 17; 4100] 0 [] 8 200)
    as (sorted & st & Hsort & Hpin & Hall).
  - repeat constructor; unfold is_mword, mword_modulus, mword_bits; lia.
  - simpl. lia.
  - simpl. lia.
  - vm_compute. lia.
  - exists sorted, st. split; [exact Hsort|]. split; [exact Hpin|].
    apply (Hall 4184 4176).
    + by left.
    + lia.
    + split; [|split; [discriminate|discriminate]].
      apply (wf_scan_starts _ _ _ _ _ _ _ _ _ demo_layout);
        [right; left; reflexivity | discriminate].
    + change (aligned_size 3 demo_size 4176) with 24. lia.
Defined.

End PinPipelineFacts.

(** ** One allowance per major collection *)

Module AllowanceFacts.

Import Collector Allowance.

Section WithWorld.

Context {World : Type}.
Variable mc : MajorCollector World.

Lemma flag_after_recompute v (s : GCState World) :
  need_calculate_minor_collection_allowance
    (set_need_calculate false
       (call_have_computed mc (set_minor_collection_allowance v s)))
  = false.
Proof.
  unfold call_have_computed.
  by destruct (have_computed_minor_collection_allowance mc).
Qed.

(** The allowance is computed once per request.  After
    [reset_minor_collection_allowance], a call made before the major
    collector has swept computes nothing and leaves the request standing
    (with [overwrite], it sets the minimum allowance meanwhile); the
    first call made after the sweep computes the allowance and takes the
    request down, so that a further call without [overwrite] changes
    nothing and one with [overwrite] fails its assertion. *)
Theorem allowance_computed_once (s : GCState World) :
  let s0 := reset_minor_collection_allowance s in
  (have_swept mc (world s) = false ->
   try_calculate_minor_collection_allowance mc false s0 = Ret s0
   /\ try_calculate_minor_collection_allowance mc true s0
      = Ret (set_minor_collection_allowance
               (MIN_MINOR_COLLECTION_ALLOWANCE mc) s0))
  /\ (have_swept mc (world s) = true ->
      forall overwrite, exists s1,
        try_calculate_minor_collection_allowance mc overwrite s0 = Ret s1
        /\ need_calculate_minor_collection_allowance s1 = false
        /\ try_calculate_minor_collection_allowance mc false s1 = Ret s1
        /\ try_calculate_minor_collection_allowance mc true s1
           = Abort AssertionFailure).
Proof.
  simpl. unfold try_calculate_minor_collection_allowance. split.
  - intros Hswept. simpl. by rewrite Hswept.
  - intros Hswept overwrite. simpl. rewrite Hswept, andb_false_r. simpl.
    eexists. split; [reflexivity|].
    rewrite flag_after_recompute. simpl. by split.
Qed.

End WithWorld.

Lemma allowance_computed_once_witness :
  exists s1,
    try_calculate_minor_collection_allowance (CollectorFacts.demo_major 1)
      false
      (reset_minor_collection_allowance (CollectorFacts.demo_state 0 false))
    = Ret s1
    /\ try_calculate_minor_collection_allowance (CollectorFacts.demo_major 1)
         true s1
       = Abort AssertionFailure.
Proof.
  destruct (allowance_computed_once (CollectorFacts.demo_major 1)
              (CollectorFacts.demo_state 0 false)) as [_ H].
  destruct (H eq_refl false) as (s1 & H1 & _ & _ & H4).
  exists s1. split; [exact H1 | exact H4].
Defined.

End AllowanceFacts.

(** ** Heap space and the need for a major collection *)

Module MajorNeedFacts.

Import Collector HeapSpace HeapSpaceFacts MajorNeed.

Section WithWorld.

Context {World : Type}.
Variable mc : MajorCollector World.

(** The reservation and the collection trigger agree on what fits: a
    reservation that [mono_sgen_try_alloc_space] refuses always makes
    [mono_sgen_need_major_collection] ask for a major collection, and
    whenever no major collection is needed for a size the reservation of
    that size succeeds. *)
Theorem refused_space_needs_major (size space : Z) (s : GCState World) :
  (fst (mono_sgen_try_alloc_space size space s) = false ->
   mono_sgen_need_major_collection mc size s = true)
  /\ (mono_sgen_need_major_collection mc size s = false ->
      fst (mono_sgen_try_alloc_space size space s) = true).
Proof.
  unfold mono_sgen_need_major_collection, need_major_collection,
    mono_sgen_try_alloc_space.
  rewrite Z.gtb_ltb.
  destruct (available_free_space s <? size); simpl; split; try done.
Qed.

(** Releasing more than is allocated wraps [allocated_heap] around; when
    the wrapped value is not below [max_heap_size], no free space is left
    and every later reservation of a positive size is refused. *)
Theorem over_release_exhausts_space
    (size space n space' : Z) (s : GCState World) :
  is_mword (allocated_heap s) ->
  is_mword (max_heap_size s) ->
  allocated_heap s < size <= mword_modulus ->
  max_heap_size s <= mword_modulus - (size - allocated_heap s) ->
  0 < n ->
  allocated_heap (mono_sgen_release_space size space s)
  = mword_modulus - (size - allocated_heap s)
  /\ available_free_space (mono_sgen_release_space size space s) = 0
  /\ mono_sgen_try_alloc_space n space'
       (mono_sgen_release_space size space s)
     = (false, mono_sgen_release_space size space s).
Proof.
  intros [Ha1 Ha2] [Hm1 Hm2] [Hs1 Hs2] Hmax Hn.
  assert (Hwrap : allocated_heap (mono_sgen_release_space size space s)
                  = mword_modulus - (size - allocated_heap s)).
  { unfold mono_sgen_release_space. simpl. unfold to_mword.
    symmetry. apply (Z.mod_unique _ _ (-1)); [left; lia | lia]. }
  assert (Hmaxs : max_heap_size (mono_sgen_release_space size space s)
                  = max_heap_size s) by done.
  assert (Hfree : available_free_space (mono_sgen_release_space size space s)
                  = 0).
  { unfold available_free_space. rewrite Hwrap, Hmaxs, MIN_spec.
    rewrite Z.min_r by lia. by rewrite Z.sub_diag. }
  split; [done|]. split; [done|].
  unfold mono_sgen_try_alloc_space. rewrite Hfree.
  by destruct (Z.ltb_spec 0 n); [|lia].
Qed.

End WithWorld.

Lemma over_release_exhausts_space_witness :
  mono_sgen_try_alloc_space 8 0 (mono_sgen_release_space 8192 0 (demo_gc 4096))
  = (false, mono_sgen_release_space 8192 0 (demo_gc 4096)).
Proof.
  apply (over_release_exhausts_space 8192 0 8 0 (demo_gc 4096));
    cbn; unfold is_mword, mword_modulus, mword_bits; lia.
Defined.

End MajorNeedFacts.
